(** * kicad_lib: the S-expression engine and the symbol/schematic decoders

    A shallow embedding of [kicad_lib/parser/sexpr.py],
    [kicad_lib/writer/sexpr_writer.py], [kicad_lib/parser/symbol_parser.py],
    [kicad_lib/writer/symbol_writer.py], [kicad_lib/parser/schematic_parser.py]
    and the value types they build, followed by the properties of the
    specification that were checked against them.

    Conventions of the embedding:
    - a Python [str] is a [string]; a character is a code point below 256;
    - a Python [float] is a binary64 [PrimFloat.float];
    - a Python [int] is a [Z]; lengths, lines and columns are [nat];
    - an object mutated in a loop is passed and returned explicitly;
    - a function that may raise returns an [Outcome];
    - the limits of the interpreter (the recursion depth, the digit limit of
      the conversions between [int] and [str]) are not modelled. *)

From Stdlib Require Import Bool Arith ZArith Lia List String Ascii.
From Stdlib Require Import PrimFloat SpecFloat FloatOps FloatAxioms.
From Stdlib Require DecimalString DecimalPos.
Import ListNotations.
Set Warnings "-register-all".
Local Open Scope string_scope.
Local Open Scope nat_scope.

(** ** result.py *)

Inductive Result (T E : Type) : Type :=
| Ok (value : T)
| Err (error : E).
Arguments Ok {T E} value.
Arguments Err {T E} error.

Definition is_err {T E} (r : Result T E) : bool :=
  match r with Ok _ => false | Err _ => true end.

(** ** Characters the scanner and the writer single out *)

Definition NL : ascii := "010"%char.
Definition TAB : ascii := "009"%char.
Definition CR : ascii := "013"%char.
Definition SPACE : ascii := "032"%char.
Definition DQUOTE : ascii := "034"%char.
Definition BSLASH : ascii := "092"%char.
Definition LPAR : ascii := "040"%char.
Definition RPAR : ascii := "041"%char.
Definition SEMI : ascii := "059"%char.

Definition str1 (c : ascii) : string := String c EmptyString.

(** Membership in the blank characters: space, tab, newline, carriage return. *)
Definition is_space (ch : ascii) : bool :=
  Ascii.eqb ch SPACE || Ascii.eqb ch TAB || Ascii.eqb ch NL || Ascii.eqb ch CR.

(** Membership in the characters that end a bare atom: a blank, a parenthesis
    or the double quote. *)
Definition is_atom_end (ch : ascii) : bool :=
  is_space ch || Ascii.eqb ch LPAR || Ascii.eqb ch RPAR || Ascii.eqb ch DQUOTE.

(** ** parser/sexpr.py: values, errors, tokens *)

Inductive SExpr : Type :=
| Atom (s : string)
| SList (items : list SExpr).

Record ParseError : Type := mkParseError {
  message : string;
  line : nat;
  column : nat
}.

Inductive TokenType : Type := LPAREN | RPAREN | STRING | ATOM.

Record Token : Type := mkToken {
  tok_type : TokenType;
  tok_value : string;
  tok_line : nat;
  tok_column : nat
}.

(** ** Tokenizer

    The scanner state: [t_rest] is [_text[_pos:]], the part not yet consumed;
    [t_line] and [t_col] are [_line] and [_col]. *)

Record Tokenizer : Type := mkTokenizer {
  t_rest : string;
  t_line : nat;
  t_col : nat
}.

Definition Tokenizer_init (text : string) : Tokenizer := mkTokenizer text 1 1.

(** The position update of [_advance] for the consumed character [ch]. *)
Definition _advance (ch : ascii) (l c : nat) : nat * nat :=
  if Ascii.eqb ch NL then (S l, 1) else (l, S c).

(** [_skip_whitespace]: the outer loop consumes blanks; on [;] the inner loop
    consumes up to (not including) the end of the line, and the outer loop
    resumes there. *)
Fixpoint _skip_whitespace_from (s : string) (l c : nat) : Tokenizer :=
  match s with
  | EmptyString => mkTokenizer s l c
  | String ch r =>
      if is_space ch then
        let '(l', c') := _advance ch l c in _skip_whitespace_from r l' c'
      else if Ascii.eqb ch SEMI then
        (fix comment (t : string) (l c : nat) {struct t} : Tokenizer :=
           match t with
           | EmptyString => mkTokenizer t l c
           | String ch' r' =>
               if Ascii.eqb ch' NL then
                 (* inner loop stops; the outer loop consumes the newline *)
                 let '(l', c') := _advance ch' l c in
                 _skip_whitespace_from r' l' c'
               else
                 let '(l', c') := _advance ch' l c in comment r' l' c'
           end) r (fst (_advance ch l c)) (snd (_advance ch l c))
      else mkTokenizer s l c
  end.

(** The inner loop of [_skip_whitespace] on its own, as it runs inside
    [_skip_whitespace_from]. *)
Fixpoint skip_comment (t : string) (l c : nat) {struct t} : Tokenizer :=
  match t with
  | EmptyString => mkTokenizer t l c
  | String ch' r' =>
      if Ascii.eqb ch' NL then
        let '(l', c') := _advance ch' l c in
        _skip_whitespace_from r' l' c'
      else
        let '(l', c') := _advance ch' l c in skip_comment r' l' c'
  end.

Definition _skip_whitespace (st : Tokenizer) : Tokenizer :=
  _skip_whitespace_from (t_rest st) (t_line st) (t_col st).

(** The character appended for the escape [\e]. *)
Definition unescape (e : ascii) : ascii :=
  if Ascii.eqb e "n"%char then NL
  else if Ascii.eqb e "t"%char then TAB
  else if Ascii.eqb e "r"%char then CR
  else e.

(** The loop of [_read_string], entered after the opening quote was consumed.
    [None] is the exit of the loop at the end of the input. *)
Fixpoint _read_string_loop (s : string) (l c : nat) (chars : string)
  : option (string * Tokenizer) :=
  match s with
  | EmptyString => None
  | String ch r =>
      if Ascii.eqb ch DQUOTE then
        let '(l', c') := _advance ch l c in
        Some (chars, mkTokenizer r l' c')
      else if Ascii.eqb ch BSLASH then
        let '(l1, c1) := _advance ch l c in
        match r with
        | EmptyString => None
        | String e r' =>
            let '(l2, c2) := _advance e l1 c1 in
            _read_string_loop r' l2 c2 (chars ++ str1 (unescape e))
        end
      else
        let '(l', c') := _advance ch l c in
        _read_string_loop r l' c' (chars ++ str1 ch)
  end.

(** [_read_string], called with the opening quote [q] as the next character. *)
Definition _read_string (q : ascii) (r : string) (l c : nat)
  : Result (Token * Tokenizer) ParseError :=
  let start_line := l in
  let start_col := c in
  let '(l1, c1) := _advance q l c in
  match _read_string_loop r l1 c1 "" with
  | Some (chars, st) => Ok (mkToken STRING chars start_line start_col, st)
  | None => Err (mkParseError "Unterminated string" start_line start_col)
  end.

(** The loop of [_read_atom]. *)
Fixpoint _read_atom_loop (s : string) (l c : nat) (chars : string)
  : string * Tokenizer :=
  match s with
  | EmptyString => (chars, mkTokenizer s l c)
  | String ch r =>
      if is_atom_end ch then (chars, mkTokenizer s l c)
      else
        let '(l', c') := _advance ch l c in
        _read_atom_loop r l' c' (chars ++ str1 ch)
  end.

Definition _read_atom (st : Tokenizer) : Token * Tokenizer :=
  let '(chars, st') := _read_atom_loop (t_rest st) (t_line st) (t_col st) "" in
  (mkToken ATOM chars (t_line st) (t_col st), st').

(** One iteration of the loop of [tokenize]. *)
Inductive Lexed : Type :=
| LexEnd
| LexTok (t : Token) (st : Tokenizer)
| LexErr (e : ParseError).

Definition next_token (st : Tokenizer) : Lexed :=
  let st1 := _skip_whitespace st in
  match t_rest st1 with
  | EmptyString => LexEnd
  | String ch r =>
      let l := t_line st1 in
      let c := t_col st1 in
      if Ascii.eqb ch LPAR then
        let '(l', c') := _advance ch l c in
        LexTok (mkToken LPAREN "(" l c) (mkTokenizer r l' c')
      else if Ascii.eqb ch RPAR then
        let '(l', c') := _advance ch l c in
        LexTok (mkToken RPAREN ")" l c) (mkTokenizer r l' c')
      else if Ascii.eqb ch DQUOTE then
        match _read_string ch r l c with
        | Ok (t, st') => LexTok t st'
        | Err e => LexErr e
        end
      else
        let '(t, st') := _read_atom st1 in LexTok t st'
  end.

(** The loop of [tokenize]; every iteration that produces a token consumes at
    least one character, so [S (length text)] iterations always suffice. *)
Fixpoint tokenize_loop (fuel : nat) (st : Tokenizer) (tokens : list Token)
  : option (Result (list Token) ParseError) :=
  match fuel with
  | 0 => None
  | S fuel' =>
      match next_token st with
      | LexEnd => Some (Ok tokens)
      | LexErr e => Some (Err e)
      | LexTok t st' => tokenize_loop fuel' st' (tokens ++ [t])
      end
  end.

Definition tokenize_from (st : Tokenizer) (tokens : list Token)
  : option (Result (list Token) ParseError) :=
  tokenize_loop (S (String.length (t_rest st))) st tokens.

Definition tokenize (text : string)
  : option (Result (list Token) ParseError) :=
  tokenize_from (Tokenizer_init text) [].

(** The position reached from line [l], column [c] after the characters of
    [s] were consumed. *)
Fixpoint advance_over (s : string) (l c : nat) : nat * nat :=
  match s with
  | EmptyString => (l, c)
  | String ch r => let '(l', c') := _advance ch l c in advance_over r l' c'
  end.

(** The position of the character that follows the prefix [pre] of a text,
    both 1-indexed: the line is one more than the number of newlines of
    [pre], the column one more than the number of characters after its last
    newline. *)
Fixpoint count_newlines (s : string) : nat :=
  match s with
  | EmptyString => 0
  | String ch r => (if Ascii.eqb ch NL then 1 else 0) + count_newlines r
  end.

Fixpoint chars_since_newline (s : string) (acc : nat) : nat :=
  match s with
  | EmptyString => acc
  | String ch r =>
      if Ascii.eqb ch NL then chars_since_newline r 0
      else chars_since_newline r (S acc)
  end.

Definition line_of (pre : string) : nat := 1 + count_newlines pre.
Definition column_of (pre : string) : nat := 1 + chars_since_newline pre 0.

(** Whether a string body (the text after an opening quote) holds a closing
    quote: a double quote that is not escaped by a backslash. *)
Fixpoint has_closing_quote (s : string) : bool :=
  match s with
  | EmptyString => false
  | String ch r =>
      if Ascii.eqb ch DQUOTE then true
      else if Ascii.eqb ch BSLASH then
        match r with
        | EmptyString => false
        | String _ r' => has_closing_quote r'
        end
      else has_closing_quote r
  end.

(** [lexes st toks st']: from the state [st] the loop of [tokenize] produces
    the tokens [toks] in that many iterations and stands in [st']. *)
Inductive lexes : Tokenizer -> list Token -> Tokenizer -> Prop :=
| lexes_nil st : lexes st [] st
| lexes_cons st t st1 toks st' :
    next_token st = LexTok t st1 ->
    lexes st1 toks st' ->
    lexes st (t :: toks) st'.

(** A scanner step from [(s, l, c)] to [st] consumed a prefix of [s] and
    moved the position over it. *)
Definition consumed (s : string) (l c : nat) (st : Tokenizer) (pre : string) : Prop :=
  s = pre ++ t_rest st /\ advance_over pre l c = (t_line st, t_col st).

(** The first character left by [_skip_whitespace] starts a token. *)
Definition starts_token (s : string) : Prop :=
  match s with
  | EmptyString => True
  | String ch _ => is_space ch = false /\ Ascii.eqb ch SEMI = false
  end.

(** Positions are 1-indexed. *)
Definition pos_ok (l c : nat) : Prop := 1 <= l /\ 1 <= c.
Definition token_ok (t : Token) : Prop := pos_ok (tok_line t) (tok_column t).
Definition error_ok (e : ParseError) : Prop := pos_ok (line e) (column e).

(** ** Parser

    The parser state is the list of tokens from [_pos] on.  [_parse_expr] and
    [_parse_list] call each other; [fuel] bounds the number of calls. *)

Fixpoint _parse_expr (fuel : nat) (toks : list Token)
  : option (Result (SExpr * list Token) ParseError) :=
  match fuel with
  | 0 => None
  | S fuel' =>
      match toks with
      | [] => Some (Err (mkParseError "Unexpected end of input" 0 0))
      | token :: rest =>
          match tok_type token with
          | LPAREN =>
              match _parse_list fuel' token [] rest with
              | Some (Ok (items, rest')) => Some (Ok (SList items, rest'))
              | Some (Err e) => Some (Err e)
              | None => None
              end
          | RPAREN =>
              Some (Err (mkParseError "Unexpected closing paren"
                           (tok_line token) (tok_column token)))
          | _ => Some (Ok (Atom (tok_value token), rest))
          end
      end
  end
with _parse_list (fuel : nat) (start_token : Token) (items : list SExpr)
       (toks : list Token)
  : option (Result (list SExpr * list Token) ParseError) :=
  match fuel with
  | 0 => None
  | S fuel' =>
      match toks with
      | [] =>
          Some (Err (mkParseError "Unexpected end of input in list"
                       (tok_line start_token) (tok_column start_token)))
      | token :: rest =>
          match tok_type token with
          | RPAREN => Some (Ok (items, rest))
          | _ =>
              match _parse_expr fuel' toks with
              | Some (Ok (item, rest')) =>
                  _parse_list fuel' start_token (items ++ [item]) rest'
              | Some (Err e) => Some (Err e)
              | None => None
              end
          end
      end
  end.

Definition parser_fuel (toks : list Token) : nat := 2 * List.length toks + 2.

(** The error of [_parse_expr] on an exhausted token stream. *)
Definition E_eof : ParseError := mkParseError "Unexpected end of input" 0 0.

(** [Parser.parse] *)
Definition parse (toks : list Token) : option (Result SExpr ParseError) :=
  match _parse_expr (parser_fuel toks) toks with
  | None => None
  | Some (Err e) => Some (Err e)
  | Some (Ok (expr, rest)) =>
      match rest with
      | token :: _ =>
          Some (Err (mkParseError
                       ("Unexpected token after expression: " ++ tok_value token)
                       (tok_line token) (tok_column token)))
      | [] => Some (Ok expr)
      end
  end.

(** [Parser.parse_all] *)
Fixpoint parse_all_loop (fuel : nat) (exprs : list SExpr) (toks : list Token)
  : option (Result (list SExpr) ParseError) :=
  match fuel with
  | 0 => None
  | S fuel' =>
      match toks with
      | [] => Some (Ok exprs)
      | _ :: _ =>
          match _parse_expr (parser_fuel toks) toks with
          | None => None
          | Some (Err e) => Some (Err e)
          | Some (Ok (expr, rest)) => parse_all_loop fuel' (exprs ++ [expr]) rest
          end
      end
  end.

Definition parse_all (toks : list Token) : option (Result (list SExpr) ParseError) :=
  parse_all_loop (S (List.length toks)) [] toks.

Definition parse_sexpr (text : string) : option (Result SExpr ParseError) :=
  match tokenize text with
  | None => None
  | Some (Err e) => Some (Err e)
  | Some (Ok tokens) => parse tokens
  end.

Definition parse_sexpr_file (text : string)
  : option (Result (list SExpr) ParseError) :=
  match tokenize text with
  | None => None
  | Some (Err e) => Some (Err e)
  | Some (Ok tokens) => parse_all tokens
  end.

(** ** Tree query helpers *)

(** [isinstance(item, list) and len(item) > 0 and item[0] == key] *)
Definition head_is (key : string) (item : SExpr) : bool :=
  match item with
  | SList (Atom h :: _) => String.eqb h key
  | _ => false
  end.

Definition sexpr_get (expr : SExpr) (key : string) : option SExpr :=
  match expr with
  | Atom _ => None
  | SList items => find (head_is key) items
  end.

Definition sexpr_get_all (expr : SExpr) (key : string) : list SExpr :=
  match expr with
  | Atom _ => []
  | SList items => filter (head_is key) items
  end.

Definition sexpr_get_value (expr : SExpr) (key : string) : option string :=
  match sexpr_get expr key with
  | Some (SList (_ :: Atom val :: _)) => Some val
  | _ => None
  end.

Definition is_atom (x : SExpr) : bool :=
  match x with Atom _ => true | SList _ => false end.

(** [x == flag] for an element [x] of a tree and a string [flag]. *)
Definition atom_is (flag : string) (x : SExpr) : bool :=
  match x with Atom a => String.eqb a flag | SList _ => false end.

Definition sexpr_has_flag (expr : SExpr) (flag : string) : bool :=
  match expr with
  | Atom _ => false
  | SList items => existsb (atom_is flag) items
  end.

(** ** Python's number conversions

    [int(s)] and [float(s)] accept blanks around the literal, a sign, and
    single underscores between digits; [None] stands for [ValueError]. *)

Definition is_digit (ch : ascii) : bool :=
  let n := nat_of_ascii ch in (48 <=? n) && (n <=? 57).

Definition digit_value (ch : ascii) : Z := Z.of_nat (nat_of_ascii ch - 48).

(** The blanks [int] and [float] skip around a literal, below code point
    256: the ASCII blanks of C and the two non-ASCII spaces. *)
Definition py_isspace (ch : ascii) : bool :=
  let n := nat_of_ascii ch in
  ((9 <=? n) && (n <=? 13)) || (n =? 32) || (n =? 133) || (n =? 160).

Fixpoint lstrip_space (s : string) : string :=
  match s with
  | String ch r => if py_isspace ch then lstrip_space r else s
  | EmptyString => s
  end.

(** Removes the trailing characters that satisfy [p]. *)
Fixpoint rstrip_if (p : ascii -> bool) (s : string) : string :=
  match s with
  | EmptyString => EmptyString
  | String ch r =>
      match rstrip_if p r with
      | EmptyString => if p ch then EmptyString else str1 ch
      | r' => String ch r'
      end
  end.

Definition UNDERSCORE : ascii := "_"%char.

(** The digits of an integer literal, single underscores allowed between
    them; returns the value, the number of digits and the unread rest. *)
Fixpoint scan_int_digits (s : string) (prev : ascii) (acc : Z) (n : nat)
  : option (Z * nat * string) :=
  match s with
  | String ch r =>
      if is_digit ch then scan_int_digits r ch (10 * acc + digit_value ch)%Z (S n)
      else if Ascii.eqb ch UNDERSCORE then
        if Ascii.eqb prev UNDERSCORE then None else scan_int_digits r ch acc n
      else if Ascii.eqb prev UNDERSCORE then None else Some (acc, n, s)
  | EmptyString =>
      if Ascii.eqb prev UNDERSCORE then None else Some (acc, n, s)
  end.

Definition split_sign (s : string) : bool * string :=
  match s with
  | String "+" r => (false, r)
  | String "-" r => (true, r)
  | _ => (false, s)
  end.

(** [int(s)] in base 10. *)
Definition py_int (s : string) : option Z :=
  let '(neg, body) := split_sign (lstrip_space s) in
  match body with
  | String "_" _ => None
  | _ =>
      match scan_int_digits body "000"%char 0%Z 0 with
      | Some (v, S _, rest) =>
          match lstrip_space rest with
          | EmptyString => Some (if neg then (- v)%Z else v)
          | _ => None
          end
      | _ => None
      end
  end.

(** [str(n)] for an integer. *)
Definition py_str_int (z : Z) : string :=
  DecimalString.NilZero.string_of_int (Z.to_int z).

Definition py_str_nat (n : nat) : string := py_str_int (Z.of_nat n).

(** The underscore rule of float literals: an underscore stands between two
    digits; the underscores are dropped. *)
Fixpoint drop_underscores (s : string) (prev : ascii) : option string :=
  match s with
  | EmptyString => if Ascii.eqb prev UNDERSCORE then None else Some EmptyString
  | String ch r =>
      if Ascii.eqb ch UNDERSCORE then
        if is_digit prev then drop_underscores r ch else None
      else if Ascii.eqb prev UNDERSCORE && negb (is_digit ch) then None
      else option_map (String ch) (drop_underscores r ch)
  end.

Fixpoint take_digits (s : string) (acc n : Z) : Z * Z * string :=
  match s with
  | String ch r =>
      if is_digit ch then take_digits r (10 * acc + digit_value ch)%Z (n + 1)%Z
      else (acc, n, s)
  | EmptyString => (acc, n, s)
  end.

(** A decimal literal without sign: the digits [m] and the exponent [e] of
    the value [m * 10 ^ e]. *)
Definition parse_decimal (s : string) : option (Z * Z) :=
  let '(ip, ni, r1) := take_digits s 0%Z 0%Z in
  let '(m, nf, r2) :=
    match r1 with
    | String "." r => take_digits r ip 0%Z
    | _ => (ip, 0%Z, r1)
    end in
  if (ni + nf =? 0)%Z then None
  else
    match r2 with
    | EmptyString => Some (m, (- nf)%Z)
    | String ch r3 =>
        if Ascii.eqb ch "e"%char || Ascii.eqb ch "E"%char then
          let '(eneg, r4) := split_sign r3 in
          let '(ev, ne, r5) := take_digits r4 0%Z 0%Z in
          if (ne =? 0)%Z then None
          else
            match r5 with
            | EmptyString => Some (m, ((if eneg then - ev else ev) - nf)%Z)
            | _ => None
            end
        else None
    end.

(** The binary64 value nearest to [m * 10 ^ e] (ties to even), for [0 <= m]. *)
Definition decimal_to_float (m e : Z) : float :=
  SF2Prim
    (if (m =? 0)%Z then S754_zero false
     else if (0 <=? e)%Z then binary_normalize prec emax (m * 10 ^ e)%Z 0%Z false
     else SFdiv prec emax (S754_finite false (Z.to_pos m) 0%Z)
                          (S754_finite false (Z.to_pos (10 ^ (- e))%Z) 0%Z)).

(** ASCII lower-casing, enough for the case-insensitive keywords. *)
Definition ascii_lower (ch : ascii) : ascii :=
  let n := nat_of_ascii ch in
  if (65 <=? n) && (n <=? 90) then ascii_of_nat (n + 32) else ch.

Fixpoint map_string (f : ascii -> ascii) (s : string) : string :=
  match s with
  | EmptyString => EmptyString
  | String ch r => String (f ch) (map_string f r)
  end.

Definition parse_inf_or_nan (s : string) : option float :=
  let t := map_string ascii_lower s in
  if String.eqb t "inf" || String.eqb t "infinity" then Some infinity
  else if String.eqb t "nan" then Some nan
  else None.

(** [float(s)] *)
Definition py_float (s : string) : option float :=
  match drop_underscores (rstrip_if py_isspace (lstrip_space s)) "000"%char with
  | None => None
  | Some t =>
      let '(neg, body) := split_sign t in
      let magnitude :=
        match parse_decimal body with
        | Some (m, e) => Some (decimal_to_float m e)
        | None => parse_inf_or_nan body
        end in
      option_map (fun x => if neg then PrimFloat.opp x else x) magnitude
  end.

Definition sexpr_get_float (expr : SExpr) (key : string) : option float :=
  match sexpr_get_value expr key with
  | Some val => py_float val
  | None => None
  end.

Definition sexpr_get_int (expr : SExpr) (key : string) : option Z :=
  match sexpr_get_value expr key with
  | Some val => py_int val
  | None => None
  end.

(** ** writer/sexpr_writer.py *)

Definition is_quoting_char (ch : ascii) : bool :=
  Ascii.eqb ch SPACE || Ascii.eqb ch TAB || Ascii.eqb ch NL || Ascii.eqb ch CR
  || Ascii.eqb ch DQUOTE || Ascii.eqb ch LPAR || Ascii.eqb ch RPAR.

Fixpoint has_quoting_char (s : string) : bool :=
  match s with
  | EmptyString => false
  | String ch r => if is_quoting_char ch then true else has_quoting_char r
  end.

Definition _needs_quoting (s : string) : bool :=
  match s with
  | EmptyString => true
  | _ => has_quoting_char s
  end.

Definition escape_char (ch : ascii) : string :=
  if Ascii.eqb ch DQUOTE then String BSLASH (str1 DQUOTE)
  else if Ascii.eqb ch BSLASH then String BSLASH (str1 BSLASH)
  else if Ascii.eqb ch NL then String BSLASH "n"
  else if Ascii.eqb ch CR then String BSLASH "r"
  else if Ascii.eqb ch TAB then String BSLASH "t"
  else str1 ch.

Fixpoint _escape_string (s : string) : string :=
  match s with
  | EmptyString => EmptyString
  | String ch r => escape_char ch ++ _escape_string r
  end.

Definition _format_atom (atom : string) : string :=
  if _needs_quoting atom then str1 DQUOTE ++ _escape_string atom ++ str1 DQUOTE
  else atom.

Record SExprWriter : Type := mkSExprWriter {
  _indent : string;
  _max_inline_length : nat;
  _compact_keys : list string
}.

Definition default_compact_keys : list string :=
  ["at"; "xy"; "start"; "end"; "size"; "stroke"; "fill";
   "font"; "justify"; "color"; "pts"; "version"; "generator"].

(** [SExprWriter(indent=indent)] with the other arguments at their defaults. *)
Definition SExprWriter_init (indent : string) : SExprWriter :=
  mkSExprWriter indent 80 default_compact_keys.

(** [sep.join(parts)] *)
Fixpoint join (sep : string) (parts : list string) : string :=
  match parts with
  | [] => EmptyString
  | [p] => p
  | p :: ps => p ++ sep ++ join sep ps
  end.

(** [s * n] *)
Fixpoint repeat_string (s : string) (n : nat) : string :=
  match n with
  | 0 => EmptyString
  | S n' => s ++ repeat_string s n'
  end.

Fixpoint _write_inline (expr : SExpr) : string :=
  match expr with
  | Atom s => _format_atom s
  | SList items => "(" ++ join " " (map _write_inline items) ++ ")"
  end.

Definition in_keys (keys : list string) (k : string) : bool :=
  existsb (String.eqb k) keys.

Definition _should_inline (w : SExprWriter) (expr : SExpr) (depth : nat) : bool :=
  match expr with
  | Atom _ => true
  | SList [] => true
  | SList ((first :: _) as items) =>
      if match first with Atom h => in_keys (_compact_keys w) h | SList _ => false end
      then true
      else if (List.length items =? 2) && forallb is_atom items then true
      else
        let inline := _write_inline expr in
        if String.length inline <=? _max_inline_length w then
          if forallb is_atom items then true
          else if List.length items <=? 3 then true
          else false
        else false
  end.

(** [_write_expr]: the text written to [output]. *)
Fixpoint _write_expr (w : SExprWriter) (expr : SExpr) (depth : nat) : string :=
  match expr with
  | Atom s => _format_atom s
  | SList [] => "()"
  | SList (first :: others) =>
      if _should_inline w expr depth then _write_inline expr
      else
        "(" ++ _write_expr w first depth
        ++ String.concat ""
             (map (fun item =>
                     str1 NL ++ repeat_string (_indent w) (depth + 1)
                     ++ _write_expr w item (depth + 1)) others)
        ++ str1 NL ++ repeat_string (_indent w) depth ++ ")"
  end.

(** [SExprWriter.write] *)
Definition write (w : SExprWriter) (expr : SExpr) : string :=
  _write_expr w expr 0 ++ str1 NL.

(** [write_sexpr(expr)] with the default indentation of two spaces. *)
Definition write_sexpr (expr : SExpr) : string :=
  write (SExprWriter_init "  ") expr.

(** [f"{value:.6f}"]: the exact binary value rounded to six decimals, ties to
    even. *)
Definition round_scaled (m : positive) (e : Z) : Z :=
  if (0 <=? e)%Z then (Z.pos m * 2 ^ e * 10 ^ 6)%Z
  else
    let num := (Z.pos m * 10 ^ 6)%Z in
    let den := (2 ^ (- e))%Z in
    let q := (num / den)%Z in
    let r := (num mod den)%Z in
    if (den <? 2 * r)%Z then (q + 1)%Z
    else if (2 * r =? den)%Z then (if Z.even q then q else q + 1)%Z
    else q.

Definition pad6 (n : Z) : string :=
  let s := py_str_int n in
  repeat_string "0" (6 - String.length s) ++ s.

Definition format_6f (value : float) : string :=
  match Prim2SF value with
  | S754_nan => "nan"
  | S754_infinity s => if s then "-inf" else "inf"
  | S754_zero s => (if s then "-" else "") ++ "0.000000"
  | S754_finite s m e =>
      let q := round_scaled m e in
      (if s then "-" else "") ++ py_str_int (q / 10 ^ 6)%Z ++ "."
      ++ pad6 (q mod 10 ^ 6)%Z
  end.

Fixpoint contains_char (c : ascii) (s : string) : bool :=
  match s with
  | EmptyString => false
  | String ch r => Ascii.eqb ch c || contains_char c r
  end.

Definition format_number (value : float) : string :=
  let formatted := format_6f value in
  let formatted :=
    if contains_char "."%char formatted then
      rstrip_if (Ascii.eqb "."%char) (rstrip_if (Ascii.eqb "0"%char) formatted)
    else formatted in
  if String.eqb formatted "-0" then "0" else formatted.


(** ** Exceptions

    A function that may raise returns an [Outcome]. *)

Inductive PyExn : Type := ValueError | IndexError.

Inductive Outcome (A : Type) : Type :=
| Returned (a : A)
| Raised (e : PyExn).
Arguments Returned {A} a.
Arguments Raised {A} e.

Definition bind {A B : Type} (m : Outcome A) (f : A -> Outcome B) : Outcome B :=
  match m with
  | Returned a => f a
  | Raised e => Raised e
  end.

Notation "x <- m ;; k" := (bind m (fun x => k))
  (at level 61, m at next level, right associativity).

(** [float(s)], raising [ValueError]. *)
Definition float_of (s : string) : Outcome float :=
  match py_float s with
  | Some x => Returned x
  | None => Raised ValueError
  end.

(** [float(e) if isinstance(e, str) else default] *)
Definition float_or (e : SExpr) (default : float) : Outcome float :=
  match e with
  | Atom s => float_of s
  | SList _ => Returned default
  end.

(** [e if isinstance(e, str) else default] *)
Definition atom_or (e : SExpr) (default : string) : string :=
  match e with
  | Atom s => s
  | SList _ => default
  end.

(** [x or default] for an optional string, an optional float and an optional
    integer: [None] and the falsy values give the default. *)
Definition or_string (x : option string) (default : string) : string :=
  match x with
  | Some EmptyString | None => default
  | Some s => s
  end.

Definition or_float (x : option float) (default : float) : float :=
  match x with
  | Some v => if PrimFloat.eqb v 0%float then default else v
  | None => default
  end.

Definition or_int (x : option Z) (default : Z) : Z :=
  match x with
  | Some v => if (v =? 0)%Z then default else v
  | None => default
  end.

(** [str.lower] on code points below 256. *)
Definition py_lower_char (ch : ascii) : ascii :=
  let n := nat_of_ascii ch in
  if ((65 <=? n) && (n <=? 90))
     || ((192 <=? n) && (n <=? 222) && negb (n =? 215))
  then ascii_of_nat (n + 32) else ch.

Definition py_lower (s : string) : string := map_string py_lower_char s.

(** [mapping.get(key, default)] for a mapping written as a list of pairs. *)
Fixpoint mapping_get {A : Type} (mapping : list (string * A)) (key : string)
  (default : A) : A :=
  match mapping with
  | [] => default
  | (k, v) :: rest => if String.eqb k key then v else mapping_get rest key default
  end.

(** ** types/enums.py *)

Module PinElectricalType.
Inductive t : Type :=
| INPUT | OUTPUT | BIDIRECTIONAL | TRI_STATE | PASSIVE | FREE | UNSPECIFIED
| POWER_IN | POWER_OUT | OPEN_COLLECTOR | OPEN_EMITTER | NO_CONNECT.

Definition value (x : t) : string :=
  match x with
  | INPUT => "input" | OUTPUT => "output" | BIDIRECTIONAL => "bidirectional"
  | TRI_STATE => "tri_state" | PASSIVE => "passive" | FREE => "free"
  | UNSPECIFIED => "unspecified" | POWER_IN => "power_in"
  | POWER_OUT => "power_out" | OPEN_COLLECTOR => "open_collector"
  | OPEN_EMITTER => "open_emitter" | NO_CONNECT => "no_connect"
  end.

Definition mapping : list (string * t) :=
  [("input", INPUT); ("output", OUTPUT); ("bidirectional", BIDIRECTIONAL);
   ("tri_state", TRI_STATE); ("passive", PASSIVE); ("free", FREE);
   ("unspecified", UNSPECIFIED); ("power_in", POWER_IN);
   ("power_out", POWER_OUT); ("open_collector", OPEN_COLLECTOR);
   ("open_emitter", OPEN_EMITTER); ("no_connect", NO_CONNECT)].

Definition from_string (s : string) : t :=
  mapping_get mapping (py_lower s) UNSPECIFIED.
End PinElectricalType.

Module PinShape.
Inductive t : Type :=
| LINE | INVERTED | CLOCK | INVERTED_CLOCK | INPUT_LOW | CLOCK_LOW
| OUTPUT_LOW | EDGE_CLOCK_HIGH | NON_LOGIC.

Definition value (x : t) : string :=
  match x with
  | LINE => "line" | INVERTED => "inverted" | CLOCK => "clock"
  | INVERTED_CLOCK => "inverted_clock" | INPUT_LOW => "input_low"
  | CLOCK_LOW => "clock_low" | OUTPUT_LOW => "output_low"
  | EDGE_CLOCK_HIGH => "edge_clock_high" | NON_LOGIC => "non_logic"
  end.

Definition mapping : list (string * t) :=
  [("line", LINE); ("inverted", INVERTED); ("clock", CLOCK);
   ("inverted_clock", INVERTED_CLOCK); ("input_low", INPUT_LOW);
   ("clock_low", CLOCK_LOW); ("output_low", OUTPUT_LOW);
   ("edge_clock_high", EDGE_CLOCK_HIGH); ("non_logic", NON_LOGIC)].

Definition from_string (s : string) : t :=
  mapping_get mapping (py_lower s) LINE.
End PinShape.

Module LabelShape.
Inductive t : Type := INPUT | OUTPUT | BIDIRECTIONAL | TRI_STATE | PASSIVE.

Definition mapping : list (string * t) :=
  [("input", INPUT); ("output", OUTPUT); ("bidirectional", BIDIRECTIONAL);
   ("tri_state", TRI_STATE); ("passive", PASSIVE)].

Definition from_string (s : string) : t :=
  mapping_get mapping (py_lower s) PASSIVE.
End LabelShape.

Module SheetPinType.
Inductive t : Type := INPUT | OUTPUT | BIDIRECTIONAL | TRI_STATE | PASSIVE.

Definition mapping : list (string * t) :=
  [("input", INPUT); ("output", OUTPUT); ("bidirectional", BIDIRECTIONAL);
   ("tri_state", TRI_STATE); ("passive", PASSIVE)].

Definition from_string (s : string) : t :=
  mapping_get mapping (py_lower s) PASSIVE.
End SheetPinType.

(** ** types/primitives.py

    Field names carry a prefix where two classes share a name. *)

Set Warnings "-inexact-float".

Record Point : Type := mkPoint { pt_x : float; pt_y : float }.

Record Position : Type := mkPosition {
  pos_x : float;
  pos_y : float;
  pos_angle : float
}.

(** [Position(x, y)] *)
Definition Position2 (x y : float) : Position := mkPosition x y 0%float.

Record UUID : Type := mkUUID { uuid_value : string }.

Record Color : Type := mkColor {
  color_r : Z;
  color_g : Z;
  color_b : Z;
  color_a : float
}.

Record Stroke : Type := mkStroke {
  stroke_width : float;
  stroke_type : string;
  stroke_color : option Color
}.

(** [Stroke(width)] and [Stroke(width, type)] *)
Definition Stroke1 (width : float) : Stroke := mkStroke width "default" None.
Definition Stroke2 (width : float) (type : string) : Stroke :=
  mkStroke width type None.

Record Fill : Type := mkFill {
  fill_type : string;
  fill_color : option Color
}.

Definition Fill1 (type : string) : Fill := mkFill type None.

Record Font : Type := mkFont {
  font_face : option string;
  font_size_x : float;
  font_size_y : float;
  font_thickness : float;
  font_bold : bool;
  font_italic : bool;
  font_line_spacing : float
}.

(** [Font()] *)
Definition FONT_DEFAULT : Font :=
  mkFont None 1.27%float 1.27%float 0.254%float false false 1%float.

(** [Font(size_x=.., size_y=.., bold=.., italic=..)] *)
Definition Font4 (size_x size_y : float) (bold italic : bool) : Font :=
  mkFont None size_x size_y 0.254%float bold italic 1%float.

Record Effects : Type := mkEffects {
  eff_font : Font;
  eff_justify_h : string;
  eff_justify_v : string;
  eff_mirror : bool;
  eff_hide : bool
}.

(** [Effects()] *)
Definition EFFECTS_DEFAULT : Effects :=
  mkEffects FONT_DEFAULT "center" "center" false false.

Record Property : Type := mkProperty {
  prop_name : string;
  prop_value : string;
  prop_id : Z;
  prop_position : Position;
  prop_effects : Effects
}.

(** ** types/symbol.py *)

Record PinDef : Type := mkPinDef {
  pin_number : string;
  pin_name : string;
  pin_electrical_type : PinElectricalType.t;
  pin_shape : PinShape.t;
  pin_position : Position;
  pin_length : float;
  pin_name_effects : option Effects;
  pin_number_effects : option Effects;
  pin_hide : bool
}.

Record Rectangle : Type := mkRectangle {
  rect_start : Point;
  rect_end : Point;
  rect_stroke : Stroke;
  rect_fill : Fill
}.

Record Circle : Type := mkCircle {
  circle_center : Point;
  circle_radius : float;
  circle_stroke : Stroke;
  circle_fill : Fill
}.

Record Arc : Type := mkArc {
  arc_start : Point;
  arc_mid : Point;
  arc_end : Point;
  arc_stroke : Stroke;
  arc_fill : Fill
}.

Record Polyline : Type := mkPolyline {
  poly_points : list Point;
  poly_stroke : Stroke;
  poly_fill : Fill
}.

Record Text : Type := mkText {
  text_text : string;
  text_position : Position;
  text_effects : option Effects
}.

(** [GraphicElement = Rectangle | Circle | Arc | Polyline | Text] *)
Inductive GraphicElement : Type :=
| GRectangle (g : Rectangle)
| GCircle (g : Circle)
| GArc (g : Arc)
| GPolyline (g : Polyline)
| GText (g : Text).

Record SymbolUnit : Type := mkSymbolUnit {
  unit_name : string;
  unit_index : Z;
  style_index : Z;
  unit_pins : list PinDef;
  unit_graphics : list GraphicElement
}.

Record SymbolDef : Type := mkSymbolDef {
  sym_name : string;
  sym_properties : list Property;
  sym_units : list SymbolUnit;
  sym_in_bom : bool;
  sym_on_board : bool;
  sym_extends : option string;
  sym_power : bool;
  sym_pin_numbers_hide : bool;
  sym_pin_names_hide : bool;
  sym_pin_names_offset : float
}.

Record SymbolLibrary : Type := mkSymbolLibrary {
  lib_version : string;
  lib_generator : string;
  lib_symbols : list SymbolDef
}.

(** ** parser/symbol_parser.py *)

Record SymbolParseError : Type := mkSymbolParseError {
  spe_message : string;
  spe_context : string
}.

(** [SymbolParseError(message)] *)
Definition SymbolParseError1 (message : string) : SymbolParseError :=
  mkSymbolParseError message "".

(** The elements of a tree that is a list; an atom has none. *)
Definition items_of (expr : SExpr) : list SExpr :=
  match expr with
  | Atom _ => []
  | SList items => items
  end.

Definition _parse_point (expr : list SExpr) : Outcome Point :=
  match expr with
  | _ :: e1 :: e2 :: _ =>
      x <- float_or e1 0%float ;;
      y <- float_or e2 0%float ;;
      Returned (mkPoint x y)
  | _ => Returned (mkPoint 0%float 0%float)
  end.

Definition _parse_position (expr : SExpr) : Outcome Position :=
  match sexpr_get expr "at" with
  | Some (SList (_ :: e1 :: e2 :: more)) =>
      x <- float_or e1 0%float ;;
      y <- float_or e2 0%float ;;
      angle <- match more with
               | e3 :: _ => float_or e3 0%float
               | [] => Returned 0%float
               end ;;
      Returned (mkPosition x y angle)
  | _ => Returned (Position2 0%float 0%float)
  end.

Definition _parse_stroke (expr : SExpr) : Stroke :=
  match sexpr_get expr "stroke" with
  | Some stroke_expr =>
      let width := or_float (sexpr_get_float stroke_expr "width") 0%float in
      let stroke_type := or_string (sexpr_get_value stroke_expr "type") "default" in
      Stroke2 width stroke_type
  | None => Stroke1 0%float
  end.

Definition _parse_fill (expr : SExpr) : Fill :=
  match sexpr_get expr "fill" with
  | Some fill_expr => Fill1 (or_string (sexpr_get_value fill_expr "type") "none")
  | None => Fill1 "none"
  end.

(** The two coordinates of a child [(key x y ...)] of at least three
    elements, each [float(..)] when it is an atom and [default] otherwise;
    [absent] when there is no such child. *)
Definition parse_xy (expr : SExpr) (key : string) (default : float)
  (absent : float * float) : Outcome (float * float) :=
  match sexpr_get expr key with
  | Some (SList (_ :: e1 :: e2 :: _)) =>
      x <- float_or e1 default ;;
      y <- float_or e2 default ;;
      Returned (x, y)
  | _ => Returned absent
  end.

Definition _parse_font (expr : SExpr) : Outcome Font :=
  match sexpr_get expr "font" with
  | Some font_expr =>
      size <- parse_xy font_expr "size" 1.27%float (1.27%float, 1.27%float) ;;
      let bold := sexpr_has_flag font_expr "bold" in
      let italic := sexpr_has_flag font_expr "italic" in
      Returned (Font4 (fst size) (snd size) bold italic)
  | None => Returned FONT_DEFAULT
  end.

(** One turn of the loop over [justify[1:]]. *)
Definition justify_step (hv : string * string) (item : SExpr) : string * string :=
  match item with
  | Atom a =>
      if String.eqb a "left" || String.eqb a "right" then (a, snd hv)
      else if String.eqb a "top" || String.eqb a "bottom" then (fst hv, a)
      else hv
  | SList _ => hv
  end.

Definition _parse_effects (expr : SExpr) : Outcome Effects :=
  match sexpr_get expr "effects" with
  | Some effects_expr =>
      font <- _parse_font effects_expr ;;
      let hv :=
        match sexpr_get effects_expr "justify" with
        | Some justify => fold_left justify_step (tl (items_of justify)) ("center", "center")
        | None => ("center", "center")
        end in
      let hide := sexpr_has_flag effects_expr "hide" in
      Returned (mkEffects font (fst hv) (snd hv) false hide)
  | None => Returned EFFECTS_DEFAULT
  end.

(** [expr[i] if len(expr) > i and isinstance(expr[i], str) else default] *)
Definition atom_at (expr : list SExpr) (i : nat) (default : string) : string :=
  match nth_error expr i with
  | Some e => atom_or e default
  | None => default
  end.

Definition _parse_property (expr : list SExpr) : Outcome Property :=
  let name := atom_at expr 1 "" in
  let value := atom_at expr 2 "" in
  let prop_id := or_int (sexpr_get_int (SList expr) "id") 0%Z in
  position <- _parse_position (SList expr) ;;
  effects <- _parse_effects (SList expr) ;;
  Returned (mkProperty name value prop_id position effects).

(** The loop of [_parse_pin] over the atoms that follow the head.  Each
    [try] block is a [match] on the outcome of the call it guards. *)
Fixpoint pin_type_scan (rest : list SExpr) (electrical_type : PinElectricalType.t)
  (shape : PinShape.t) : PinElectricalType.t * PinShape.t :=
  match rest with
  | Atom val :: rest' =>
      match Returned (PinElectricalType.from_string val) with
      | Returned et => pin_type_scan rest' et shape
      | Raised _ =>
          match Returned (PinShape.from_string val) with
          | Returned sh => pin_type_scan rest' electrical_type sh
          | Raised _ => pin_type_scan rest' electrical_type shape
          end
      end
  | _ => (electrical_type, shape)
  end.

(** A child [(key text ...)] of at least two elements with its effects. *)
Definition parse_labelled (expr : SExpr) (key : string)
  : Outcome (string * option Effects) :=
  match sexpr_get expr key with
  | Some (SList (_ :: e1 :: _) as child) =>
      effects <- _parse_effects child ;;
      Returned (atom_or e1 "", Some effects)
  | _ => Returned ("", None)
  end.

Definition _parse_pin (expr : list SExpr) : Outcome PinDef :=
  let '(electrical_type, shape) :=
    pin_type_scan (tl expr) PinElectricalType.UNSPECIFIED PinShape.LINE in
  position <- _parse_position (SList expr) ;;
  length <- match sexpr_get (SList expr) "length" with
            | Some (SList (_ :: e1 :: _)) => float_or e1 2.54%float
            | _ => Returned 2.54%float
            end ;;
  name <- parse_labelled (SList expr) "name" ;;
  number <- parse_labelled (SList expr) "number" ;;
  let hide := sexpr_has_flag (SList expr) "hide" in
  Returned (mkPinDef (fst number) (fst name) electrical_type shape position
              length (snd name) (snd number) hide).

Definition parse_point_at (expr : SExpr) (key : string) : Outcome Point :=
  xy <- parse_xy expr key 0%float (0%float, 0%float) ;;
  Returned (mkPoint (fst xy) (snd xy)).

Definition _parse_rectangle (expr : list SExpr) : Outcome Rectangle :=
  start <- parse_point_at (SList expr) "start" ;;
  end_ <- parse_point_at (SList expr) "end" ;;
  Returned (mkRectangle start end_ (_parse_stroke (SList expr))
              (_parse_fill (SList expr))).

Definition _parse_circle (expr : list SExpr) : Outcome Circle :=
  center <- parse_point_at (SList expr) "center" ;;
  radius <- match sexpr_get (SList expr) "radius" with
            | Some (SList (_ :: e1 :: _)) => float_or e1 0%float
            | _ => Returned 0%float
            end ;;
  Returned (mkCircle center radius (_parse_stroke (SList expr))
              (_parse_fill (SList expr))).

Definition _parse_arc (expr : list SExpr) : Outcome Arc :=
  start <- parse_point_at (SList expr) "start" ;;
  mid <- parse_point_at (SList expr) "mid" ;;
  end_ <- parse_point_at (SList expr) "end" ;;
  Returned (mkArc start mid end_ (_parse_stroke (SList expr))
              (_parse_fill (SList expr))).

(** The loop of [_parse_polyline] over [pts_expr[1:]]. *)
Fixpoint polyline_points (items : list SExpr) (points : list Point)
  : Outcome (list Point) :=
  match items with
  | [] => Returned points
  | SList (Atom "xy" :: e1 :: e2 :: _) :: rest =>
      x <- float_or e1 0%float ;;
      y <- float_or e2 0%float ;;
      polyline_points rest (points ++ [mkPoint x y])
  | _ :: rest => polyline_points rest points
  end.

Definition _parse_polyline (expr : list SExpr) : Outcome Polyline :=
  points <- match sexpr_get (SList expr) "pts" with
            | Some pts_expr => polyline_points (tl (items_of pts_expr)) []
            | None => Returned []
            end ;;
  Returned (mkPolyline points (_parse_stroke (SList expr))
              (_parse_fill (SList expr))).

Definition _parse_text (expr : list SExpr) : Outcome Text :=
  let text := atom_at expr 1 "" in
  position <- _parse_position (SList expr) ;;
  effects <- _parse_effects (SList expr) ;;
  Returned (mkText text position (Some effects)).

(** [s.rsplit(sep, maxsplit)] for a separator of one character. *)
Fixpoint split_last (sep : ascii) (s : string) : option (string * string) :=
  match s with
  | EmptyString => None
  | String ch r =>
      match split_last sep r with
      | Some (a, b) => Some (String ch a, b)
      | None => if Ascii.eqb ch sep then Some (EmptyString, r) else None
      end
  end.

Fixpoint rsplit (sep : ascii) (maxsplit : nat) (s : string) : list string :=
  match maxsplit with
  | 0 => [s]
  | S n =>
      match split_last sep s with
      | Some (a, b) => rsplit sep n a ++ [b]
      | None => [s]
      end
  end.

(** The unit and style indices [_parse_symbol_unit] derives from a name.
    The two assignments of the [try] block run in order, so the first one
    stays in effect when the second conversion raises. *)
Definition unit_indices (name : string) : Z * Z :=
  let unit_index := 1%Z in
  let style_index := 1%Z in
  let parts := rsplit UNDERSCORE 2 name in
  match rev parts with
  | last :: second_last :: _ :: _ =>
      match py_int second_last with
      | None => (unit_index, style_index)
      | Some u =>
          let unit_index := u in
          match py_int last with
          | None => (unit_index, style_index)
          | Some s => (unit_index, s)
          end
      end
  | _ => (unit_index, style_index)
  end.

(** A loop whose body may raise. *)
Fixpoint fold_outcome {A B : Type} (f : A -> B -> Outcome A) (l : list B) (a : A)
  : Outcome A :=
  match l with
  | [] => Returned a
  | b :: rest => a' <- f a b ;; fold_outcome f rest a'
  end.

Definition unit_step (acc : list PinDef * list GraphicElement) (item : SExpr)
  : Outcome (list PinDef * list GraphicElement) :=
  let '(pins, graphics) := acc in
  match item with
  | SList ((element_type :: _) as it) =>
      if atom_is "pin" element_type then
        p <- _parse_pin it ;; Returned ((pins ++ [p])%list, graphics)
      else if atom_is "rectangle" element_type then
        g <- _parse_rectangle it ;; Returned (pins, (graphics ++ [GRectangle g])%list)
      else if atom_is "circle" element_type then
        g <- _parse_circle it ;; Returned (pins, (graphics ++ [GCircle g])%list)
      else if atom_is "arc" element_type then
        g <- _parse_arc it ;; Returned (pins, (graphics ++ [GArc g])%list)
      else if atom_is "polyline" element_type then
        g <- _parse_polyline it ;; Returned (pins, (graphics ++ [GPolyline g])%list)
      else if atom_is "text" element_type then
        g <- _parse_text it ;; Returned (pins, (graphics ++ [GText g])%list)
      else Returned acc
  | _ => Returned acc
  end.

Definition _parse_symbol_unit (expr : list SExpr) : Outcome SymbolUnit :=
  let name := atom_at expr 1 "" in
  let '(unit_index, style_index) := unit_indices name in
  acc <- fold_outcome unit_step (skipn 2 expr) ([], []) ;;
  Returned (mkSymbolUnit name unit_index style_index (fst acc) (snd acc)).

(** One turn of the loop of [_parse_symbol_def]; the local variables of the
    loop are the fields of the definition built at the end. *)
Definition symbol_def_step (d : SymbolDef) (item : SExpr) : Outcome SymbolDef :=
  match item with
  | SList ((element_type :: args) as it) =>
      if atom_is "property" element_type then
        p <- _parse_property it ;;
        Returned (mkSymbolDef (sym_name d) (sym_properties d ++ [p])%list (sym_units d)
                    (sym_in_bom d) (sym_on_board d) (sym_extends d) (sym_power d)
                    (sym_pin_numbers_hide d) (sym_pin_names_hide d)
                    (sym_pin_names_offset d))
      else if atom_is "symbol" element_type then
        u <- _parse_symbol_unit it ;;
        Returned (mkSymbolDef (sym_name d) (sym_properties d) (sym_units d ++ [u])%list
                    (sym_in_bom d) (sym_on_board d) (sym_extends d) (sym_power d)
                    (sym_pin_numbers_hide d) (sym_pin_names_hide d)
                    (sym_pin_names_offset d))
      else if atom_is "in_bom" element_type then
        let in_bom := match args with e1 :: _ => atom_is "yes" e1 | [] => true end in
        Returned (mkSymbolDef (sym_name d) (sym_properties d) (sym_units d)
                    in_bom (sym_on_board d) (sym_extends d) (sym_power d)
                    (sym_pin_numbers_hide d) (sym_pin_names_hide d)
                    (sym_pin_names_offset d))
      else if atom_is "on_board" element_type then
        let on_board := match args with e1 :: _ => atom_is "yes" e1 | [] => true end in
        Returned (mkSymbolDef (sym_name d) (sym_properties d) (sym_units d)
                    (sym_in_bom d) on_board (sym_extends d) (sym_power d)
                    (sym_pin_numbers_hide d) (sym_pin_names_hide d)
                    (sym_pin_names_offset d))
      else if atom_is "extends" element_type then
        let extends := match args with Atom s :: _ => Some s | _ => None end in
        Returned (mkSymbolDef (sym_name d) (sym_properties d) (sym_units d)
                    (sym_in_bom d) (sym_on_board d) extends (sym_power d)
                    (sym_pin_numbers_hide d) (sym_pin_names_hide d)
                    (sym_pin_names_offset d))
      else if atom_is "power" element_type then
        Returned (mkSymbolDef (sym_name d) (sym_properties d) (sym_units d)
                    (sym_in_bom d) (sym_on_board d) (sym_extends d) true
                    (sym_pin_numbers_hide d) (sym_pin_names_hide d)
                    (sym_pin_names_offset d))
      else if atom_is "pin_numbers" element_type then
        Returned (mkSymbolDef (sym_name d) (sym_properties d) (sym_units d)
                    (sym_in_bom d) (sym_on_board d) (sym_extends d) (sym_power d)
                    (sexpr_has_flag item "hide") (sym_pin_names_hide d)
                    (sym_pin_names_offset d))
      else if atom_is "pin_names" element_type then
        let offset := match sexpr_get_float item "offset" with
                      | Some v => v
                      | None => sym_pin_names_offset d
                      end in
        Returned (mkSymbolDef (sym_name d) (sym_properties d) (sym_units d)
                    (sym_in_bom d) (sym_on_board d) (sym_extends d) (sym_power d)
                    (sym_pin_numbers_hide d) (sexpr_has_flag item "hide") offset)
      else Returned d
  | _ => Returned d
  end.

Definition _parse_symbol_def (expr : list SExpr) : Outcome SymbolDef :=
  let name := atom_at expr 1 "" in
  fold_outcome symbol_def_step (skipn 2 expr)
    (mkSymbolDef name [] [] true true None false false false 0.508%float).

(** [str(e)] and [repr(e)] of a tree, as an f-string formats it. *)
Definition hex_digit (n : nat) : ascii :=
  if n <? 10 then ascii_of_nat (48 + n) else ascii_of_nat (87 + n).

Definition APOSTROPHE : ascii := "039"%char.

Definition repr_char (q ch : ascii) : string :=
  let n := nat_of_ascii ch in
  if Ascii.eqb ch q || Ascii.eqb ch BSLASH then String BSLASH (str1 ch)
  else if Ascii.eqb ch TAB then String BSLASH "t"
  else if Ascii.eqb ch NL then String BSLASH "n"
  else if Ascii.eqb ch CR then String BSLASH "r"
  else if (n <? 32) || (n =? 127) || ((128 <=? n) && (n <=? 160)) || (n =? 173)
  then String BSLASH (String "x" (String (hex_digit (n / 16)) (str1 (hex_digit (n mod 16)))))
  else str1 ch.

Fixpoint concat_map (f : ascii -> string) (s : string) : string :=
  match s with
  | EmptyString => EmptyString
  | String ch r => f ch ++ concat_map f r
  end.

Definition py_repr_str (s : string) : string :=
  let q := if contains_char APOSTROPHE s && negb (contains_char DQUOTE s)
           then DQUOTE else APOSTROPHE in
  str1 q ++ concat_map (repr_char q) s ++ str1 q.

Fixpoint py_repr (e : SExpr) : string :=
  match e with
  | Atom s => py_repr_str s
  | SList items => "[" ++ join ", " (map py_repr items) ++ "]"
  end.

Definition py_str (e : SExpr) : string :=
  match e with
  | Atom s => s
  | SList _ => py_repr e
  end.

(** [str(err)] for a [ParseError]. *)
Definition ParseError_str (e : ParseError) : string :=
  "Parse error at line " ++ py_str_nat (line e) ++ ", column "
  ++ py_str_nat (column e) ++ ": " ++ message e.

(** The part of [parse_symbol_library] that follows the parsing of the text:
    the decoding of the tree. *)
Definition decode_symbol_library (expr : SExpr)
  : Outcome (Result SymbolLibrary SymbolParseError) :=
  match expr with
  | Atom _ | SList [] =>
      Returned (Err (SymbolParseError1 "Empty or invalid symbol library"))
  | SList (head :: _) =>
      if negb (atom_is "kicad_symbol_lib" head) then
        Returned (Err (SymbolParseError1
                         ("Expected kicad_symbol_lib, got " ++ py_str head)))
      else
        let version := or_string (sexpr_get_value expr "version") "20210201" in
        let generator := or_string (sexpr_get_value expr "generator") "unknown" in
        symbols <- fold_outcome
                     (fun symbols sym_expr =>
                        s <- _parse_symbol_def (items_of sym_expr) ;;
                        Returned (symbols ++ [s])%list)
                     (sexpr_get_all expr "symbol") [] ;;
        Returned (Ok (mkSymbolLibrary version generator symbols))
  end.

Definition parse_symbol_library (text : string)
  : option (Outcome (Result SymbolLibrary SymbolParseError)) :=
  match parse_sexpr text with
  | None => None
  | Some (Err err) => Some (Returned (Err (SymbolParseError1 (ParseError_str err))))
  | Some (Ok expr) => Some (decode_symbol_library expr)
  end.

(** ** writer/symbol_writer.py *)

(** The arguments [make_sexpr] tells apart by type. *)
Inductive SArg : Type :=
| AStr (s : string)
| AFloat (x : float)
| AInt (z : Z)
| AExpr (e : SExpr).

Definition make_sexpr (args : list SArg) : SExpr :=
  SList (map (fun arg =>
                match arg with
                | AFloat x => Atom (format_number x)
                | AInt z => Atom (py_str_int z)
                | AExpr e => e
                | AStr s => Atom s
                end) args).

(** [x != y] on floats *)
Definition float_ne (x y : float) : bool := negb (PrimFloat.eqb x y).

Definition _write_position (pos : Position) (key : string) : SExpr :=
  if float_ne (pos_angle pos) 0%float then
    make_sexpr [AStr key; AFloat (pos_x pos); AFloat (pos_y pos); AFloat (pos_angle pos)]
  else make_sexpr [AStr key; AFloat (pos_x pos); AFloat (pos_y pos)].

Definition _write_stroke (stroke : Stroke) : SExpr :=
  SList ([Atom "stroke";
          make_sexpr [AStr "width"; AFloat (stroke_width stroke)];
          make_sexpr [AStr "type"; AStr (stroke_type stroke)]]
         ++ [match stroke_color stroke with
             | Some color =>
                 make_sexpr [AStr "color"; AInt (color_r color); AInt (color_g color);
                             AInt (color_b color); AFloat (color_a color)]
             | None =>
                 make_sexpr [AStr "color"; AInt 0; AInt 0; AInt 0; AInt 0]
             end])%list.

Definition _write_fill (fill : Fill) : SExpr :=
  make_sexpr [AStr "fill"; AExpr (make_sexpr [AStr "type"; AStr (fill_type fill)])].

Definition _write_font (effects : Effects) : SExpr :=
  let font := eff_font effects in
  SList ([Atom "font";
          make_sexpr [AStr "size"; AFloat (font_size_x font); AFloat (font_size_y font)]]
         ++ (if font_bold font then [Atom "bold"] else [])
         ++ (if font_italic font then [Atom "italic"] else []))%list.

Definition string_ne (a b : string) : bool := negb (String.eqb a b).

Definition _write_effects (effects : Effects) : SExpr :=
  SList ([Atom "effects"; _write_font effects]
         ++ (if string_ne (eff_justify_h effects) "center"
                || string_ne (eff_justify_v effects) "center"
             then [SList ([Atom "justify"]
                          ++ (if string_ne (eff_justify_h effects) "center"
                              then [Atom (eff_justify_h effects)] else [])
                          ++ (if string_ne (eff_justify_v effects) "center"
                              then [Atom (eff_justify_v effects)] else []))]
             else [])
         ++ (if eff_hide effects then [Atom "hide"] else []))%list.

Definition _write_property (prop : Property) : SExpr :=
  SList [Atom "property"; Atom (prop_name prop); Atom (prop_value prop);
         make_sexpr [AStr "id"; AInt (prop_id prop)];
         _write_position (prop_position prop) "at";
         _write_effects (prop_effects prop)].

(** The effects written for a pin name or number that has none. *)
Definition default_pin_effects : SExpr :=
  make_sexpr [AStr "effects";
              AExpr (make_sexpr [AStr "font";
                                 AExpr (make_sexpr [AStr "size"; AFloat 1%float;
                                                    AFloat 1%float])])].

Definition _write_pin (pin : PinDef) : SExpr :=
  SList ([Atom "pin";
          Atom (PinElectricalType.value (pin_electrical_type pin));
          Atom (PinShape.value (pin_shape pin));
          _write_position (pin_position pin) "at";
          make_sexpr [AStr "length"; AFloat (pin_length pin)];
          SList [Atom "name"; Atom (pin_name pin);
                 match pin_name_effects pin with
                 | Some e => _write_effects e
                 | None => default_pin_effects
                 end];
          SList [Atom "number"; Atom (pin_number pin);
                 match pin_number_effects pin with
                 | Some e => _write_effects e
                 | None => default_pin_effects
                 end]]
         ++ (if pin_hide pin then [Atom "hide"] else []))%list.

Definition write_point (key : string) (p : Point) : SExpr :=
  make_sexpr [AStr key; AFloat (pt_x p); AFloat (pt_y p)].

Definition _write_rectangle (rect : Rectangle) : SExpr :=
  SList [Atom "rectangle";
         write_point "start" (rect_start rect);
         write_point "end" (rect_end rect);
         _write_stroke (rect_stroke rect);
         _write_fill (rect_fill rect)].

Definition _write_circle (circle : Circle) : SExpr :=
  SList [Atom "circle";
         write_point "center" (circle_center circle);
         make_sexpr [AStr "radius"; AFloat (circle_radius circle)];
         _write_stroke (circle_stroke circle);
         _write_fill (circle_fill circle)].

Definition _write_arc (arc : Arc) : SExpr :=
  SList [Atom "arc";
         write_point "start" (arc_start arc);
         write_point "mid" (arc_mid arc);
         write_point "end" (arc_end arc);
         _write_stroke (arc_stroke arc);
         _write_fill (arc_fill arc)].

Definition _write_polyline (poly : Polyline) : SExpr :=
  let pts := SList (Atom "pts" :: map (write_point "xy") (poly_points poly)) in
  SList [Atom "polyline"; pts;
         _write_stroke (poly_stroke poly);
         _write_fill (poly_fill poly)].

Definition _write_text (text : Text) : SExpr :=
  SList ([Atom "text"; Atom (text_text text);
          _write_position (text_position text) "at"]
         ++ match text_effects text with
            | Some e => [_write_effects e]
            | None => []
            end)%list.

Definition _write_graphic (graphic : GraphicElement) : SExpr :=
  match graphic with
  | GRectangle g => _write_rectangle g
  | GCircle g => _write_circle g
  | GArc g => _write_arc g
  | GPolyline g => _write_polyline g
  | GText g => _write_text g
  end.

Definition _write_symbol_unit (unit : SymbolUnit) : SExpr :=
  SList ([Atom "symbol"; Atom (unit_name unit)]
         ++ map _write_graphic (unit_graphics unit)
         ++ map _write_pin (unit_pins unit))%list.

Definition _write_symbol_def (sym : SymbolDef) : SExpr :=
  SList ([Atom "symbol"; Atom (sym_name sym);
          make_sexpr [AStr "in_bom"; AStr (if sym_in_bom sym then "yes" else "no")];
          make_sexpr [AStr "on_board"; AStr (if sym_on_board sym then "yes" else "no")]]
         ++ match sym_extends sym with
            | Some (String _ _ as extends) =>
                [make_sexpr [AStr "extends"; AStr extends]]
            | _ => []
            end
         ++ (if sym_power sym then [SList [Atom "power"]] else [])
         ++ map _write_property (sym_properties sym)
         ++ (if sym_pin_numbers_hide sym
             then [SList [Atom "pin_numbers"; Atom "hide"]] else [])
         ++ (if sym_pin_names_hide sym
             then [SList [Atom "pin_names"; Atom "hide"]] else [])
         ++ (if float_ne (sym_pin_names_offset sym) 0.508%float
             then [make_sexpr [AStr "pin_names";
                               AExpr (make_sexpr [AStr "offset";
                                                  AFloat (sym_pin_names_offset sym)])]]
             else [])
         ++ map _write_symbol_unit (sym_units sym))%list.

Definition symbol_library_to_sexpr (lib : SymbolLibrary) : SExpr :=
  SList ([Atom "kicad_symbol_lib";
          make_sexpr [AStr "version"; AStr (lib_version lib)];
          make_sexpr [AStr "generator"; AStr (lib_generator lib)]]
         ++ map _write_symbol_def (lib_symbols lib))%list.

Definition write_symbol_library (lib : SymbolLibrary) : string :=
  write_sexpr (symbol_library_to_sexpr lib).

(** The round trip of a library through its text. *)
Definition round_trip (lib : SymbolLibrary)
  : option (Outcome (Result SymbolLibrary SymbolParseError)) :=
  parse_symbol_library (write_symbol_library lib).

(** ** types/schematic.py *)

Record Wire : Type := mkWire {
  wire_start : Point;
  wire_end : Point;
  wire_stroke : Stroke;
  wire_uuid : UUID
}.

Record Bus : Type := mkBus {
  bus_start : Point;
  bus_end : Point;
  bus_stroke : Stroke;
  bus_uuid : UUID
}.

Record BusEntry : Type := mkBusEntry {
  be_position : Position;
  be_size : Point;
  be_stroke : Stroke;
  be_uuid : UUID
}.

Record Junction : Type := mkJunction {
  junc_position : Position;
  junc_diameter : float;
  junc_color : Z * Z * Z * float;
  junc_uuid : UUID
}.

Record NoConnect : Type := mkNoConnect {
  nc_position : Position;
  nc_uuid : UUID
}.

Record Label : Type := mkLabel {
  label_text : string;
  label_position : Position;
  label_effects : option Effects;
  label_uuid : UUID
}.

Record GlobalLabel : Type := mkGlobalLabel {
  gl_text : string;
  gl_shape : LabelShape.t;
  gl_position : Position;
  gl_effects : option Effects;
  gl_uuid : UUID;
  gl_properties : list Property
}.

Record HierarchicalLabel : Type := mkHierarchicalLabel {
  hl_text : string;
  hl_shape : LabelShape.t;
  hl_position : Position;
  hl_effects : option Effects;
  hl_uuid : UUID
}.

Record PowerLabel : Type := mkPowerLabel {
  pl_text : string;
  pl_position : Position;
  pl_effects : option Effects;
  pl_uuid : UUID
}.

Record SymbolPin : Type := mkSymbolPin {
  sp_number : string;
  sp_uuid : UUID
}.

(** [mirror] holds what the decoder found as the second element of the
    [mirror] form, an atom or a list. *)
Record SymbolInstance : Type := mkSymbolInstance {
  si_lib_id : string;
  si_position : Position;
  si_unit : Z;
  si_mirror : SExpr;
  si_properties : list Property;
  si_pins : list SymbolPin;
  si_uuid : UUID;
  si_in_bom : bool;
  si_on_board : bool
}.

(** The loop shared by the accessors: the value of the first property with
    the given name. *)
Fixpoint first_property_value (properties : list Property) (name : string)
  : option string :=
  match properties with
  | [] => None
  | prop :: rest =>
      if String.eqb (prop_name prop) name then Some (prop_value prop)
      else first_property_value rest name
  end.

(** [SymbolInstance.reference] *)
Definition reference (self : SymbolInstance) : string :=
  match first_property_value (si_properties self) "Reference" with
  | Some v => v
  | None => "?"
  end.

(** [SymbolInstance.value] *)
Definition value (self : SymbolInstance) : string :=
  match first_property_value (si_properties self) "Value" with
  | Some v => v
  | None => ""
  end.

(** [SymbolInstance.footprint] *)
Definition footprint (self : SymbolInstance) : option string :=
  first_property_value (si_properties self) "Footprint".

(** [SymbolInstance.property_value] *)
Definition property_value (self : SymbolInstance) (name : string) : option string :=
  first_property_value (si_properties self) name.

(** The loop of [with_property]: the new list and the flag [found]. *)
Fixpoint with_property_loop (properties : list Property) (prop : Property)
  (new_props : list Property) (found : bool) : list Property * bool :=
  match properties with
  | [] => (new_props, found)
  | p :: rest =>
      if String.eqb (prop_name p) (prop_name prop)
      then with_property_loop rest prop (new_props ++ [prop]) true
      else with_property_loop rest prop (new_props ++ [p]) found
  end.

(** [SymbolInstance.with_property] *)
Definition with_property (self : SymbolInstance) (prop : Property) : SymbolInstance :=
  let '(new_props, found) := with_property_loop (si_properties self) prop [] false in
  let new_props := if negb found then (new_props ++ [prop])%list else new_props in
  mkSymbolInstance (si_lib_id self) (si_position self) (si_unit self)
    (si_mirror self) new_props (si_pins self) (si_uuid self)
    (si_in_bom self) (si_on_board self).

Record SheetPin : Type := mkSheetPin {
  shp_name : string;
  shp_shape : SheetPinType.t;
  shp_position : Position;
  shp_effects : option Effects;
  shp_uuid : UUID
}.

Record Sheet : Type := mkSheet {
  sheet_position : Position;
  sheet_size : Point;
  sheet_properties : list Property;
  sheet_pins : list SheetPin;
  sheet_stroke : Stroke;
  sheet_fill : Z * Z * Z * float;
  sheet_uuid : UUID
}.

(** [schematic.Text] *)
Record SchText : Type := mkSchText {
  st_text : string;
  st_position : Position;
  st_effects : option Effects;
  st_uuid : UUID
}.

Record SchematicPage : Type := mkSchematicPage {
  page_size : string;
  page_width : float;
  page_height : float;
  page_portrait : bool
}.

Record TitleBlock : Type := mkTitleBlock {
  tb_title : string;
  tb_date : string;
  tb_revision : string;
  tb_company : string;
  tb_comment1 : string;
  tb_comment2 : string;
  tb_comment3 : string;
  tb_comment4 : string
}.

(** [content] is an arbitrary object; the decoder never builds one. *)
Record LibSymbol : Type := mkLibSymbol {
  ls_name : string;
  ls_content : SExpr
}.

Record Schematic : Type := mkSchematic {
  sch_version : string;
  sch_generator : string;
  sch_uuid : UUID;
  sch_page : SchematicPage;
  sch_title_block : TitleBlock;
  sch_lib_symbols : list LibSymbol;
  sch_wires : list Wire;
  sch_buses : list Bus;
  sch_bus_entries : list BusEntry;
  sch_junctions : list Junction;
  sch_no_connects : list NoConnect;
  sch_labels : list Label;
  sch_global_labels : list GlobalLabel;
  sch_hierarchical_labels : list HierarchicalLabel;
  sch_power_labels : list PowerLabel;
  sch_symbols : list SymbolInstance;
  sch_sheets : list Sheet;
  sch_texts : list SchText
}.

(** ** parser/schematic_parser.py

    [schematic_parser.py] repeats [_parse_point], [_parse_position],
    [_parse_stroke], [_parse_font], [_parse_effects] and [_parse_property] of
    [symbol_parser.py] word for word; the definitions above serve both.

    [UUID.generate()] draws a random identifier.  The decoders thread the
    number of draws made so far, and [uuid4 n] is the text of draw [n]. *)

Record SchematicParseError : Type := mkSchematicParseError {
  sche_message : string;
  sche_context : string
}.

Definition SchematicParseError1 (message : string) : SchematicParseError :=
  mkSchematicParseError message "".

Definition Gen (A : Type) : Type := nat -> Outcome (A * nat).

Definition gret {A : Type} (a : A) : Gen A := fun n => Returned (a, n).

Definition gbind {A B : Type} (m : Gen A) (f : A -> Gen B) : Gen B :=
  fun n =>
    match m n with
    | Returned (a, n') => f a n'
    | Raised e => Raised e
    end.

Definition lift {A : Type} (m : Outcome A) : Gen A :=
  fun n =>
    match m with
    | Returned a => Returned (a, n)
    | Raised e => Raised e
    end.

Notation "x <~ m ;; k" := (gbind m (fun x => k))
  (at level 61, m at next level, right associativity).

Fixpoint fold_gen {A B : Type} (f : A -> B -> Gen A) (l : list B) (a : A) : Gen A :=
  match l with
  | [] => gret a
  | b :: rest => a' <~ f a b ;; fold_gen f rest a'
  end.

(** [[f(x) for x in l]] collected by [append] *)
Definition map_gen {A B : Type} (f : A -> Gen B) (l : list A) : Gen (list B) :=
  fold_gen (fun acc x => y <~ f x ;; gret (acc ++ [y])%list) l [].

Section SchematicParser.

Variable uuid4 : nat -> string.

(** [UUID.generate()] *)
Definition generate : Gen UUID := fun n => Returned (mkUUID (uuid4 n), S n).

Definition _parse_uuid (expr : SExpr) : Gen UUID :=
  match sexpr_get_value expr "uuid" with
  | Some (String _ _ as uuid_val) => gret (mkUUID uuid_val)
  | _ => generate
  end.

(** [[item for item in pts[1:] if isinstance(item, list) and item[0] == "xy"]];
    [item[0]] of an empty list raises. *)
Fixpoint xy_items (items : list SExpr) : Outcome (list (list SExpr)) :=
  match items with
  | [] => Returned []
  | Atom _ :: rest => xy_items rest
  | SList [] :: _ => Raised IndexError
  | SList ((h :: _) as item) :: rest =>
      l <- xy_items rest ;;
      Returned (if atom_is "xy" h then item :: l else l)
  end.

(** The two end points that [_parse_wire] and [_parse_bus] read. *)
Definition parse_segment (expr : SExpr) : Outcome (Point * Point) :=
  match sexpr_get expr "pts" with
  | Some pts =>
      xy_list <- xy_items (tl (items_of pts)) ;;
      match xy_list with
      | xy0 :: xy1 :: _ =>
          start <- _parse_point xy0 ;;
          end_ <- _parse_point xy1 ;;
          Returned (start, end_)
      | _ => Returned (mkPoint 0%float 0%float, mkPoint 0%float 0%float)
      end
  | None => Returned (mkPoint 0%float 0%float, mkPoint 0%float 0%float)
  end.

Definition _parse_wire (expr : list SExpr) : Gen Wire :=
  se <~ lift (parse_segment (SList expr)) ;;
  let stroke := _parse_stroke (SList expr) in
  uuid <~ _parse_uuid (SList expr) ;;
  gret (mkWire (fst se) (snd se) stroke uuid).

Definition _parse_bus (expr : list SExpr) : Gen Bus :=
  se <~ lift (parse_segment (SList expr)) ;;
  let stroke := _parse_stroke (SList expr) in
  uuid <~ _parse_uuid (SList expr) ;;
  gret (mkBus (fst se) (snd se) stroke uuid).

Definition _parse_junction (expr : list SExpr) : Gen Junction :=
  position <~ lift (_parse_position (SList expr)) ;;
  let diameter := or_float (sexpr_get_float (SList expr) "diameter") 0%float in
  uuid <~ _parse_uuid (SList expr) ;;
  gret (mkJunction position diameter (0%Z, 0%Z, 0%Z, 0%float) uuid).

Definition _parse_no_connect (expr : list SExpr) : Gen NoConnect :=
  position <~ lift (_parse_position (SList expr)) ;;
  uuid <~ _parse_uuid (SList expr) ;;
  gret (mkNoConnect position uuid).

Definition _parse_label (expr : list SExpr) : Gen Label :=
  let text := atom_at expr 1 "" in
  position <~ lift (_parse_position (SList expr)) ;;
  effects <~ lift (_parse_effects (SList expr)) ;;
  uuid <~ _parse_uuid (SList expr) ;;
  gret (mkLabel text position (Some effects) uuid).

Definition parse_label_shape (expr : SExpr) : LabelShape.t :=
  match sexpr_get_value expr "shape" with
  | Some (String _ _ as shape_val) => LabelShape.from_string shape_val
  | _ => LabelShape.PASSIVE
  end.

Definition parse_properties (expr : SExpr) : Gen (list Property) :=
  map_gen (fun prop_expr => lift (_parse_property (items_of prop_expr)))
    (sexpr_get_all expr "property").

Definition _parse_global_label (expr : list SExpr) : Gen GlobalLabel :=
  let text := atom_at expr 1 "" in
  let shape := parse_label_shape (SList expr) in
  position <~ lift (_parse_position (SList expr)) ;;
  effects <~ lift (_parse_effects (SList expr)) ;;
  uuid <~ _parse_uuid (SList expr) ;;
  properties <~ parse_properties (SList expr) ;;
  gret (mkGlobalLabel text shape position (Some effects) uuid properties).

Definition _parse_hierarchical_label (expr : list SExpr) : Gen HierarchicalLabel :=
  let text := atom_at expr 1 "" in
  let shape := parse_label_shape (SList expr) in
  position <~ lift (_parse_position (SList expr)) ;;
  effects <~ lift (_parse_effects (SList expr)) ;;
  uuid <~ _parse_uuid (SList expr) ;;
  gret (mkHierarchicalLabel text shape position (Some effects) uuid).

Definition _parse_symbol_pin (expr : list SExpr) : Gen SymbolPin :=
  let number := atom_at expr 1 "" in
  uuid <~ _parse_uuid (SList expr) ;;
  gret (mkSymbolPin number uuid).

(** [e[1] == "yes"] for a child [e] of more than one element, else [True] *)
Definition parse_yes (expr : SExpr) (key : string) : bool :=
  match sexpr_get expr key with
  | Some (SList (_ :: e1 :: _)) => atom_is "yes" e1
  | _ => true
  end.

Definition _parse_symbol_instance (expr : list SExpr) : Gen SymbolInstance :=
  let lib_id := or_string (sexpr_get_value (SList expr) "lib_id") "" in
  position <~ lift (_parse_position (SList expr)) ;;
  let unit := or_int (sexpr_get_int (SList expr) "unit") 1%Z in
  let mirror := match sexpr_get (SList expr) "mirror" with
                | Some (SList (_ :: e1 :: _)) => e1
                | _ => Atom ""
                end in
  let in_bom := parse_yes (SList expr) "in_bom" in
  let on_board := parse_yes (SList expr) "on_board" in
  uuid <~ _parse_uuid (SList expr) ;;
  properties <~ parse_properties (SList expr) ;;
  pins <~ map_gen (fun pin_expr => _parse_symbol_pin (items_of pin_expr))
            (sexpr_get_all (SList expr) "pin") ;;
  gret (mkSymbolInstance lib_id position unit mirror properties pins uuid
          in_bom on_board).

Definition _parse_sheet_pin (expr : list SExpr) : Gen SheetPin :=
  let name := atom_at expr 1 "" in
  let shape_val := atom_at expr 2 "passive" in
  let shape := SheetPinType.from_string shape_val in
  position <~ lift (_parse_position (SList expr)) ;;
  effects <~ lift (_parse_effects (SList expr)) ;;
  uuid <~ _parse_uuid (SList expr) ;;
  gret (mkSheetPin name shape position (Some effects) uuid).

Definition _parse_sheet (expr : list SExpr) : Gen Sheet :=
  position <~ lift (_parse_position (SList expr)) ;;
  size <~ lift (parse_xy (SList expr) "size" 100%float (100%float, 100%float)) ;;
  let stroke := _parse_stroke (SList expr) in
  uuid <~ _parse_uuid (SList expr) ;;
  properties <~ parse_properties (SList expr) ;;
  pins <~ map_gen (fun pin_expr => _parse_sheet_pin (items_of pin_expr))
            (sexpr_get_all (SList expr) "pin") ;;
  gret (mkSheet position (mkPoint (fst size) (snd size)) properties pins stroke
          (0%Z, 0%Z, 0%Z, 0%float) uuid).

Definition _parse_sch_text (expr : list SExpr) : Gen SchText :=
  let text := atom_at expr 1 "" in
  position <~ lift (_parse_position (SList expr)) ;;
  effects <~ lift (_parse_effects (SList expr)) ;;
  uuid <~ _parse_uuid (SList expr) ;;
  gret (mkSchText text position (Some effects) uuid).

(** [int(s)], raising [ValueError]. *)
Definition int_of (s : string) : Outcome Z :=
  match py_int s with
  | Some z => Returned z
  | None => Raised ValueError
  end.

(** [comments[i] = v] on a list of four strings *)
Definition set_comment (comments : list string) (i : nat) (v : string) : list string :=
  firstn i comments ++ [v] ++ skipn (S i) comments.

Definition comment_step (comments : list string) (item : SExpr)
  : Outcome (list string) :=
  match item with
  | SList (Atom "comment" :: e1 :: e2 :: _) =>
      idx <- match e1 with
             | Atom s => int_of s
             | SList _ => Returned 0%Z
             end ;;
      if ((1 <=? idx) && (idx <=? 4))%Z
      then Returned (set_comment comments (Z.to_nat (idx - 1)) (atom_or e2 ""))
      else Returned comments
  | _ => Returned comments
  end.

Definition _parse_title_block (expr : list SExpr) : Outcome TitleBlock :=
  let title := or_string (sexpr_get_value (SList expr) "title") "" in
  let date := or_string (sexpr_get_value (SList expr) "date") "" in
  let rev := or_string (sexpr_get_value (SList expr) "rev") "" in
  let company := or_string (sexpr_get_value (SList expr) "company") "" in
  comments <- fold_outcome comment_step expr [""; ""; ""; ""] ;;
  Returned (mkTitleBlock title date rev company
              (nth 0 comments "") (nth 1 comments "")
              (nth 2 comments "") (nth 3 comments "")).

(** [SchematicPage()] and [SchematicPage(size=paper)] *)
Definition _parse_page (expr : SExpr) : SchematicPage :=
  match sexpr_get_value expr "paper" with
  | Some (String _ _ as paper) => mkSchematicPage paper 297%float 210%float false
  | _ => mkSchematicPage "A4" 297%float 210%float false
  end.

(** The lists the loop of [parse_schematic] appends to, in the order of
    their declaration. *)
Record Elements : Type := mkElements {
  el_wires : list Wire;
  el_buses : list Bus;
  el_junctions : list Junction;
  el_no_connects : list NoConnect;
  el_labels : list Label;
  el_global_labels : list GlobalLabel;
  el_hierarchical_labels : list HierarchicalLabel;
  el_symbols : list SymbolInstance;
  el_sheets : list Sheet;
  el_texts : list SchText
}.

Definition schematic_step (els : Elements) (item : SExpr) : Gen Elements :=
  match item with
  | SList ((element_type :: _) as it) =>
      if atom_is "wire" element_type then
        x <~ _parse_wire it ;;
        gret (mkElements (el_wires els ++ [x]) (el_buses els) (el_junctions els)
                (el_no_connects els) (el_labels els) (el_global_labels els)
                (el_hierarchical_labels els) (el_symbols els) (el_sheets els)
                (el_texts els))
      else if atom_is "bus" element_type then
        x <~ _parse_bus it ;;
        gret (mkElements (el_wires els) (el_buses els ++ [x]) (el_junctions els)
                (el_no_connects els) (el_labels els) (el_global_labels els)
                (el_hierarchical_labels els) (el_symbols els) (el_sheets els)
                (el_texts els))
      else if atom_is "junction" element_type then
        x <~ _parse_junction it ;;
        gret (mkElements (el_wires els) (el_buses els) (el_junctions els ++ [x])
                (el_no_connects els) (el_labels els) (el_global_labels els)
                (el_hierarchical_labels els) (el_symbols els) (el_sheets els)
                (el_texts els))
      else if atom_is "no_connect" element_type then
        x <~ _parse_no_connect it ;;
        gret (mkElements (el_wires els) (el_buses els) (el_junctions els)
                (el_no_connects els ++ [x]) (el_labels els) (el_global_labels els)
                (el_hierarchical_labels els) (el_symbols els) (el_sheets els)
                (el_texts els))
      else if atom_is "label" element_type then
        x <~ _parse_label it ;;
        gret (mkElements (el_wires els) (el_buses els) (el_junctions els)
                (el_no_connects els) (el_labels els ++ [x]) (el_global_labels els)
                (el_hierarchical_labels els) (el_symbols els) (el_sheets els)
                (el_texts els))
      else if atom_is "global_label" element_type then
        x <~ _parse_global_label it ;;
        gret (mkElements (el_wires els) (el_buses els) (el_junctions els)
                (el_no_connects els) (el_labels els) (el_global_labels els ++ [x])
                (el_hierarchical_labels els) (el_symbols els) (el_sheets els)
                (el_texts els))
      else if atom_is "hierarchical_label" element_type then
        x <~ _parse_hierarchical_label it ;;
        gret (mkElements (el_wires els) (el_buses els) (el_junctions els)
                (el_no_connects els) (el_labels els) (el_global_labels els)
                (el_hierarchical_labels els ++ [x]) (el_symbols els)
                (el_sheets els) (el_texts els))
      else if atom_is "symbol" element_type then
        x <~ _parse_symbol_instance it ;;
        gret (mkElements (el_wires els) (el_buses els) (el_junctions els)
                (el_no_connects els) (el_labels els) (el_global_labels els)
                (el_hierarchical_labels els) (el_symbols els ++ [x])
                (el_sheets els) (el_texts els))
      else if atom_is "sheet" element_type then
        x <~ _parse_sheet it ;;
        gret (mkElements (el_wires els) (el_buses els) (el_junctions els)
                (el_no_connects els) (el_labels els) (el_global_labels els)
                (el_hierarchical_labels els) (el_symbols els)
                (el_sheets els ++ [x]) (el_texts els))
      else if atom_is "text" element_type then
        x <~ _parse_sch_text it ;;
        gret (mkElements (el_wires els) (el_buses els) (el_junctions els)
                (el_no_connects els) (el_labels els) (el_global_labels els)
                (el_hierarchical_labels els) (el_symbols els)
                (el_sheets els) (el_texts els ++ [x]))
      else gret els
  | _ => gret els
  end.

(** The part of [parse_schematic] that follows the parsing of the text. *)
Definition decode_schematic (expr : SExpr)
  : Gen (Result Schematic SchematicParseError) :=
  match expr with
  | Atom _ | SList [] =>
      gret (Err (SchematicParseError1 "Empty or invalid schematic"))
  | SList ((head :: _) as items) =>
      if negb (atom_is "kicad_sch" head) then
        gret (Err (SchematicParseError1 ("Expected kicad_sch, got " ++ py_str head)))
      else
        let version := or_string (sexpr_get_value expr "version") "20231120" in
        let generator := or_string (sexpr_get_value expr "generator") "unknown" in
        uuid <~ _parse_uuid expr ;;
        let page := _parse_page expr in
        title_block <~ match sexpr_get expr "title_block" with
                       | Some tb_expr => lift (_parse_title_block (items_of tb_expr))
                       | None => gret (mkTitleBlock "" "" "" "" "" "" "" "")
                       end ;;
        els <~ fold_gen schematic_step items
                 (mkElements [] [] [] [] [] [] [] [] [] []) ;;
        gret (Ok (mkSchematic version generator uuid page title_block []
                    (el_wires els) (el_buses els) [] (el_junctions els)
                    (el_no_connects els) (el_labels els) (el_global_labels els)
                    (el_hierarchical_labels els) [] (el_symbols els)
                    (el_sheets els) (el_texts els)))
  end.

Definition parse_schematic (text : string)
  : option (Gen (Result Schematic SchematicParseError)) :=
  match parse_sexpr text with
  | None => None
  | Some (Err err) =>
      Some (gret (Err (SchematicParseError1 (ParseError_str err))))
  | Some (Ok expr) => Some (decode_schematic expr)
  end.

End SchematicParser.

(** ** Notions used by the statements *)

(** A tree that is a non-empty list whose first element is the atom [tag]. *)
Definition has_root (tag : string) (expr : SExpr) : bool :=
  match expr with
  | SList (Atom h :: _) => String.eqb h tag
  | _ => false
  end.

(** The message of the decoders for a tree without the root tag [tag];
    [what] is the kind of document. *)
Definition root_error_message (tag what : string) (expr : SExpr) : string :=
  match expr with
  | SList (head :: _) => "Expected " ++ tag ++ ", got " ++ py_str head
  | _ => "Empty or invalid " ++ what
  end.

(** The second element of the first child of [expr] that is a list headed
    by [key], when that element is a string that is not empty; [default] in
    every other case: no such child, a child of the head alone, a list or
    the empty string as second element. *)
Definition field_or (expr : SExpr) (key default : string) : string :=
  match expr with
  | Atom _ => default
  | SList items =>
      match find (head_is key) items with
      | Some (SList (_ :: Atom (String c v) :: _)) => String c v
      | _ => default
      end
  end.

(** The pin forms of the decoder tests: the head, the two positional atoms,
    then the sub-forms. *)
Definition pin_form (electrical_type shape : string) : list SExpr :=
  [Atom "pin"; Atom electrical_type; Atom shape;
   SList [Atom "at"; Atom "0"; Atom "3.81"; Atom "270"];
   SList [Atom "length"; Atom "1.27"];
   SList [Atom "name"; Atom "A";
          SList [Atom "effects"; SList [Atom "font"; SList [Atom "size"; Atom "1.27"; Atom "1.27"]]]];
   SList [Atom "number"; Atom "1";
          SList [Atom "effects"; SList [Atom "font"; SList [Atom "size"; Atom "1.27"; Atom "1.27"]]]]].

(** The last element of a non-empty list of strings. *)
Definition last_string (l : list string) : string := last l "".

(** ** Trees the writer emits in a form the tokenizer reads back

    A bare atom that begins with a semicolon is written as it is and read as
    a comment; every other atom comes back. *)

Definition starts_with (c : ascii) (s : string) : bool :=
  match s with
  | String ch _ => Ascii.eqb ch c
  | EmptyString => false
  end.

Definition atom_ok (s : string) : bool :=
  _needs_quoting s || negb (starts_with SEMI s).

Fixpoint tree_ok (t : SExpr) : bool :=
  match t with
  | Atom s => atom_ok s
  | SList items => forallb tree_ok items
  end.

(** The type and the value of the tokens of a written tree. *)
Definition token_kind (s : string) : TokenType :=
  if _needs_quoting s then STRING else ATOM.

Fixpoint flatten (t : SExpr) : list (TokenType * string) :=
  match t with
  | Atom s => [(token_kind s, s)]
  | SList items =>
      ((LPAREN, "(") :: List.concat (map flatten items)) ++ [(RPAREN, ")")]
  end.

Definition shape (t : Token) : TokenType * string := (tok_type t, tok_value t).

Fixpoint blank (s : string) : bool :=
  match s with
  | EmptyString => true
  | String ch r => is_space ch && blank r
  end.

(** A text that is empty or begins with a character that ends a bare atom. *)
Definition delimited (s : string) : bool :=
  match s with
  | EmptyString => true
  | String ch _ => is_atom_end ch
  end.

(** [lexes_to text toks rest]: scanning [text ++ rest] from any position
    yields tokens of shape [toks] and leaves [rest]. *)
Definition lexes_to (text : string) (toks : list (TokenType * string)) (rest : string)
  : Prop :=
  forall l c, exists ts st',
    lexes (mkTokenizer (text ++ rest) l c) ts st'
    /\ map shape ts = toks /\ t_rest st' = rest.

(** The concatenation of a list of strings. *)
Definition concat_strings (l : list string) : string := fold_right append "" l.

(** ** Libraries that survive the round trip through text

    The conditions below are decidable.  They say that every text field is an
    atom the tokenizer reads back, that every number is printed with all its
    digits, and that no field is set which the writer does not emit. *)

(** [x] is printed by [format_number] as a text [float] reads back as [x];
    not-a-number, never equal to itself, is left out. *)
Definition float_ok (x : float) : bool :=
  negb (PrimFloat.is_nan x)
  && match py_float (format_number x) with
     | Some y => PrimFloat.Leibniz.eqb y x
     | None => false
     end.

Definition nonempty (s : string) : bool :=
  match s with
  | EmptyString => false
  | String _ _ => true
  end.

Definition is_none {A : Type} (x : option A) : bool :=
  match x with
  | None => true
  | Some _ => false
  end.

Definition point_ok (p : Point) : bool := float_ok (pt_x p) && float_ok (pt_y p).

Definition position_ok (p : Position) : bool :=
  float_ok (pos_x p) && float_ok (pos_y p) && float_ok (pos_angle p).

Definition stroke_ok (s : Stroke) : bool :=
  float_ok (stroke_width s) && nonempty (stroke_type s) && atom_ok (stroke_type s)
  && is_none (stroke_color s).

Definition fill_ok (f : Fill) : bool :=
  nonempty (fill_type f) && atom_ok (fill_type f) && is_none (fill_color f).

Definition font_ok (f : Font) : bool :=
  is_none (font_face f) && float_ok (font_size_x f) && float_ok (font_size_y f)
  && PrimFloat.Leibniz.eqb (font_thickness f) 0.254%float
  && PrimFloat.Leibniz.eqb (font_line_spacing f) 1%float.

Definition effects_ok (e : Effects) : bool :=
  font_ok (eff_font e)
  && in_keys ["left"; "right"; "center"] (eff_justify_h e)
  && in_keys ["top"; "bottom"; "center"] (eff_justify_v e)
  && negb (eff_mirror e).

Definition option_ok {A : Type} (ok : A -> bool) (x : option A) : bool :=
  match x with
  | Some a => ok a
  | None => false
  end.

Definition property_ok (p : Property) : bool :=
  atom_ok (prop_name p) && atom_ok (prop_value p)
  && position_ok (prop_position p) && effects_ok (prop_effects p).

Definition pin_ok (p : PinDef) : bool :=
  atom_ok (pin_number p) && atom_ok (pin_name p) && position_ok (pin_position p)
  && float_ok (pin_length p)
  && option_ok effects_ok (pin_name_effects p)
  && option_ok effects_ok (pin_number_effects p).

Definition graphic_ok (g : GraphicElement) : bool :=
  match g with
  | GRectangle r =>
      point_ok (rect_start r) && point_ok (rect_end r)
      && stroke_ok (rect_stroke r) && fill_ok (rect_fill r)
  | GCircle c =>
      point_ok (circle_center c) && float_ok (circle_radius c)
      && stroke_ok (circle_stroke c) && fill_ok (circle_fill c)
  | GArc a =>
      point_ok (arc_start a) && point_ok (arc_mid a) && point_ok (arc_end a)
      && stroke_ok (arc_stroke a) && fill_ok (arc_fill a)
  | GPolyline p =>
      forallb point_ok (poly_points p)
      && stroke_ok (poly_stroke p) && fill_ok (poly_fill p)
  | GText t =>
      atom_ok (text_text t) && position_ok (text_position t)
      && option_ok effects_ok (text_effects t)
  end.

Definition unit_ok (u : SymbolUnit) : bool :=
  atom_ok (unit_name u)
  && (fst (unit_indices (unit_name u)) =? unit_index u)%Z
  && (snd (unit_indices (unit_name u)) =? style_index u)%Z
  && forallb pin_ok (unit_pins u)
  && forallb graphic_ok (unit_graphics u).

Definition symbol_ok (s : SymbolDef) : bool :=
  atom_ok (sym_name s)
  && forallb property_ok (sym_properties s)
  && forallb unit_ok (sym_units s)
  && match sym_extends s with
     | Some e => nonempty e && atom_ok e
     | None => true
     end
  && float_ok (sym_pin_names_offset s)
  && negb (sym_pin_names_hide s && float_ne (sym_pin_names_offset s) 0.508%float).

Definition representable (lib : SymbolLibrary) : bool :=
  nonempty (lib_version lib) && atom_ok (lib_version lib)
  && nonempty (lib_generator lib) && atom_ok (lib_generator lib)
  && forallb symbol_ok (lib_symbols lib).

(** A library without the electrical type and the shape of its pins. *)
Definition forget_pin_kind (p : PinDef) : PinDef :=
  mkPinDef (pin_number p) (pin_name p) PinElectricalType.UNSPECIFIED PinShape.LINE
    (pin_position p) (pin_length p) (pin_name_effects p) (pin_number_effects p)
    (pin_hide p).

Definition forget_unit_kinds (u : SymbolUnit) : SymbolUnit :=
  mkSymbolUnit (unit_name u) (unit_index u) (style_index u)
    (map forget_pin_kind (unit_pins u)) (unit_graphics u).

Definition forget_symbol_kinds (s : SymbolDef) : SymbolDef :=
  mkSymbolDef (sym_name s) (sym_properties s) (map forget_unit_kinds (sym_units s))
    (sym_in_bom s) (sym_on_board s) (sym_extends s) (sym_power s)
    (sym_pin_numbers_hide s) (sym_pin_names_hide s) (sym_pin_names_offset s).

Definition forget_pin_kinds (lib : SymbolLibrary) : SymbolLibrary :=
  mkSymbolLibrary (lib_version lib) (lib_generator lib)
    (map forget_symbol_kinds (lib_symbols lib)).

(** ** Sample values *)

Definition sample_effects : Effects :=
  mkEffects (Font4 1.27%float 1.27%float true false) "left" "bottom" false true.

Definition sample_pin : PinDef :=
  mkPinDef "1" "A" PinElectricalType.PASSIVE PinShape.INVERTED
    (mkPosition 0%float 3.81%float 270%float) 1.27%float
    (Some sample_effects) (Some EFFECTS_DEFAULT) true.

Definition sample_graphics : list GraphicElement :=
  [GRectangle (mkRectangle (mkPoint (-1.016)%float (-2.54)%float)
                 (mkPoint 1.016%float 2.54%float)
                 (Stroke2 0.254%float "default") (Fill1 "none"));
   GCircle (mkCircle (mkPoint 0%float 0%float) 0.5%float
              (Stroke1 0%float) (Fill1 "background"));
   GArc (mkArc (mkPoint 0%float 1%float) (mkPoint 1%float 0%float)
           (mkPoint 0%float (-1)%float) (Stroke2 0.1%float "dash") (Fill1 "none"));
   GPolyline (mkPolyline [mkPoint 0%float 0%float; mkPoint 2.54%float 0%float;
                          mkPoint 2.54%float 2.54%float]
                (Stroke1 0%float) (Fill1 "none"));
   GText (mkText "10 k" (Position2 1%float 1%float) (Some EFFECTS_DEFAULT))].

Definition sample_symbol : SymbolDef :=
  mkSymbolDef "R"
    [mkProperty "Reference" "R" 0%Z (mkPosition 2.032%float 0%float 90%float)
       EFFECTS_DEFAULT;
     mkProperty "Value" "" 1%Z (Position2 0%float 0%float) sample_effects]
    [mkSymbolUnit "R_0_1" 0%Z 1%Z [] sample_graphics;
     mkSymbolUnit "R_1_1" 1%Z 1%Z [sample_pin] []]
    true false (Some "Base") true true false 0%float.

Definition sample_library : SymbolLibrary :=
  mkSymbolLibrary "20211014" "kicad_lib" [sample_symbol].

(** A library whose only pin is [PinDef("1", "A")], every other field at its
    default, and what comes back for it from its text. *)
Definition default_pin_library : SymbolLibrary :=
  mkSymbolLibrary "20210201" "kicad_lib"
    [mkSymbolDef "R" []
       [mkSymbolUnit "R_1_1" 1%Z 1%Z
          [mkPinDef "1" "A" PinElectricalType.UNSPECIFIED PinShape.LINE
             (Position2 0%float 0%float) 2.54%float None None false] []]
       true true None false false false 0.508%float].

Definition default_pin_library_read : SymbolLibrary :=
  let effects := mkEffects (Font4 1%float 1%float false false) "center" "center"
                   false false in
  mkSymbolLibrary "20210201" "kicad_lib"
    [mkSymbolDef "R" []
       [mkSymbolUnit "R_1_1" 1%Z 1%Z
          [mkPinDef "1" "A" PinElectricalType.UNSPECIFIED PinShape.LINE
             (Position2 0%float 0%float) 2.54%float (Some effects) (Some effects)
             false] []]
       true true None false false false 0.508%float].

Definition sample_property (name value : string) : Property :=
  mkProperty name value 0%Z (Position2 0%float 0%float) EFFECTS_DEFAULT.

Definition sample_instance (properties : list Property) : SymbolInstance :=
  mkSymbolInstance "Device:R" (Position2 0%float 0%float) 1%Z (Atom "")
    properties [] (mkUUID "0") true true.


(** ** Where a token stands in the text

    [token_source t src]: [src] is the text the scanner consumed for the
    token [t]: the value itself for a parenthesis or a bare atom, and a
    double quote followed by the body up to the closing quote for a string. *)
Definition token_source (t : Token) (src : string) : Prop :=
  match tok_type t with
  | LPAREN => tok_value t = "(" /\ src = "("
  | RPAREN => tok_value t = ")" /\ src = ")"
  | ATOM => src = tok_value t
  | STRING => exists body, src = String DQUOTE (body ++ str1 DQUOTE)
  end.

(** [located text t]: the line and the column of [t] are those of the first
    character of its source in [text]. *)
Definition located (text : string) (t : Token) : Prop :=
  exists before src after,
    text = before ++ src ++ after
    /\ tok_line t = line_of before
    /\ tok_column t = column_of before
    /\ token_source t src.

(** A bare atom as the scanner returns it: not empty, without a blank, a
    parenthesis or a double quote, and not begun by a semicolon. *)
Definition bare (s : string) : bool :=
  negb (_needs_quoting s) && negb (starts_with SEMI s).

(** ** The tokens of a complete expression

    [Parser._parse_expr] looks at the type of a parenthesis token only, and
    takes the value of any other token, a STRING or an ATOM alike, as an
    atom.  [mark t] is what it reads of the token [t], and [marks e] is what
    it has to read to return the tree [e]. *)
Inductive Mark : Type :=
| MOpen
| MClose
| MLeaf (value : string).

Definition mark (t : Token) : Mark :=
  match tok_type t with
  | LPAREN => MOpen
  | RPAREN => MClose
  | _ => MLeaf (tok_value t)
  end.

Fixpoint marks (e : SExpr) : list Mark :=
  match e with
  | Atom s => [MLeaf s]
  | SList items => (MOpen :: List.concat (map marks items)) ++ [MClose]
  end.

(** ** Lists that are opened and not closed

    A level is the opening parenthesis of a list with the tokens of the
    complete items that follow it; [unclosed levels] are the tokens of lists
    nested in one another, none of them closed. *)
Definition level_tokens (lv : Token * list Token) : list Token := fst lv :: snd lv.

Definition unclosed (levels : list (Token * list Token)) : list Token :=
  List.concat (map level_tokens levels).

Definition level_ok (lv : Token * list Token) : Prop :=
  tok_type (fst lv) = LPAREN
  /\ exists trees, map mark (snd lv) = List.concat (map marks trees).

(** ** The child forms the symbol decoders read

    The heads [_parse_symbol_def] and [_parse_symbol_unit] compare the first
    element of a child with. *)
Definition symbol_def_keys : list string :=
  ["property"; "symbol"; "in_bom"; "on_board"; "extends"; "power";
   "pin_numbers"; "pin_names"].

Definition symbol_unit_keys : list string :=
  ["pin"; "rectangle"; "circle"; "arc"; "polyline"; "text"].

(** A child that is a list headed by one of [keys]. *)
Definition headed_by (keys : list string) (item : SExpr) : bool :=
  match item with
  | SList (Atom h :: _) => in_keys keys h
  | _ => false
  end.

(** ** result.py: the methods of [Ok] and [Err]

    [unwrap] and [unwrap_err] raise [ValueError] on the other variant. *)
Definition is_ok {T E} (r : Result T E) : bool :=
  match r with Ok _ => true | Err _ => false end.

Definition unwrap {T E} (r : Result T E) : Outcome T :=
  match r with Ok value => Returned value | Err _ => Raised ValueError end.

Definition unwrap_or {T E} (r : Result T E) (default : T) : T :=
  match r with Ok value => value | Err _ => default end.

Definition unwrap_err {T E} (r : Result T E) : Outcome E :=
  match r with Ok _ => Raised ValueError | Err error => Returned error end.

Definition Result_map {T U E} (r : Result T E) (fn : T -> U) : Result U E :=
  match r with Ok value => Ok (fn value) | Err error => Err error end.

Definition map_err {T E F} (r : Result T E) (fn : E -> F) : Result T F :=
  match r with Ok value => Ok value | Err error => Err (fn error) end.

Definition and_then {T U E} (r : Result T E) (fn : T -> Result U E) : Result U E :=
  match r with Ok value => fn value | Err error => Err error end.

Definition or_else {T E F} (r : Result T E) (fn : E -> Result T F) : Result T F :=
  match r with Ok value => Ok value | Err error => fn error end.

(** ** types/enums.py: the severities and the pin compatibility matrix *)

Module Severity.
Inductive t : Type := ERROR | WARNING | INFO | IGNORE.

Definition value (x : t) : string :=
  match x with
  | ERROR => "error" | WARNING => "warning" | INFO => "info" | IGNORE => "ignore"
  end.

Definition mapping : list (string * t) :=
  [("error", ERROR); ("warning", WARNING); ("info", INFO); ("ignore", IGNORE)].

Definition from_string (s : string) : t :=
  mapping_get mapping (py_lower s) WARNING.
End Severity.

Module FillType.
Inductive t : Type := NONE | OUTLINE | BACKGROUND | COLOR.

Definition value (x : t) : string :=
  match x with
  | NONE => "none" | OUTLINE => "outline" | BACKGROUND => "background"
  | COLOR => "color"
  end.

Definition mapping : list (string * t) :=
  [("none", NONE); ("outline", OUTLINE); ("background", BACKGROUND);
   ("color", COLOR)].

Definition from_string (s : string) : t :=
  mapping_get mapping (py_lower s) NONE.
End FillType.

Module StrokeType.
Inductive t : Type := DEFAULT | SOLID | DASH | DOT | DASH_DOT | DASH_DOT_DOT.

Definition value (x : t) : string :=
  match x with
  | DEFAULT => "default" | SOLID => "solid" | DASH => "dash" | DOT => "dot"
  | DASH_DOT => "dash_dot" | DASH_DOT_DOT => "dash_dot_dot"
  end.

Definition mapping : list (string * t) :=
  [("default", DEFAULT); ("solid", SOLID); ("dash", DASH); ("dot", DOT);
   ("dash_dot", DASH_DOT); ("dash_dot_dot", DASH_DOT_DOT)].

Definition from_string (s : string) : t :=
  mapping_get mapping (py_lower s) DEFAULT.
End StrokeType.

Module JustifyHorizontal.
Inductive t : Type := LEFT | CENTER | RIGHT.

Definition value (x : t) : string :=
  match x with LEFT => "left" | CENTER => "center" | RIGHT => "right" end.

Definition mapping : list (string * t) :=
  [("left", LEFT); ("center", CENTER); ("right", RIGHT)].

Definition from_string (s : string) : t :=
  mapping_get mapping (py_lower s) CENTER.
End JustifyHorizontal.

Module JustifyVertical.
Inductive t : Type := TOP | CENTER | BOTTOM.

Definition value (x : t) : string :=
  match x with TOP => "top" | CENTER => "center" | BOTTOM => "bottom" end.

Definition mapping : list (string * t) :=
  [("top", TOP); ("center", CENTER); ("bottom", BOTTOM)].

Definition from_string (s : string) : t :=
  mapping_get mapping (py_lower s) CENTER.
End JustifyVertical.

(** The values of the members of [LabelShape] and [SheetPinType]. *)
Definition LabelShape_value (x : LabelShape.t) : string :=
  match x with
  | LabelShape.INPUT => "input" | LabelShape.OUTPUT => "output"
  | LabelShape.BIDIRECTIONAL => "bidirectional"
  | LabelShape.TRI_STATE => "tri_state" | LabelShape.PASSIVE => "passive"
  end.

Definition SheetPinType_value (x : SheetPinType.t) : string :=
  match x with
  | SheetPinType.INPUT => "input" | SheetPinType.OUTPUT => "output"
  | SheetPinType.BIDIRECTIONAL => "bidirectional"
  | SheetPinType.TRI_STATE => "tri_state" | SheetPinType.PASSIVE => "passive"
  end.

(** Members of [PinElectricalType] are compared by identity. *)
Definition pin_type_eqb (a b : PinElectricalType.t) : bool :=
  match a, b with
  | PinElectricalType.INPUT, PinElectricalType.INPUT
  | PinElectricalType.OUTPUT, PinElectricalType.OUTPUT
  | PinElectricalType.BIDIRECTIONAL, PinElectricalType.BIDIRECTIONAL
  | PinElectricalType.TRI_STATE, PinElectricalType.TRI_STATE
  | PinElectricalType.PASSIVE, PinElectricalType.PASSIVE
  | PinElectricalType.FREE, PinElectricalType.FREE
  | PinElectricalType.UNSPECIFIED, PinElectricalType.UNSPECIFIED
  | PinElectricalType.POWER_IN, PinElectricalType.POWER_IN
  | PinElectricalType.POWER_OUT, PinElectricalType.POWER_OUT
  | PinElectricalType.OPEN_COLLECTOR, PinElectricalType.OPEN_COLLECTOR
  | PinElectricalType.OPEN_EMITTER, PinElectricalType.OPEN_EMITTER
  | PinElectricalType.NO_CONNECT, PinElectricalType.NO_CONNECT => true
  | _, _ => false
  end.

(** [PIN_COMPATIBILITY], in the order of its entries. *)
Definition PIN_COMPATIBILITY
  : list ((PinElectricalType.t * PinElectricalType.t) * Severity.t) :=
  [((PinElectricalType.OUTPUT, PinElectricalType.OUTPUT), Severity.ERROR);
   ((PinElectricalType.OUTPUT, PinElectricalType.POWER_OUT), Severity.ERROR);
   ((PinElectricalType.POWER_OUT, PinElectricalType.OUTPUT), Severity.ERROR);
   ((PinElectricalType.POWER_OUT, PinElectricalType.POWER_OUT), Severity.ERROR);
   ((PinElectricalType.POWER_IN, PinElectricalType.OUTPUT), Severity.ERROR);
   ((PinElectricalType.OUTPUT, PinElectricalType.POWER_IN), Severity.ERROR);
   ((PinElectricalType.INPUT, PinElectricalType.INPUT), Severity.WARNING);
   ((PinElectricalType.POWER_IN, PinElectricalType.POWER_IN), Severity.IGNORE)].

(** [PIN_COMPATIBILITY[key]] when [key in PIN_COMPATIBILITY] *)
Fixpoint compatibility_get
  (matrix : list ((PinElectricalType.t * PinElectricalType.t) * Severity.t))
  (key : PinElectricalType.t * PinElectricalType.t) : option Severity.t :=
  match matrix with
  | [] => None
  | ((a, b), v) :: rest =>
      if pin_type_eqb a (fst key) && pin_type_eqb b (snd key) then Some v
      else compatibility_get rest key
  end.

Definition check_pin_compatibility (type1 type2 : PinElectricalType.t) : Severity.t :=
  let key := (type1, type2) in
  match compatibility_get PIN_COMPATIBILITY key with
  | Some v => v
  | None =>
      let key_rev := (type2, type1) in
      match compatibility_get PIN_COMPATIBILITY key_rev with
      | Some v => v
      | None => Severity.IGNORE
      end
  end.

(** ** types/symbol.py: the lookups and the updates *)

(** [SymbolUnit.with_pin], [SymbolUnit.with_graphic] *)
Definition SymbolUnit_with_pin (self : SymbolUnit) (pin : PinDef) : SymbolUnit :=
  mkSymbolUnit (unit_name self) (unit_index self) (style_index self)
    (unit_pins self ++ [pin]) (unit_graphics self).

Definition SymbolUnit_with_graphic (self : SymbolUnit) (graphic : GraphicElement)
  : SymbolUnit :=
  mkSymbolUnit (unit_name self) (unit_index self) (style_index self)
    (unit_pins self) (unit_graphics self ++ [graphic]).

(** [SymbolUnit.pin_by_number], [SymbolUnit.pin_by_name] *)
Fixpoint SymbolUnit_pin_loop (key : PinDef -> string) (pins : list PinDef)
  (wanted : string) : option PinDef :=
  match pins with
  | [] => None
  | pin :: rest =>
      if String.eqb (key pin) wanted then Some pin
      else SymbolUnit_pin_loop key rest wanted
  end.

Definition SymbolUnit_pin_by_number (self : SymbolUnit) (number : string)
  : option PinDef :=
  SymbolUnit_pin_loop pin_number (unit_pins self) number.

Definition SymbolUnit_pin_by_name (self : SymbolUnit) (name : string)
  : option PinDef :=
  SymbolUnit_pin_loop pin_name (unit_pins self) name.

(** [SymbolDef.reference], [value], [footprint], [datasheet],
    [property_value] *)
Definition SymbolDef_reference (self : SymbolDef) : string :=
  match first_property_value (sym_properties self) "Reference" with
  | Some v => v
  | None => "U"
  end.

Definition SymbolDef_value (self : SymbolDef) : string :=
  match first_property_value (sym_properties self) "Value" with
  | Some v => v
  | None => sym_name self
  end.

Definition SymbolDef_footprint (self : SymbolDef) : option string :=
  first_property_value (sym_properties self) "Footprint".

Definition SymbolDef_datasheet (self : SymbolDef) : option string :=
  first_property_value (sym_properties self) "Datasheet".

Definition SymbolDef_property_value (self : SymbolDef) (name : string)
  : option string :=
  first_property_value (sym_properties self) name.

(** [SymbolDef.all_pins]: [pins.extend(unit.pins)] for every unit *)
Fixpoint all_pins_loop (units : list SymbolUnit) (pins : list PinDef) : list PinDef :=
  match units with
  | [] => pins
  | unit :: rest => all_pins_loop rest (pins ++ unit_pins unit)
  end.

Definition SymbolDef_all_pins (self : SymbolDef) : list PinDef :=
  all_pins_loop (sym_units self) [].

(** [SymbolDef.pin_by_number] *)
Fixpoint SymbolDef_pin_loop (units : list SymbolUnit) (number : string)
  : option PinDef :=
  match units with
  | [] => None
  | unit :: rest =>
      match SymbolUnit_pin_by_number unit number with
      | Some pin => Some pin
      | None => SymbolDef_pin_loop rest number
      end
  end.

Definition SymbolDef_pin_by_number (self : SymbolDef) (number : string)
  : option PinDef :=
  SymbolDef_pin_loop (sym_units self) number.

(** [SymbolDef.with_property]: the loop is the one of
    [SymbolInstance.with_property]. *)
Definition SymbolDef_with_property (self : SymbolDef) (prop : Property) : SymbolDef :=
  let '(new_props, found) := with_property_loop (sym_properties self) prop [] false in
  let new_props := if negb found then (new_props ++ [prop])%list else new_props in
  mkSymbolDef (sym_name self) new_props (sym_units self) (sym_in_bom self)
    (sym_on_board self) (sym_extends self) (sym_power self)
    (sym_pin_numbers_hide self) (sym_pin_names_hide self)
    (sym_pin_names_offset self).

Definition SymbolDef_with_unit (self : SymbolDef) (unit : SymbolUnit) : SymbolDef :=
  mkSymbolDef (sym_name self) (sym_properties self) (sym_units self ++ [unit])
    (sym_in_bom self) (sym_on_board self) (sym_extends self) (sym_power self)
    (sym_pin_numbers_hide self) (sym_pin_names_hide self)
    (sym_pin_names_offset self).

(** [SymbolLibrary.symbol_by_name], [with_symbol], [symbol_names] *)
Fixpoint symbol_by_name_loop (symbols : list SymbolDef) (name : string)
  : option SymbolDef :=
  match symbols with
  | [] => None
  | sym :: rest =>
      if String.eqb (sym_name sym) name then Some sym
      else symbol_by_name_loop rest name
  end.

Definition SymbolLibrary_symbol_by_name (self : SymbolLibrary) (name : string)
  : option SymbolDef :=
  symbol_by_name_loop (lib_symbols self) name.

Definition SymbolLibrary_with_symbol (self : SymbolLibrary) (symbol : SymbolDef)
  : SymbolLibrary :=
  mkSymbolLibrary (lib_version self) (lib_generator self)
    (lib_symbols self ++ [symbol]).

Definition SymbolLibrary_symbol_names (self : SymbolLibrary) : list string :=
  map sym_name (lib_symbols self).

(** ** types/schematic.py: the lookups and the updates of a schematic *)

(** [Sheet.sheet_name], [Sheet.file_name] *)
Definition Sheet_sheet_name (self : Sheet) : string :=
  match first_property_value (sheet_properties self) "Sheetname" with
  | Some v => v
  | None => ""
  end.

Definition Sheet_file_name (self : Sheet) : string :=
  match first_property_value (sheet_properties self) "Sheetfile" with
  | Some v => v
  | None => ""
  end.

(** [Schematic.symbol_by_reference] *)
Fixpoint symbol_by_reference_loop (symbols : list SymbolInstance) (ref : string)
  : option SymbolInstance :=
  match symbols with
  | [] => None
  | sym :: rest =>
      if String.eqb (reference sym) ref then Some sym
      else symbol_by_reference_loop rest ref
  end.

Definition Schematic_symbol_by_reference (self : Schematic) (ref : string)
  : option SymbolInstance :=
  symbol_by_reference_loop (sch_symbols self) ref.

(** [Schematic.symbols_by_lib_id] *)
Definition Schematic_symbols_by_lib_id (self : Schematic) (lib_id : string)
  : list SymbolInstance :=
  filter (fun sym => String.eqb (si_lib_id sym) lib_id) (sch_symbols self).

(** [Schematic.sheet_by_name] *)
Fixpoint sheet_by_name_loop (sheets : list Sheet) (name : string) : option Sheet :=
  match sheets with
  | [] => None
  | sheet :: rest =>
      if String.eqb (Sheet_sheet_name sheet) name then Some sheet
      else sheet_by_name_loop rest name
  end.

Definition Schematic_sheet_by_name (self : Schematic) (name : string) : option Sheet :=
  sheet_by_name_loop (sch_sheets self) name.

(** [Schematic.with_wire], [with_symbol], [with_label] *)
Definition Schematic_with_wire (self : Schematic) (wire : Wire) : Schematic :=
  mkSchematic (sch_version self) (sch_generator self) (sch_uuid self)
    (sch_page self) (sch_title_block self) (sch_lib_symbols self)
    (sch_wires self ++ [wire]) (sch_buses self) (sch_bus_entries self)
    (sch_junctions self) (sch_no_connects self) (sch_labels self)
    (sch_global_labels self) (sch_hierarchical_labels self)
    (sch_power_labels self) (sch_symbols self) (sch_sheets self)
    (sch_texts self).

Definition Schematic_with_symbol (self : Schematic) (symbol : SymbolInstance)
  : Schematic :=
  mkSchematic (sch_version self) (sch_generator self) (sch_uuid self)
    (sch_page self) (sch_title_block self) (sch_lib_symbols self)
    (sch_wires self) (sch_buses self) (sch_bus_entries self)
    (sch_junctions self) (sch_no_connects self) (sch_labels self)
    (sch_global_labels self) (sch_hierarchical_labels self)
    (sch_power_labels self) (sch_symbols self ++ [symbol]) (sch_sheets self)
    (sch_texts self).

Definition Schematic_with_label (self : Schematic) (label : Label) : Schematic :=
  mkSchematic (sch_version self) (sch_generator self) (sch_uuid self)
    (sch_page self) (sch_title_block self) (sch_lib_symbols self)
    (sch_wires self) (sch_buses self) (sch_bus_entries self)
    (sch_junctions self) (sch_no_connects self) (sch_labels self ++ [label])
    (sch_global_labels self) (sch_hierarchical_labels self)
    (sch_power_labels self) (sch_symbols self) (sch_sheets self)
    (sch_texts self).

(** A comment form of a title block whose number is an atom that [int] does
    not read. *)
Definition bad_comment (item : SExpr) : bool :=
  match item with
  | SList (Atom "comment" :: Atom s :: _ :: _) =>
      match py_int s with Some _ => false | None => true end
  | _ => false
  end.

(** Sample values for the lookups. *)
Definition sample_schematic (symbols : list SymbolInstance) : Schematic :=
  mkSchematic "20231120" "kicad_lib" (mkUUID "u") (mkSchematicPage "A4" 297 210 false)
    (mkTitleBlock "" "" "" "" "" "" "" "") [] [] [] [] [] [] [] [] [] [] symbols [] [].


(** * Properties *)

(** ** Strings *)

Lemma string_app_nil_r (s : string) : s ++ "" = s.
Proof. induction s as [|ch s IH]; simpl; [reflexivity | now rewrite IH]. Qed.

Lemma string_app_assoc (a b c : string) : (a ++ b) ++ c = a ++ (b ++ c).
Proof. induction a as [|ch a IH]; simpl; [reflexivity | now rewrite IH]. Qed.

Lemma string_length_app (a b : string) :
  String.length (a ++ b) = String.length a + String.length b.
Proof. induction a as [|ch a IH]; simpl; [reflexivity | now rewrite IH]. Qed.

Lemma string_app_inv_length (a b c d : string) :
  a ++ b = c ++ d -> String.length b = String.length d -> a = c /\ b = d.
Proof.
  revert c. induction a as [|x a IH]; intros [|y c] H L; simpl in *.
  - now split.
  - subst b. simpl in L. rewrite string_length_app in L. lia.
  - subst d. simpl in L. rewrite string_length_app in L. lia.
  - injection H as -> H. destruct (IH _ H L) as [-> ->]. now split.
Qed.

Lemma string_length_ind (P : string -> Prop) :
  (forall s, (forall t, String.length t < String.length s -> P t) -> P s) ->
  forall s, P s.
Proof.
  intros H s. remember (String.length s) as n eqn:E. revert s E.
  induction n as [n IH] using lt_wf_ind. intros s ->.
  apply H. intros t Ht. exact (IH _ Ht t eq_refl).
Qed.

(** ** What the scanner consumes *)

Lemma advance_over_app a b l c :
  advance_over (a ++ b) l c
  = advance_over b (fst (advance_over a l c)) (snd (advance_over a l c)).
Proof.
  revert l c. induction a as [|x a IH]; intros l c; simpl; [reflexivity|].
  destruct (_advance x l c) as [l' c']. apply IH.
Qed.

Lemma advance_over_spec pre : forall l c,
  advance_over pre l c
  = (l + count_newlines pre,
     if count_newlines pre =? 0 then chars_since_newline pre 0 + c
     else S (chars_since_newline pre 0)).
Proof.
  assert (G : forall s acc, chars_since_newline s acc
              = if count_newlines s =? 0 then chars_since_newline s 0 + acc
                else chars_since_newline s 0).
  { induction s as [|x s IH]; intros acc; simpl; [reflexivity|].
    destruct (Ascii.eqb x NL); simpl; [reflexivity|].
    rewrite (IH (S acc)), (IH 1). destruct (count_newlines s =? 0); lia. }
  induction pre as [|x s IH]; intros l c; simpl.
  - f_equal; lia.
  - unfold _advance. destruct (Ascii.eqb x NL); rewrite IH; simpl.
    + f_equal; [lia|]. destruct (count_newlines s =? 0); lia.
    + rewrite (G s 1). destruct (count_newlines s =? 0); f_equal; lia.
Qed.

Lemma advance_over_start pre :
  advance_over pre 1 1 = (line_of pre, column_of pre).
Proof.
  rewrite advance_over_spec. unfold line_of, column_of.
  destruct (count_newlines pre =? 0); f_equal; lia.
Qed.


Lemma consumed_nil s l c : consumed s l c (mkTokenizer s l c) "".
Proof. split; reflexivity. Qed.

Lemma consumed_step ch r l c st pre :
  consumed r (fst (_advance ch l c)) (snd (_advance ch l c)) st pre ->
  consumed (String ch r) l c st (String ch pre).
Proof.
  intros [H1 H2]. split; simpl; [now rewrite <- H1|].
  destruct (_advance ch l c); exact H2.
Qed.

Lemma _skip_whitespace_from_eq ch r l c :
  _skip_whitespace_from (String ch r) l c
  = if is_space ch then
      _skip_whitespace_from r (fst (_advance ch l c)) (snd (_advance ch l c))
    else if Ascii.eqb ch SEMI then
      skip_comment r (fst (_advance ch l c)) (snd (_advance ch l c))
    else mkTokenizer (String ch r) l c.
Proof. simpl. destruct (_advance ch l c). reflexivity. Qed.

Lemma skip_comment_eq ch r l c :
  skip_comment (String ch r) l c
  = if Ascii.eqb ch NL then
      _skip_whitespace_from r (fst (_advance ch l c)) (snd (_advance ch l c))
    else skip_comment r (fst (_advance ch l c)) (snd (_advance ch l c)).
Proof. simpl. destruct (_advance ch l c). reflexivity. Qed.


Lemma skip_both_consumed s :
  (forall l c, exists pre,
      consumed s l c (_skip_whitespace_from s l c) pre
      /\ starts_token (t_rest (_skip_whitespace_from s l c)))
  /\ (forall l c, exists pre,
      consumed s l c (skip_comment s l c) pre
      /\ starts_token (t_rest (skip_comment s l c))).
Proof.
  induction s as [|ch r [IH1 IH2]].
  - split; intros l c; exists ""; simpl; (split; [apply consumed_nil | exact I]).
  - split; intros l c.
    + rewrite _skip_whitespace_from_eq.
      destruct (is_space ch) eqn:Es.
      * destruct (IH1 (fst (_advance ch l c)) (snd (_advance ch l c))) as [pre [H S]].
        exists (String ch pre). split; [now apply consumed_step | exact S].
      * destruct (Ascii.eqb ch SEMI) eqn:Ec.
        -- destruct (IH2 (fst (_advance ch l c)) (snd (_advance ch l c))) as [pre [H S]].
           exists (String ch pre). split; [now apply consumed_step | exact S].
        -- exists "". split; [apply consumed_nil | simpl; now split].
    + rewrite skip_comment_eq. destruct (Ascii.eqb ch NL).
      * destruct (IH1 (fst (_advance ch l c)) (snd (_advance ch l c))) as [pre [H S]].
        exists (String ch pre). split; [now apply consumed_step | exact S].
      * destruct (IH2 (fst (_advance ch l c)) (snd (_advance ch l c))) as [pre [H S]].
        exists (String ch pre). split; [now apply consumed_step | exact S].
Qed.

Lemma _skip_whitespace_consumed st :
  exists pre,
    consumed (t_rest st) (t_line st) (t_col st) (_skip_whitespace st) pre
    /\ starts_token (t_rest (_skip_whitespace st)).
Proof. apply (proj1 (skip_both_consumed (t_rest st))). Qed.

Lemma consumed_length s l c st pre :
  consumed s l c st pre ->
  String.length s = String.length pre + String.length (t_rest st).
Proof. intros [-> _]. apply string_length_app. Qed.

Lemma _advance_ok ch l c : pos_ok l c ->
  pos_ok (fst (_advance ch l c)) (snd (_advance ch l c)).
Proof. unfold _advance, pos_ok. destruct (Ascii.eqb ch NL); simpl; lia. Qed.

Lemma advance_over_ok s : forall l c, pos_ok l c ->
  pos_ok (fst (advance_over s l c)) (snd (advance_over s l c)).
Proof.
  induction s as [|ch r IH]; intros l c H; simpl; [exact H|].
  pose proof (_advance_ok ch l c H) as H'.
  destruct (_advance ch l c). now apply IH.
Qed.

Lemma consumed_ok s l c st pre :
  consumed s l c st pre -> pos_ok l c -> pos_ok (t_line st) (t_col st).
Proof.
  intros [_ H] Hp. pose proof (advance_over_ok pre l c Hp) as H'.
  now rewrite H in H'.
Qed.

(** [_read_string]: on success a non-empty prefix was consumed; the loop runs
    to the end of the input exactly when the body has no closing quote. *)
Lemma _read_string_loop_consumed s : forall l c chars v st,
  _read_string_loop s l c chars = Some (v, st) ->
  exists pre, consumed s l c st pre /\ pre <> "".
Proof.
  induction s as [s IH] using string_length_ind. intros l c chars v st.
  destruct s as [|ch r]; simpl; [discriminate|].
  destruct (Ascii.eqb ch DQUOTE).
  - destruct (_advance ch l c) as [l' c'] eqn:E. intros [= <- <-].
    exists (str1 ch). split; [|discriminate].
    split; simpl; [reflexivity | now rewrite E].
  - destruct (Ascii.eqb ch BSLASH).
    + destruct (_advance ch l c) as [l1 c1] eqn:E1.
      destruct r as [|e r']; [discriminate|].
      destruct (_advance e l1 c1) as [l2 c2] eqn:E2. intros H.
      apply IH in H; [|simpl; lia]. destruct H as [pre [H _]].
      exists (String ch (String e pre)). split; [|discriminate].
      apply consumed_step. rewrite E1. simpl. apply consumed_step.
      now rewrite E2.
    + destruct (_advance ch l c) as [l' c'] eqn:E. intros H.
      apply IH in H; [|simpl; lia]. destruct H as [pre [H _]].
      exists (String ch pre). split; [|discriminate].
      apply consumed_step. now rewrite E.
Qed.

Lemma _read_string_loop_none s : forall l c chars,
  _read_string_loop s l c chars = None <-> has_closing_quote s = false.
Proof.
  induction s as [s IH] using string_length_ind. intros l c chars.
  destruct s as [|ch r]; simpl; [tauto|].
  destruct (Ascii.eqb ch DQUOTE).
  - destruct (_advance ch l c). split; discriminate.
  - destruct (Ascii.eqb ch BSLASH).
    + destruct (_advance ch l c) as [l1 c1].
      destruct r as [|e r']; [tauto|].
      destruct (_advance e l1 c1). apply IH. simpl; lia.
    + destruct (_advance ch l c). apply IH. simpl; lia.
Qed.

Lemma _read_atom_loop_consumed s : forall l c chars,
  exists pre,
    consumed s l c (snd (_read_atom_loop s l c chars)) pre
    /\ (match s with
        | String ch _ => is_atom_end ch = false -> pre <> ""
        | EmptyString => True
        end).
Proof.
  induction s as [|ch r IH]; intros l c chars; simpl.
  - exists "". split; [apply consumed_nil | exact I].
  - destruct (is_atom_end ch) eqn:E.
    + exists "". split; [apply consumed_nil | discriminate].
    + destruct (_advance ch l c) as [l' c'] eqn:Ea.
      destruct (IH l' c' (chars ++ str1 ch)) as [pre [H _]].
      exists (String ch pre). split; [|discriminate].
      apply consumed_step. now rewrite Ea.
Qed.

(** One iteration of the loop of [tokenize]. *)
Lemma consumed_trans s l c st1 pre1 st2 pre2 :
  consumed s l c st1 pre1 ->
  consumed (t_rest st1) (t_line st1) (t_col st1) st2 pre2 ->
  consumed s l c st2 (pre1 ++ pre2).
Proof.
  intros [H1 H2] [H3 H4]. split.
  - now rewrite string_app_assoc, <- H3.
  - now rewrite advance_over_app, H2.
Qed.

Lemma next_token_tok st t st' :
  next_token st = LexTok t st' ->
  exists ws pre,
    consumed (t_rest st) (t_line st) (t_col st) st' (ws ++ pre)
    /\ pre <> ""
    /\ advance_over ws (t_line st) (t_col st) = (tok_line t, tok_column t).
Proof.
  unfold next_token.
  destruct (_skip_whitespace_consumed st) as [ws [Hws Hst]].
  remember (_skip_whitespace st) as st1 eqn:E1.
  destruct st1 as [s1 l1 c1]. simpl in *.
  destruct s1 as [|ch r]; [discriminate|].
  destruct Hst as [Hsp Hsemi].
  assert (Hpos : advance_over ws (t_line st) (t_col st) = (l1, c1)) by apply Hws.
  destruct (Ascii.eqb ch LPAR) eqn:ELP.
  { destruct (_advance ch l1 c1) as [l' c'] eqn:Ea. intros [= <- <-].
    exists ws, (str1 ch). split; [|split; [discriminate | exact Hpos]].
    eapply consumed_trans; [exact Hws|]. simpl.
    split; simpl; [reflexivity | now rewrite Ea]. }
  destruct (Ascii.eqb ch RPAR) eqn:ERP.
  { destruct (_advance ch l1 c1) as [l' c'] eqn:Ea. intros [= <- <-].
    exists ws, (str1 ch). split; [|split; [discriminate | exact Hpos]].
    eapply consumed_trans; [exact Hws|]. simpl.
    split; simpl; [reflexivity | now rewrite Ea]. }
  destruct (Ascii.eqb ch DQUOTE) eqn:EDQ.
  { unfold _read_string. destruct (_advance ch l1 c1) as [l' c'] eqn:Ea.
    destruct (_read_string_loop r l' c' "") as [[v st2]|] eqn:Er; [|discriminate].
    intros [= <- <-].
    apply _read_string_loop_consumed in Er. destruct Er as [pre [Hc _]].
    exists ws, (String ch pre). split; [|split; [discriminate | exact Hpos]].
    eapply consumed_trans; [exact Hws|]. simpl.
    apply consumed_step. now rewrite Ea. }
  unfold _read_atom. cbn [t_rest t_line t_col].
  destruct (_read_atom_loop_consumed (String ch r) l1 c1 "") as [pre [Hc Hne]].
  destruct (_read_atom_loop (String ch r) l1 c1 "") as [chars st2].
  intros [= <- <-]. cbn [snd] in Hc.
  exists ws, pre. split; [|split; [|exact Hpos]].
  - eapply consumed_trans; [exact Hws | exact Hc].
  - apply Hne. unfold is_atom_end. now rewrite Hsp, ELP, ERP, EDQ.
Qed.

Lemma next_token_err st e :
  next_token st = LexErr e ->
  exists ws body,
    t_rest st = ws ++ String DQUOTE body
    /\ has_closing_quote body = false
    /\ e = mkParseError "Unterminated string"
             (fst (advance_over ws (t_line st) (t_col st)))
             (snd (advance_over ws (t_line st) (t_col st))).
Proof.
  unfold next_token.
  destruct (_skip_whitespace_consumed st) as [ws [Hws Hst]].
  destruct (_skip_whitespace st) as [s1 l1 c1]. simpl in *.
  destruct s1 as [|ch r]; [discriminate|].
  destruct (Ascii.eqb ch LPAR); [destruct (_advance ch l1 c1); discriminate|].
  destruct (Ascii.eqb ch RPAR); [destruct (_advance ch l1 c1); discriminate|].
  destruct (Ascii.eqb ch DQUOTE) eqn:EDQ.
  - unfold _read_string. destruct (_advance ch l1 c1) as [l' c'].
    destruct (_read_string_loop r l' c' "") as [[v st2]|] eqn:Er; [discriminate|].
    intros [= <-]. apply _read_string_loop_none in Er.
    apply Ascii.eqb_eq in EDQ. subst ch.
    exists ws, r. destruct Hws as [H1 H2]. simpl in *.
    split; [exact H1 | split; [exact Er | now rewrite H2]].
  - unfold _read_atom. cbn [t_rest t_line t_col].
    destruct (_read_atom_loop (String ch r) l1 c1 ""). discriminate.
Qed.

(** ** The loop of [tokenize] has fuel enough *)

Lemma next_token_shorter st t st' :
  next_token st = LexTok t st' ->
  String.length (t_rest st') < String.length (t_rest st).
Proof.
  intros H. destruct (next_token_tok _ _ _ H) as [ws [pre [Hc [Hne _]]]].
  apply consumed_length in Hc. rewrite string_length_app in Hc.
  destruct pre; [congruence | simpl in Hc; lia].
Qed.

Lemma tokenize_loop_total fuel : forall st tokens,
  String.length (t_rest st) < fuel ->
  exists r, tokenize_loop fuel st tokens = Some r.
Proof.
  induction fuel as [|fuel IH]; intros st tokens H; [lia|]. simpl.
  destruct (next_token st) as [|t st'|e] eqn:E; eauto.
  apply IH. apply next_token_shorter in E. lia.
Qed.

Lemma tokenize_loop_mono fuel : forall st tokens r fuel',
  tokenize_loop fuel st tokens = Some r -> fuel <= fuel' ->
  tokenize_loop fuel' st tokens = Some r.
Proof.
  induction fuel as [|fuel IH]; intros st tokens r fuel' H L; [discriminate|].
  destruct fuel' as [|fuel']; [lia|]. simpl in *.
  destruct (next_token st); try assumption. eapply IH; eauto. lia.
Qed.

(** The loop, one iteration at a time. *)
Lemma tokenize_from_eq st tokens :
  tokenize_from st tokens
  = match next_token st with
    | LexEnd => Some (Ok tokens)
    | LexErr e => Some (Err e)
    | LexTok t st' => tokenize_from st' (tokens ++ [t])
    end.
Proof.
  unfold tokenize_from at 1. simpl.
  destruct (next_token st) as [|t st'|e] eqn:E; try reflexivity.
  destruct (tokenize_loop_total (S (String.length (t_rest st'))) st' (tokens ++ [t]))
    as [r Hr]; [lia|].
  unfold tokenize_from. rewrite Hr.
  eapply tokenize_loop_mono; [exact Hr|]. apply next_token_shorter in E. lia.
Qed.

Lemma tokenize_from_total st tokens : exists r, tokenize_from st tokens = Some r.
Proof. apply tokenize_loop_total. lia. Qed.

Lemma tokenize_total text : exists r, tokenize text = Some r.
Proof. apply tokenize_from_total. Qed.

(** ** Positions of tokens and of lexical errors *)

Lemma tokenize_loop_ok fuel : forall st tokens,
  pos_ok (t_line st) (t_col st) -> Forall token_ok tokens ->
  match tokenize_loop fuel st tokens with
  | Some (Ok toks) => Forall token_ok toks
  | Some (Err e) => message e = "Unterminated string" /\ error_ok e
  | None => True
  end.
Proof.
  induction fuel as [|fuel IH]; intros st tokens Hst Htoks; simpl; [exact I|].
  destruct (next_token st) as [|t st'|e] eqn:E.
  - exact Htoks.
  - destruct (next_token_tok _ _ _ E) as [ws [pre [Hc [_ Hp]]]].
    apply IH.
    + eapply consumed_ok; eauto.
    + apply Forall_app. split; [exact Htoks|]. constructor; [|constructor].
      unfold token_ok. pose proof (advance_over_ok ws _ _ Hst) as H.
      now rewrite Hp in H.
  - destruct (next_token_err _ _ E) as [ws [body [_ [_ ->]]]].
    split; [reflexivity|]. apply advance_over_ok. exact Hst.
Qed.

Lemma tokenize_tokens_ok text toks :
  tokenize text = Some (Ok toks) -> Forall token_ok toks.
Proof.
  intros H.
  pose proof (tokenize_loop_ok (S (String.length text)) (Tokenizer_init text) []) as G.
  unfold tokenize, tokenize_from in H. simpl in H, G.
  rewrite H in G. apply G; [split; simpl; lia | constructor].
Qed.

Lemma tokenize_error_ok text e :
  tokenize text = Some (Err e) -> message e = "Unterminated string" /\ error_ok e.
Proof.
  intros H.
  pose proof (tokenize_loop_ok (S (String.length text)) (Tokenizer_init text) []) as G.
  unfold tokenize, tokenize_from in H. simpl in H, G.
  rewrite H in G. apply G; [split; simpl; lia | constructor].
Qed.

(** ** The loop of [tokenize] along a run *)

Lemma lexes_tokenize_from st toks st' :
  lexes st toks st' ->
  forall acc, tokenize_from st acc = tokenize_from st' (acc ++ toks).
Proof.
  induction 1 as [st|st t st1 toks st' E _ IH]; intros acc.
  - now rewrite app_nil_r.
  - rewrite tokenize_from_eq, E, IH, <- app_assoc. reflexivity.
Qed.

Lemma lexes_consumed st toks st' :
  lexes st toks st' ->
  exists pre, consumed (t_rest st) (t_line st) (t_col st) st' pre.
Proof.
  induction 1 as [st|st t st1 toks st' E _ [pre2 IH]].
  - exists "". destruct st. apply consumed_nil.
  - destruct (next_token_tok _ _ _ E) as [ws [pre [Hc _]]].
    eexists. eapply consumed_trans; eauto.
Qed.

(** C5. Whenever the scanner of [tokenize] stands (after blanks and
    comments) at a double quote and the text after it has no closing quote,
    tokenizing fails with the message "Unterminated string" at the line and
    column of that opening quote in the text. *)
Theorem unterminated_string_position
  (text pre body : string) (toks : list Token) (st : Tokenizer) :
  text = pre ++ String DQUOTE body ->
  lexes (Tokenizer_init text) toks st ->
  t_rest (_skip_whitespace st) = String DQUOTE body ->
  has_closing_quote body = false ->
  tokenize text
  = Some (Err (mkParseError "Unterminated string" (line_of pre) (column_of pre))).
Proof.
  intros Htext Hrun Hrest Hbody.
  assert (E : next_token st
              = LexErr (mkParseError "Unterminated string"
                          (t_line (_skip_whitespace st)) (t_col (_skip_whitespace st)))).
  { unfold next_token. rewrite Hrest.
    unfold DQUOTE, LPAR, RPAR. simpl. unfold _read_string.
    destruct (_advance _ _ _) as [l' c'].
    assert (Hn : _read_string_loop body l' c' "" = None)
      by now apply _read_string_loop_none.
    now rewrite Hn. }
  unfold tokenize. rewrite (lexes_tokenize_from _ _ _ Hrun), tokenize_from_eq, E.
  destruct (lexes_consumed _ _ _ Hrun) as [p [Hp1 Hp2]]. simpl in Hp1, Hp2.
  destruct (_skip_whitespace_consumed st) as [ws [[Hw1 Hw2] _]].
  rewrite Hrest in Hw1.
  assert (Hpre : pre = p ++ ws).
  { rewrite Hw1, <- string_app_assoc in Hp1. rewrite Htext in Hp1.
    apply string_app_inv_length in Hp1; [tauto | reflexivity]. }
  assert (Hpos : (line_of pre, column_of pre)
                 = (t_line (_skip_whitespace st), t_col (_skip_whitespace st))).
  { rewrite <- advance_over_start, Hpre, advance_over_app, Hp2. exact Hw2. }
  injection Hpos as -> ->. reflexivity.
Qed.

Lemma unterminated_string_position_witness :
  tokenize ("(foo " ++ String DQUOTE "bar")
  = Some (Err (mkParseError "Unterminated string" 1 6)).
Proof.
  apply (unterminated_string_position _ "(foo " "bar"
           [mkToken LPAREN "(" 1 1; mkToken ATOM "foo" 1 2]
           (mkTokenizer (String SPACE (String DQUOTE "bar")) 1 5)).
  - reflexivity.
  - eapply lexes_cons; [reflexivity|].
    eapply lexes_cons; [reflexivity|]. apply lexes_nil.
  - reflexivity.
  - reflexivity.
Defined.


(** ** The parser: fuel, remaining tokens and error positions *)

Lemma parse_fuel_mono fuel :
  (forall toks r fuel', _parse_expr fuel toks = Some r -> fuel <= fuel' ->
                        _parse_expr fuel' toks = Some r)
  /\ (forall start items toks r fuel',
         _parse_list fuel start items toks = Some r -> fuel <= fuel' ->
         _parse_list fuel' start items toks = Some r).
Proof.
  induction fuel as [|fuel [IHe IHl]]; [split; intros; discriminate|].
  split.
  - intros toks r [|fuel'] H L; [lia|]. simpl in *.
    destruct toks as [|token rest]; [assumption|].
    destruct (tok_type token); try assumption.
    destruct (_parse_list fuel token [] rest) as [x|] eqn:E; [|discriminate].
    rewrite (IHl _ _ _ _ fuel' E); [assumption | lia].
  - intros start items toks r [|fuel'] H L; [lia|]. simpl in *.
    destruct toks as [|token rest]; [assumption|].
    destruct (tok_type token); try assumption;
      (destruct (_parse_expr fuel (token :: rest)) as [x|] eqn:E; [|discriminate];
       rewrite (IHe _ _ fuel' E) by lia;
       destruct x as [[item rest']|e]; [|assumption];
       apply IHl; [assumption | lia]).
Qed.

Lemma parse_rest fuel (P : Token -> Prop) :
  (forall toks e rest, _parse_expr fuel toks = Some (Ok (e, rest)) ->
      List.length rest < List.length toks /\ (Forall P toks -> Forall P rest))
  /\ (forall start items toks items' rest,
         _parse_list fuel start items toks = Some (Ok (items', rest)) ->
         List.length rest < List.length toks /\ (Forall P toks -> Forall P rest)).
Proof.
  induction fuel as [|fuel [IHe IHl]]; [split; intros; discriminate|].
  split.
  - intros toks e rest H. simpl in H.
    destruct toks as [|token toks']; [discriminate|].
    destruct (tok_type token).
    + destruct (_parse_list fuel token [] toks') as [[[its r]|err]|] eqn:E;
        try discriminate.
      injection H as <- <-. destruct (IHl _ _ _ _ _ E) as [L F].
      split; [simpl; lia | intros HF; inversion HF; auto].
    + discriminate.
    + injection H as <- <-. split; [simpl; lia | intros HF; now inversion HF].
    + injection H as <- <-. split; [simpl; lia | intros HF; now inversion HF].
  - intros start items toks items' rest H. simpl in H.
    destruct toks as [|token toks']; [discriminate|].
    destruct (tok_type token) eqn:Et;
      try (destruct (_parse_expr fuel (token :: toks')) as [[[it r]|err]|] eqn:E;
           try discriminate;
           destruct (IHe _ _ _ E) as [L1 F1];
           destruct (IHl _ _ _ _ _ H) as [L2 F2];
           split; [lia | auto]).
    injection H as <- <-. split; [simpl; lia | intros HF; now inversion HF].
Qed.

Lemma parse_total fuel :
  (forall toks, 1 <= fuel -> 2 * List.length toks <= fuel ->
      exists r, _parse_expr fuel toks = Some r)
  /\ (forall start items toks, 2 * List.length toks + 1 <= fuel ->
         exists r, _parse_list fuel start items toks = Some r).
Proof.
  induction fuel as [|fuel [IHe IHl]]; [split; intros; lia|].
  split.
  - intros toks _ Hf. simpl.
    destruct toks as [|token rest]; [eauto|]. simpl in Hf.
    destruct (tok_type token); eauto.
    destruct (IHl token [] rest ltac:(lia)) as [[[? ?]|?] ->]; eauto.
  - intros start items toks Hf. simpl.
    destruct toks as [|token rest]; [eauto|]. simpl in Hf.
    destruct (IHe (token :: rest) ltac:(lia) ltac:(simpl; lia))
      as [[[item rest']|e] E]; rewrite E.
    + destruct (proj1 (parse_rest fuel (fun _ => True)) _ _ _ E) as [L _].
      simpl in L.
      destruct (IHl start (items ++ [item])%list rest' ltac:(lia)) as [r ->].
      destruct (tok_type token); eauto.
    + destruct (tok_type token); eauto.
Qed.

Lemma _parse_expr_total toks :
  exists r, _parse_expr (parser_fuel toks) toks = Some r.
Proof.
  apply (proj1 (parse_total (parser_fuel toks))); unfold parser_fuel; lia.
Qed.

Lemma parse_total_result toks : exists r, parse toks = Some r.
Proof.
  unfold parse. destruct (_parse_expr_total toks) as [[[e [|t rest]]|err] ->]; eauto.
Qed.

Lemma parse_sexpr_total text : exists r, parse_sexpr text = Some r.
Proof.
  unfold parse_sexpr. destruct (tokenize_total text) as [[toks|e] ->]; eauto.
  apply parse_total_result.
Qed.


Lemma parse_errors fuel :
  (forall toks e, _parse_expr fuel toks = Some (Err e) ->
      Forall token_ok toks -> (toks = [] /\ e = E_eof) \/ error_ok e)
  /\ (forall start items toks e,
         _parse_list fuel start items toks = Some (Err e) ->
         token_ok start -> Forall token_ok toks -> error_ok e).
Proof.
  induction fuel as [|fuel [IHe IHl]]; [split; intros; discriminate|].
  split.
  - intros toks e H HF. simpl in H.
    destruct toks as [|token rest]; [injection H as <-; left; split; reflexivity|].
    right. inversion HF as [|? ? Ht Hr]; subst.
    destruct (tok_type token); try discriminate.
    + destruct (_parse_list fuel token [] rest) as [[[? ?]|err]|] eqn:E;
        try discriminate.
      injection H as <-. eapply IHl; eauto.
    + injection H as <-. exact Ht.
  - intros start items toks e H Hs HF. simpl in H.
    destruct toks as [|token rest]; [injection H as <-; exact Hs|].
    destruct (tok_type token) eqn:Et; try discriminate;
      (destruct (_parse_expr fuel (token :: rest)) as [[[it r]|err]|] eqn:E;
       try discriminate;
       [ eapply IHl; [exact H | exact Hs
                     | exact (proj2 (proj1 (parse_rest fuel token_ok) _ _ _ E) HF)]
       | injection H as <-;
         destruct (IHe _ _ E HF) as [[? _]|?]; [discriminate | assumption] ]).
Qed.

(** C8. A text without tokens (the empty text, or blanks and comments only)
    and an empty token stream fail with the message "Unexpected end of input"
    at line 0, column 0; every other failure of [parse_sexpr] carries a line
    and a column that are at least 1. *)
Theorem empty_input_error :
  parse [] = Some (Err E_eof)
  /\ (forall text, tokenize text = Some (Ok []) ->
                   parse_sexpr text = Some (Err E_eof))
  /\ (forall text e, parse_sexpr text = Some (Err e) -> e <> E_eof ->
                     1 <= line e /\ 1 <= column e).
Proof.
  split; [reflexivity|]. split.
  - intros text H. unfold parse_sexpr. now rewrite H.
  - intros text e H Hne. unfold parse_sexpr in H.
    destruct (tokenize text) as [[toks|err]|] eqn:Et; try discriminate.
    + pose proof (tokenize_tokens_ok _ _ Et) as HF.
      unfold parse in H.
      destruct (_parse_expr (parser_fuel toks) toks) as [[[x rest]|err]|] eqn:E;
        try discriminate.
      * destruct rest as [|t rest]; [discriminate|]. injection H as <-.
        pose proof (proj2 (proj1 (parse_rest _ token_ok) _ _ _ E) HF) as HF'.
        inversion HF'; subst. assumption.
      * injection H as <-.
        destruct (proj1 (parse_errors _) _ _ E HF) as [[_ ->]|Hok];
          [contradiction | exact Hok].
    + injection H as <-. apply (tokenize_error_ok _ _ Et).
Qed.

Lemma empty_input_error_witness :
  parse_sexpr "" = Some (Err E_eof)
  /\ parse_sexpr " ; nothing here" = Some (Err E_eof)
  /\ 1 <= line (mkParseError "Unexpected closing paren" 1 1)
     /\ 1 <= column (mkParseError "Unexpected closing paren" 1 1).
Proof.
  destruct empty_input_error as [_ [H1 H2]].
  split; [apply H1; reflexivity|].
  split; [apply H1; reflexivity|].
  apply (H2 ")"); [reflexivity | discriminate].
Defined.

(** The claim as stated: writing an empty list gives the two characters of an
    empty pair of parentheses.  [write_sexpr] ends its output with a
    newline. *)
Lemma write_empty_list_counterexample : write_sexpr (SList []) <> "()".
Proof. discriminate. Qed.

(** C3 (amended). Parsing the text of an empty pair of parentheses yields the
    empty list; for the empty list [_write_expr] emits exactly that pair, and
    [write] (hence [write_sexpr]) returns it followed by a newline. *)
Theorem empty_list_parse_write :
  parse_sexpr "()" = Some (Ok (SList []))
  /\ (forall w depth, _write_expr w (SList []) depth = "()")
  /\ (forall w, write w (SList []) = String LPAR (String RPAR (str1 NL)))
  /\ write_sexpr (SList []) = String LPAR (String RPAR (str1 NL)).
Proof. repeat split. Qed.


(** ** Quoted atoms are read back *)

Lemma _read_string_loop_escaped s : forall rest l c chars,
  exists l' c',
    _read_string_loop (_escape_string s ++ String DQUOTE rest) l c chars
    = Some (chars ++ s, mkTokenizer rest l' c').
Proof.
  induction s as [|ch s IH]; intros rest l c chars.
  - simpl. rewrite string_app_nil_r. do 2 eexists. reflexivity.
  - assert (Happ : chars ++ String ch s = (chars ++ str1 ch) ++ s)
      by (now rewrite string_app_assoc).
    rewrite Happ. cbn [_escape_string]. unfold escape_char.
    destruct (Ascii.eqb ch DQUOTE) eqn:E1.
    { apply Ascii.eqb_eq in E1. subst ch. cbn.
      destruct (IH rest l (S (S c)) (chars ++ str1 DQUOTE)) as [l' [c' H]].
      exists l', c'. exact H. }
    destruct (Ascii.eqb ch BSLASH) eqn:E2.
    { apply Ascii.eqb_eq in E2. subst ch. cbn.
      destruct (IH rest l (S (S c)) (chars ++ str1 BSLASH)) as [l' [c' H]].
      exists l', c'. exact H. }
    destruct (Ascii.eqb ch NL) eqn:E3.
    { apply Ascii.eqb_eq in E3. subst ch. cbn.
      destruct (IH rest l (S (S c)) (chars ++ str1 NL)) as [l' [c' H]].
      exists l', c'. exact H. }
    destruct (Ascii.eqb ch CR) eqn:E4.
    { apply Ascii.eqb_eq in E4. subst ch. cbn.
      destruct (IH rest l (S (S c)) (chars ++ str1 CR)) as [l' [c' H]].
      exists l', c'. exact H. }
    destruct (Ascii.eqb ch TAB) eqn:E5.
    { apply Ascii.eqb_eq in E5. subst ch. cbn.
      destruct (IH rest l (S (S c)) (chars ++ str1 TAB)) as [l' [c' H]].
      exists l', c'. exact H. }
    cbn [str1 append _read_string_loop]. rewrite E1, E2.
    destruct (_advance ch l c) as [l1 c1].
    apply IH.
Qed.

Lemma has_quoting_char_contains c s :
  is_quoting_char c = true -> contains_char c s = true ->
  has_quoting_char s = true.
Proof.
  intros Hc. induction s as [|ch s IH]; simpl; [discriminate|].
  destruct (Ascii.eqb ch c) eqn:E.
  - apply Ascii.eqb_eq in E. subst ch. now rewrite Hc.
  - simpl. intros H. destruct (is_quoting_char ch); auto.
Qed.

(** A quoted atom, written and read back, at any place of a text. *)
Lemma next_token_quoted s rest l c :
  exists l' c',
    next_token (mkTokenizer (str1 DQUOTE ++ _escape_string s ++ String DQUOTE rest) l c)
    = LexTok (mkToken STRING s l c) (mkTokenizer rest l' c').
Proof.
  destruct (_read_string_loop_escaped s rest l (S c) "") as [l' [c' H]].
  exists l', c'. unfold next_token, _skip_whitespace. cbn. unfold _read_string.
  cbn. rewrite H. reflexivity.
Qed.

(** C7. An atom that holds a double quote, a newline and a backslash is
    written quoted and escaped, and parsing the written text gives the same
    atom back. *)
Theorem escaped_atom_round_trip (s : string) :
  contains_char DQUOTE s = true ->
  contains_char NL s = true ->
  contains_char BSLASH s = true ->
  write_sexpr (Atom s) = str1 DQUOTE ++ _escape_string s ++ str1 DQUOTE ++ str1 NL
  /\ parse_sexpr (write_sexpr (Atom s)) = Some (Ok (Atom s)).
Proof.
  intros Hq _ _.
  assert (Hn : _needs_quoting s = true).
  { unfold _needs_quoting. destruct s; [reflexivity|].
    now apply (has_quoting_char_contains DQUOTE). }
  assert (Hw : write_sexpr (Atom s)
               = str1 DQUOTE ++ _escape_string s ++ str1 DQUOTE ++ str1 NL).
  { unfold write_sexpr, write. cbn [_write_expr]. unfold _format_atom.
    rewrite Hn. now rewrite !string_app_assoc. }
  split; [exact Hw|].
  rewrite Hw. unfold parse_sexpr, tokenize.
  destruct (next_token_quoted s (str1 NL) 1 1) as [l' [c' H]].
  unfold Tokenizer_init. cbn [str1 append] in H |- *.
  rewrite tokenize_from_eq, H, tokenize_from_eq. cbn. reflexivity.
Qed.

Lemma escaped_atom_round_trip_witness :
  parse_sexpr (write_sexpr (Atom (String "a" (String DQUOTE (String NL (String BSLASH "b"))))))
  = Some (Ok (Atom (String "a" (String DQUOTE (String NL (String BSLASH "b")))))).
Proof.
  apply (escaped_atom_round_trip
           (String "a" (String DQUOTE (String NL (String BSLASH "b")))));
    reflexivity.
Defined.


(** ** Pin type and shape *)

(** Every positional atom is taken as an electrical type, known or not: the
    last one decides the type and the shape is never assigned. *)
Lemma pin_type_scan_atoms atoms : forall rest et sh,
  match rest with Atom _ :: _ => False | _ => True end ->
  pin_type_scan (map Atom atoms ++ rest) et sh
  = (match atoms with
     | [] => et
     | _ => PinElectricalType.from_string (last_string atoms)
     end, sh).
Proof.
  induction atoms as [|a atoms IH]; intros rest et sh Hrest.
  - simpl. destruct rest as [|[s|l] rest]; [reflexivity | contradiction | reflexivity].
  - cbn [map app pin_type_scan]. rewrite IH by exact Hrest.
    destruct atoms; reflexivity.
Qed.

(** C2 (the code at the failing inputs). For the pin form with the positional
    atoms [passive] and [line], and for the one with [input] and [inverted],
    [_parse_pin] returns the electrical type UNSPECIFIED and the shape LINE. *)
Theorem parse_pin_positional_atoms :
  (exists p, _parse_pin (pin_form "passive" "line") = Returned p
             /\ pin_electrical_type p = PinElectricalType.UNSPECIFIED
             /\ pin_shape p = PinShape.LINE)
  /\ (exists p, _parse_pin (pin_form "input" "inverted") = Returned p
                /\ pin_electrical_type p = PinElectricalType.UNSPECIFIED
                /\ pin_shape p = PinShape.LINE)
  /\ PinElectricalType.from_string "passive" = PinElectricalType.PASSIVE
  /\ PinShape.from_string "inverted" = PinShape.INVERTED.
Proof.
  split; [|split; [|split; reflexivity]].
  - eexists. split; [vm_compute; reflexivity | split; reflexivity].
  - eexists. split; [vm_compute; reflexivity | split; reflexivity].
Qed.

(** ** Unit names *)

(** C6 (the code at the failing input). For the unit name [X_5_a] the decode
    returns, with unit index 5 and style index 1; for [X_a_5] and for a name
    with fewer than two underscores both indices are 1. *)
Theorem unit_indices_partial_assignment :
  unit_indices "X_5_a" = (5%Z, 1%Z)
  /\ (exists u, _parse_symbol_unit [Atom "symbol"; Atom "X_5_a"] = Returned u
                /\ unit_index u = 5%Z /\ style_index u = 1%Z)
  /\ unit_indices "X_a_5" = (1%Z, 1%Z)
  /\ unit_indices "X_a" = (1%Z, 1%Z)
  /\ unit_indices "Symbol_2_3" = (2%Z, 3%Z).
Proof.
  split; [reflexivity|]. split; [|repeat split].
  eexists. split; [vm_compute; reflexivity | split; reflexivity].
Qed.

(** ** Accessors of a symbol instance *)

Lemma first_property_value_none props name :
  (forall p, In p props -> prop_name p <> name) ->
  first_property_value props name = None.
Proof.
  induction props as [|q props IH]; intros H; simpl; [reflexivity|].
  destruct (String.eqb_spec (prop_name q) name) as [E|E].
  - exfalso. apply (H q); [now left | exact E].
  - apply IH. intros p Hp. apply H. now right.
Qed.

Lemma first_property_value_first pre p post name :
  (forall q, In q pre -> prop_name q <> name) ->
  prop_name p = name ->
  first_property_value (pre ++ p :: post) name = Some (prop_value p).
Proof.
  induction pre as [|q pre IH]; intros H E; simpl.
  - rewrite E, String.eqb_refl. reflexivity.
  - destruct (String.eqb_spec (prop_name q) name) as [E'|E'].
    + exfalso. apply (H q); [now left | exact E'].
    + apply IH; [|exact E]. intros r Hr. apply H. now right.
Qed.

(** C9. Without a property named Reference the accessor [reference] returns
    the question mark, [value] the empty string without a property named
    Value, and [footprint] [None] without a property named Footprint; with one
    or several properties of the name, each accessor returns the value of the
    first of them in the order of the list. *)
Theorem symbol_instance_accessors (s : SymbolInstance) :
  ((forall p, In p (si_properties s) -> prop_name p <> "Reference") ->
   reference s = "?")
  /\ ((forall p, In p (si_properties s) -> prop_name p <> "Value") ->
      value s = "")
  /\ ((forall p, In p (si_properties s) -> prop_name p <> "Footprint") ->
      footprint s = None)
  /\ (forall pre p post,
         si_properties s = (pre ++ p :: post)%list ->
         (forall q, In q pre -> prop_name q <> prop_name p) ->
         (prop_name p = "Reference" -> reference s = prop_value p)
         /\ (prop_name p = "Value" -> value s = prop_value p)
         /\ (prop_name p = "Footprint" -> footprint s = Some (prop_value p))).
Proof.
  unfold reference, value, footprint. repeat split.
  - intros H. now rewrite first_property_value_none.
  - intros H. now rewrite first_property_value_none.
  - intros H. now rewrite first_property_value_none.
  - intros E. rewrite H, (first_property_value_first pre p post);
      [reflexivity | now rewrite <- E | exact E].
  - intros E. rewrite H, (first_property_value_first pre p post);
      [reflexivity | now rewrite <- E | exact E].
  - intros E. rewrite H, (first_property_value_first pre p post);
      [reflexivity | now rewrite <- E | exact E].
Qed.

Lemma symbol_instance_accessors_witness :
  reference (sample_instance [sample_property "Value" "10k"]) = "?"
  /\ value (sample_instance [sample_property "Reference" "R1"]) = ""
  /\ footprint (sample_instance [sample_property "Reference" "R1"]) = None
  /\ reference (sample_instance [sample_property "Value" "10k";
                                 sample_property "Reference" "U1";
                                 sample_property "Reference" "U2"]) = "U1".
Proof.
  split; [|split; [|split]].
  - apply (proj1 (symbol_instance_accessors
                    (sample_instance [sample_property "Value" "10k"]))).
    intros p [<-|[]]. discriminate.
  - apply (proj1 (proj2 (symbol_instance_accessors
                           (sample_instance [sample_property "Reference" "R1"])))).
    intros p [<-|[]]. discriminate.
  - apply (proj1 (proj2 (proj2 (symbol_instance_accessors
                                  (sample_instance [sample_property "Reference" "R1"]))))).
    intros p [<-|[]]. discriminate.
  - apply (proj2 (proj2 (proj2 (symbol_instance_accessors
             (sample_instance [sample_property "Value" "10k";
                               sample_property "Reference" "U1";
                               sample_property "Reference" "U2"]))))
             [sample_property "Value" "10k"] (sample_property "Reference" "U1")
             [sample_property "Reference" "U2"]).
    + reflexivity.
    + intros q [<-|[]]. discriminate.
    + reflexivity.
Defined.

(** ** Updating a property of a symbol instance *)

Lemma with_property_loop_spec props prop : forall new_props found,
  with_property_loop props prop new_props found
  = ((new_props
      ++ map (fun q => if String.eqb (prop_name q) (prop_name prop) then prop else q)
           props)%list,
     found || existsb (fun q => String.eqb (prop_name q) (prop_name prop)) props).
Proof.
  induction props as [|q props IH]; intros new_props found; simpl.
  - now rewrite app_nil_r, orb_false_r.
  - destruct (String.eqb (prop_name q) (prop_name prop)); rewrite IH, <- app_assoc; simpl.
    + now rewrite orb_true_r.
    + reflexivity.
Qed.

(** C10. [with_property] returns an instance whose property list is the old
    one with every property of the name of [p] replaced by [p], in place, when
    there is one, and the old one with [p] appended when there is none; the
    other fields are those of the instance. *)
Theorem with_property_spec (s : SymbolInstance) (p : Property) :
  si_properties (with_property s p)
  = (if existsb (fun q => String.eqb (prop_name q) (prop_name p)) (si_properties s)
     then map (fun q => if String.eqb (prop_name q) (prop_name p) then p else q)
            (si_properties s)
     else si_properties s ++ [p])%list
  /\ si_lib_id (with_property s p) = si_lib_id s
  /\ si_position (with_property s p) = si_position s
  /\ si_unit (with_property s p) = si_unit s
  /\ si_mirror (with_property s p) = si_mirror s
  /\ si_pins (with_property s p) = si_pins s
  /\ si_uuid (with_property s p) = si_uuid s
  /\ si_in_bom (with_property s p) = si_in_bom s
  /\ si_on_board (with_property s p) = si_on_board s.
Proof.
  unfold with_property. rewrite with_property_loop_spec. simpl.
  destruct (existsb _ (si_properties s)) eqn:E; simpl; repeat split.
  rewrite map_ext_in with (g := fun q => q); [now rewrite map_id|].
  intros q Hq.
  destruct (String.eqb (prop_name q) (prop_name p)) eqn:Eq; [|reflexivity].
  exfalso. rewrite <- not_true_iff_false in E. apply E.
  apply existsb_exists. now exists q.
Qed.

(** ** Root validation and version defaults *)

Lemma has_root_false_cases tag t :
  has_root tag t = false ->
  match t with
  | SList (head :: _) => atom_is tag head = false
  | _ => True
  end.
Proof.
  destruct t as [s|[|[h|l] rest]]; simpl; auto.
Qed.

Lemma has_root_true_cases tag t :
  has_root tag t = true -> exists rest, t = SList (Atom tag :: rest).
Proof.
  destruct t as [s|[|[h|l] rest]]; simpl; try discriminate.
  intros H. apply String.eqb_eq in H. subst. eauto.
Qed.

Lemma or_string_absent (t : SExpr) key default :
  sexpr_get t key = None -> or_string (sexpr_get_value t key) default = default.
Proof. unfold sexpr_get_value. now intros ->. Qed.

(** The claim as stated: an error result names the head that was found.  The
    empty list has no head, and its error is a message of its own. *)
Lemma decode_error_names_head_counterexample :
  ~ (forall t e, decode_symbol_library t = Returned (Err e) ->
                 exists head, spe_message e
                              = "Expected kicad_symbol_lib, got " ++ py_str head).
Proof.
  intros H. destruct (H (SList []) _ eq_refl) as [head Hm].
  simpl in Hm. discriminate.
Qed.

(** A tree with the root tag on which the decoder raises: the [float] of a
    coordinate that is no number. *)
Lemma decode_symbol_library_raises :
  decode_symbol_library
    (SList [Atom "kicad_symbol_lib";
            SList [Atom "symbol"; Atom "R";
                   SList [Atom "property"; Atom "Reference"; Atom "R";
                          SList [Atom "at"; Atom "x"; Atom "y"]]]])
  = Raised ValueError.
Proof. vm_compute. reflexivity. Qed.

Lemma or_string_field (t : SExpr) key default :
  or_string (sexpr_get_value t key) default = field_or t key default.
Proof.
  unfold sexpr_get_value, sexpr_get, field_or.
  destruct t as [s|items]; [reflexivity|].
  destruct (find (head_is key) items) as [[s|[|h [|[[|c v]|l] more]]]|]; reflexivity.
Qed.

(** The loop over the children headed by [symbol] returns exactly when
    [_parse_symbol_def] returns on each of them. *)
Lemma fold_symbols_returns l : forall acc,
  (exists symbols,
      fold_outcome
        (fun symbols sym_expr =>
           s <- _parse_symbol_def (items_of sym_expr) ;;
           Returned (symbols ++ [s])%list) l acc = Returned symbols)
  <-> Forall (fun c => exists d, _parse_symbol_def (items_of c) = Returned d) l.
Proof.
  induction l as [|c l IH]; intros acc; cbn [fold_outcome].
  - split; [constructor | eauto].
  - destruct (_parse_symbol_def (items_of c)) as [d|e] eqn:E; cbn [bind].
    + rewrite IH. split.
      * intros H. constructor; [eauto | exact H].
      * intros H. now apply Forall_inv_tail in H.
    + split.
      * intros [symbols H]. discriminate H.
      * intros H. apply Forall_inv in H. destruct H as [d H].
        rewrite E in H. discriminate H.
Qed.

(** The loop over the children of a schematic returns when its body returns
    on each of them. *)
Lemma fold_elements_returns uuid4 l : forall els n,
  Forall (fun c => forall els m, exists els' m',
              schematic_step uuid4 els c m = Returned (els', m')) l ->
  exists els' n', fold_gen (schematic_step uuid4) l els n = Returned (els', n').
Proof.
  induction l as [|c l IH]; intros els n H; cbn [fold_gen].
  - unfold gret. eauto.
  - pose proof (Forall_inv H) as Hc. apply Forall_inv_tail in H.
    destruct (Hc els n) as [els1 [n1 E]]. unfold gbind. rewrite E.
    apply IH, H.
Qed.

Lemma _parse_uuid_returns uuid4 t n :
  exists u n1, _parse_uuid uuid4 t n = Returned (u, n1).
Proof.
  unfold _parse_uuid, generate, gret.
  destruct (sexpr_get_value t "uuid") as [[|c s]|]; eauto.
Qed.

(** C4 (amended). Each decoder returns an error result exactly for the trees
    that are not a non-empty list headed by the root tag: the message is
    "Empty or invalid symbol library" (or "schematic") for an atom or an empty
    list, and "Expected <tag>, got <head>" for a list with another head.  For
    a tree with the root tag the decoder returns no error result: the library
    decoder returns a library exactly when [_parse_symbol_def] returns on
    every child headed by [symbol], the schematic decoder returns a schematic
    when the title block, if there is one, and every child are decoded
    without raising, and the decoders raise otherwise.  The version of the
    document returned is the second element of the first child headed by
    [version] when that is a string that is not empty, and 20210201
    (libraries) or 20231120 (schematics) in every other case: no such child,
    a child without a value, with a list or with the empty string as value. *)
Theorem decode_root_and_version :
  (forall t,
      has_root "kicad_symbol_lib" t = false ->
      decode_symbol_library t
      = Returned (Err (SymbolParseError1
                         (root_error_message "kicad_symbol_lib" "symbol library" t))))
  /\ (forall t,
         has_root "kicad_symbol_lib" t = true ->
         (forall e, decode_symbol_library t <> Returned (Err e))
         /\ ((exists lib, decode_symbol_library t = Returned (Ok lib))
             <-> Forall (fun c => exists d, _parse_symbol_def (items_of c) = Returned d)
                   (sexpr_get_all t "symbol"))
         /\ (forall lib,
                decode_symbol_library t = Returned (Ok lib) ->
                lib_version lib = field_or t "version" "20210201"
                /\ (sexpr_get t "version" = None -> lib_version lib = "20210201")))
  /\ (forall uuid4 n t,
         has_root "kicad_sch" t = false ->
         decode_schematic uuid4 t n
         = Returned (Err (SchematicParseError1
                            (root_error_message "kicad_sch" "schematic" t)), n))
  /\ (forall uuid4 n t,
         has_root "kicad_sch" t = true ->
         (forall e n', decode_schematic uuid4 t n <> Returned (Err e, n'))
         /\ (match sexpr_get t "title_block" with
             | Some tb => exists b, _parse_title_block (items_of tb) = Returned b
             | None => True
             end ->
             Forall (fun c => forall els m, exists els' m',
                         schematic_step uuid4 els c m = Returned (els', m'))
               (items_of t) ->
             exists sch n', decode_schematic uuid4 t n = Returned (Ok sch, n'))
         /\ (forall sch n',
                decode_schematic uuid4 t n = Returned (Ok sch, n') ->
                sch_version sch = field_or t "version" "20231120"
                /\ (sexpr_get t "version" = None -> sch_version sch = "20231120"))).
Proof.
  split; [|split; [|split]].
  - intros t H. apply has_root_false_cases in H.
    destruct t as [s|[|head rest]]; try reflexivity.
    unfold decode_symbol_library. now rewrite H.
  - intros t H. destruct (has_root_true_cases _ _ H) as [rest ->].
    unfold decode_symbol_library. cbn [atom_is negb].
    rewrite String.eqb_refl. cbn [negb].
    pose proof (fold_symbols_returns
                  (sexpr_get_all (SList (Atom "kicad_symbol_lib" :: rest)) "symbol") [])
      as Hfold.
    match goal with
    | |- context [fold_outcome ?f ?l ?a] =>
        destruct (fold_outcome f l a) as [symbols|e] eqn:E
    end; cbn [bind].
    + split; [discriminate|]. split.
      * split; [intros _; apply Hfold; eauto | intros _; eauto].
      * intros lib Hlib. injection Hlib as <-. cbn [lib_version].
        split; [apply or_string_field | apply or_string_absent].
    + split; [discriminate|]. split.
      * split; [intros [lib Hlib]; discriminate Hlib|].
        intros Hall. apply Hfold in Hall. destruct Hall as [symbols Hs].
        discriminate Hs.
      * intros lib Hlib. discriminate Hlib.
  - intros uuid4 n t H. apply has_root_false_cases in H.
    destruct t as [s|[|head rest]]; try reflexivity.
    unfold decode_schematic. now rewrite H.
  - intros uuid4 n t H. destruct (has_root_true_cases _ _ H) as [rest ->].
    unfold decode_schematic. cbn [atom_is negb].
    rewrite String.eqb_refl. cbn [negb].
    destruct (_parse_uuid_returns uuid4 (SList (Atom "kicad_sch" :: rest)) n)
      as [u [n1 Hu]].
    unfold gbind. rewrite Hu.
    split; [|split].
    + intros e n'.
      match goal with
      | |- context [match ?m n1 with Returned _ => _ | Raised _ => _ end] =>
          destruct (m n1) as [[tb n2]|e1]
      end; [|discriminate].
      match goal with
      | |- context [fold_gen ?f ?l ?a n2] => destruct (fold_gen f l a n2) as [[els n3]|e1]
      end; discriminate.
    + intros Htb Hall. cbn [items_of] in Hall.
      assert (Ht : exists tb,
                 match sexpr_get (SList (Atom "kicad_sch" :: rest)) "title_block" with
                 | Some tb_expr => lift (_parse_title_block (items_of tb_expr))
                 | None => gret (mkTitleBlock "" "" "" "" "" "" "" "")
                 end n1 = Returned (tb, n1)).
      { destruct (sexpr_get (SList (Atom "kicad_sch" :: rest)) "title_block") as [tbe|].
        - destruct Htb as [b Hb]. exists b. unfold lift. now rewrite Hb.
        - eexists. reflexivity. }
      destruct Ht as [tb Ht]. rewrite Ht.
      destruct (fold_elements_returns uuid4 (Atom "kicad_sch" :: rest)
                  (mkElements [] [] [] [] [] [] [] [] [] []) n1 Hall)
        as [els [n2 Hels]].
      rewrite Hels. unfold gret. eauto.
    + intros sch n'.
      match goal with
      | |- context [match ?m n1 with Returned _ => _ | Raised _ => _ end] =>
          destruct (m n1) as [[tb n2]|e1]
      end; [|discriminate].
      match goal with
      | |- context [fold_gen ?f ?l ?a n2] => destruct (fold_gen f l a n2) as [[els n3]|e1]
      end; [|discriminate].
      unfold gret. intros Hsch. injection Hsch as <- _. cbn [sch_version].
      split; [apply or_string_field | apply or_string_absent].
Qed.

Lemma decode_root_and_version_witness :
  decode_symbol_library (SList [Atom "kicad_sch"])
  = Returned (Err (SymbolParseError1 "Expected kicad_symbol_lib, got kicad_sch"))
  /\ (exists lib,
         decode_symbol_library
           (SList [Atom "kicad_symbol_lib";
                   SList [Atom "version"; Atom "20220914"];
                   SList [Atom "symbol"; Atom "R";
                          SList [Atom "property"; Atom "Reference"; Atom "R";
                                 SList [Atom "at"; Atom "0"; Atom "1.27"]]]])
         = Returned (Ok lib)
         /\ lib_version lib = "20220914")
  /\ decode_schematic (fun _ => "0000") (Atom "kicad_sch") 0
     = Returned (Err (SchematicParseError1 "Empty or invalid schematic"), 0)
  /\ (exists sch n',
         decode_schematic (fun _ => "0000")
           (SList [Atom "kicad_sch";
                   SList [Atom "version"; Atom ""];
                   SList [Atom "title_block"; SList [Atom "title"; Atom "T"];
                          SList [Atom "comment"; Atom "1"; Atom "text"]];
                   SList [Atom "wire";
                          SList [Atom "pts";
                                 SList [Atom "xy"; Atom "0"; Atom "0"];
                                 SList [Atom "xy"; Atom "2.54"; Atom "0"]]]]) 0
         = Returned (Ok sch, n')
         /\ sch_version sch = "20231120").
Proof.
  destruct decode_root_and_version as [H1 [H2 [H3 H4]]].
  split; [apply (H1 (SList [Atom "kicad_sch"])); reflexivity|].
  split.
  { match goal with
    | |- exists lib, decode_symbol_library ?t = _ /\ _ =>
        destruct (H2 t eq_refl) as [_ [Hiff Hver]]
    end.
    destruct (proj2 Hiff) as [lib Hlib].
    { repeat constructor. eexists. vm_compute. reflexivity. }
    exists lib. split; [exact Hlib|].
    rewrite (proj1 (Hver lib Hlib)). reflexivity. }
  split; [apply (H3 (fun _ => "0000") 0 (Atom "kicad_sch")); reflexivity|].
  match goal with
  | |- exists sch n', decode_schematic ?u ?t ?n = _ /\ _ =>
      destruct (H4 u n t eq_refl) as [_ [Hret Hver]]
  end.
  destruct Hret as [sch [n' Hsch]].
  { eexists. vm_compute. reflexivity. }
  { repeat (apply Forall_cons || apply Forall_nil);
      intros els m; do 2 eexists; cbv; reflexivity. }
  exists sch, n'. split; [exact Hsch|].
  rewrite (proj1 (Hver sch n' Hsch)). reflexivity.
Defined.


(** ** Written trees are read back: the scanner *)

Lemma SExpr_nested_ind (P : SExpr -> Prop) :
  (forall s, P (Atom s)) ->
  (forall items, Forall P items -> P (SList items)) ->
  forall t, P t.
Proof.
  intros Ha Hl. fix IH 1. intros [s|items]; [apply Ha|].
  apply Hl. induction items as [|x items IHl]; constructor; [apply IH | exact IHl].
Qed.

Lemma lexes_trans st1 t1 st2 t2 st3 :
  lexes st1 t1 st2 -> lexes st2 t2 st3 -> lexes st1 (t1 ++ t2) st3.
Proof.
  induction 1 as [st|st t sta toks stb E _ IH]; intros H2; simpl; [exact H2|].
  econstructor; [exact E | now apply IH].
Qed.

Lemma lexes_to_nil rest : lexes_to "" [] rest.
Proof. intros l c. exists [], (mkTokenizer rest l c). repeat split. constructor. Qed.

Lemma lexes_to_app a ta b tb rest :
  lexes_to a ta (b ++ rest) -> lexes_to b tb rest ->
  lexes_to (a ++ b) (ta ++ tb) rest.
Proof.
  intros Ha Hb l c.
  destruct (Ha l c) as [ts1 [[r1 l1 c1] [H1 [S1 R1]]]]. simpl in R1. subst r1.
  destruct (Hb l1 c1) as [ts2 [st2 [H2 [S2 R2]]]].
  exists (ts1 ++ ts2)%list, st2. rewrite string_app_assoc.
  split; [eapply lexes_trans; eauto|]. split; [|exact R2].
  now rewrite map_app, S1, S2.
Qed.

Lemma _skip_whitespace_from_blank ws : forall s l c,
  blank ws = true ->
  exists l' c', _skip_whitespace_from (ws ++ s) l c = _skip_whitespace_from s l' c'.
Proof.
  induction ws as [|ch ws IH]; intros s l c H; simpl in H.
  - do 2 eexists. reflexivity.
  - apply andb_prop in H. destruct H as [H1 H2].
    cbn [append]. rewrite _skip_whitespace_from_eq, H1. apply IH. exact H2.
Qed.

Lemma _skip_whitespace_from_token ch r l c :
  is_space ch = false -> Ascii.eqb ch SEMI = false ->
  _skip_whitespace_from (String ch r) l c = mkTokenizer (String ch r) l c.
Proof. intros H1 H2. now rewrite _skip_whitespace_from_eq, H1, H2. Qed.

(** Blanks before a token belong to it. *)
Lemma next_token_blank ws s l c :
  blank ws = true ->
  exists l' c',
    next_token (mkTokenizer (ws ++ s) l c) = next_token (mkTokenizer s l' c').
Proof.
  intros H. destruct (_skip_whitespace_from_blank ws s l c H) as [l' [c' E]].
  exists l', c'. unfold next_token, _skip_whitespace. cbn [t_rest t_line t_col].
  now rewrite E.
Qed.

Lemma lexes_to_blank ws text toks rest :
  blank ws = true ->
  (forall l c, exists t st',
      next_token (mkTokenizer (text ++ rest) l c) = LexTok t st'
      /\ [shape t] = toks /\ t_rest st' = rest) ->
  lexes_to (ws ++ text) toks rest.
Proof.
  intros Hws H l c. rewrite string_app_assoc.
  destruct (next_token_blank ws (text ++ rest) l c Hws) as [l' [c' E]].
  destruct (H l' c') as [t [st' [Ht [Hs Hr]]]].
  exists [t], st'. split; [|now split].
  econstructor; [|constructor]. now rewrite E.
Qed.

Lemma is_atom_end_quoting ch : is_atom_end ch = is_quoting_char ch.
Proof.
  unfold is_atom_end, is_quoting_char, is_space.
  destruct (Ascii.eqb ch SPACE), (Ascii.eqb ch TAB), (Ascii.eqb ch NL),
    (Ascii.eqb ch CR), (Ascii.eqb ch DQUOTE), (Ascii.eqb ch LPAR),
    (Ascii.eqb ch RPAR); reflexivity.
Qed.

Lemma _read_atom_loop_bare s : forall rest l c chars,
  has_quoting_char s = false -> delimited rest = true ->
  exists l' c',
    _read_atom_loop (s ++ rest) l c chars = (chars ++ s, mkTokenizer rest l' c').
Proof.
  induction s as [|ch s IH]; intros rest l c chars Hs Hr.
  - rewrite string_app_nil_r. exists l, c. simpl.
    destruct rest as [|d rest]; [reflexivity|]. simpl in Hr |- *. now rewrite Hr.
  - simpl in Hs. destruct (is_quoting_char ch) eqn:Eq; [discriminate|].
    cbn [append _read_atom_loop]. rewrite is_atom_end_quoting, Eq.
    destruct (_advance ch l c) as [l1 c1].
    destruct (IH rest l1 c1 (chars ++ str1 ch) Hs Hr) as [l' [c' H]].
    exists l', c'. rewrite H. now rewrite string_app_assoc.
Qed.

Lemma next_token_paren_open rest l c :
  exists st', next_token (mkTokenizer (String LPAR rest) l c)
              = LexTok (mkToken LPAREN "(" l c) st' /\ t_rest st' = rest.
Proof. eexists. split; reflexivity. Qed.

Lemma next_token_paren_close rest l c :
  exists st', next_token (mkTokenizer (String RPAR rest) l c)
              = LexTok (mkToken RPAREN ")" l c) st' /\ t_rest st' = rest.
Proof. eexists. split; reflexivity. Qed.

Lemma is_quoting_char_false ch :
  is_quoting_char ch = false ->
  is_space ch = false /\ Ascii.eqb ch LPAR = false /\ Ascii.eqb ch RPAR = false
  /\ Ascii.eqb ch DQUOTE = false.
Proof.
  unfold is_quoting_char, is_space.
  destruct (Ascii.eqb ch SPACE), (Ascii.eqb ch TAB), (Ascii.eqb ch NL),
    (Ascii.eqb ch CR), (Ascii.eqb ch DQUOTE), (Ascii.eqb ch LPAR),
    (Ascii.eqb ch RPAR); simpl; intros H; try discriminate; auto.
Qed.

(** A written atom is one token. *)
Lemma next_token_atom s rest l c :
  atom_ok s = true -> delimited rest = true ->
  exists t st',
    next_token (mkTokenizer (_format_atom s ++ rest) l c) = LexTok t st'
    /\ [shape t] = flatten (Atom s) /\ t_rest st' = rest.
Proof.
  intros Hok Hr. unfold _format_atom, flatten, token_kind.
  destruct (_needs_quoting s) eqn:En.
  - destruct (next_token_quoted s rest l c) as [l' [c' H]].
    do 2 eexists. rewrite !string_app_assoc. cbn [str1 append] in H |- *.
    rewrite H. repeat split.
  - unfold atom_ok in Hok. rewrite En in Hok. cbn [orb] in Hok.
    destruct s as [|ch s]; [discriminate|].
    unfold _needs_quoting in En. pose proof En as En'.
    simpl in En'. destruct (is_quoting_char ch) eqn:Eq; [discriminate|].
    destruct (is_quoting_char_false _ Eq) as [Hsp [Hlp [Hrp Hdq]]].
    simpl in Hok. apply negb_true_iff in Hok.
    destruct (_read_atom_loop_bare (String ch s) rest l c "" En Hr) as [l' [c' H]].
    unfold next_token, _skip_whitespace. cbn [t_rest t_line t_col append].
    rewrite _skip_whitespace_from_token by assumption.
    cbn [t_rest t_line t_col]. rewrite Hlp, Hrp, Hdq.
    unfold _read_atom. cbn [t_rest t_line t_col].
    cbn [append] in H. rewrite H.
    do 2 eexists. repeat split.
Qed.

Lemma lexes_to_atom ws s rest :
  blank ws = true -> atom_ok s = true -> delimited rest = true ->
  lexes_to (ws ++ _format_atom s) (flatten (Atom s)) rest.
Proof.
  intros Hws Hok Hr. apply lexes_to_blank; [exact Hws|].
  intros l c. now apply next_token_atom.
Qed.

Lemma lexes_to_open ws rest :
  blank ws = true -> lexes_to (ws ++ "(") [(LPAREN, "(")] rest.
Proof.
  intros Hws. apply lexes_to_blank; [exact Hws|]. intros l c.
  destruct (next_token_paren_open rest l c) as [st' [H R]].
  do 2 eexists. split; [exact H|]. split; [reflexivity | exact R].
Qed.

Lemma lexes_to_close ws rest :
  blank ws = true -> lexes_to (ws ++ ")") [(RPAREN, ")")] rest.
Proof.
  intros Hws. apply lexes_to_blank; [exact Hws|]. intros l c.
  destruct (next_token_paren_close rest l c) as [st' [H R]].
  do 2 eexists. split; [exact H|]. split; [reflexivity | exact R].
Qed.

(** A run of items, each written after a separator that is blank. *)
Lemma lexes_to_items (g : SExpr -> string) items :
  Forall (fun item => forall rest, delimited rest = true ->
                                   lexes_to (g item) (flatten item) rest) items ->
  (forall item rest, delimited (g item ++ rest) = true) ->
  forall rest, delimited rest = true ->
    lexes_to (concat_strings (map g items)) (List.concat (map flatten items)) rest.
Proof.
  intros HF Hg rest Hr. induction HF as [|x xs Hx _ IH]; simpl.
  - apply lexes_to_nil.
  - apply lexes_to_app; [|exact IH]. apply Hx.
    destruct xs as [|y ys]; simpl; [exact Hr | rewrite string_app_assoc; apply Hg].
Qed.

Lemma join_cons sep x xs :
  join sep (x :: xs) = x ++ concat_strings (map (append sep) xs).
Proof.
  revert x. induction xs as [|y ys IH]; intros x; simpl.
  - now rewrite string_app_nil_r.
  - f_equal. rewrite string_app_assoc. f_equal. apply IH.
Qed.

Lemma string_concat_empty l : String.concat "" l = concat_strings l.
Proof.
  induction l as [|x [|y l] IH]; simpl in *; try reflexivity.
  - now rewrite string_app_nil_r.
  - now rewrite IH.
Qed.

Lemma delimited_blank_app ws rest :
  blank ws = true -> ws <> "" -> delimited (ws ++ rest) = true.
Proof.
  destruct ws as [|ch ws]; [congruence|]. simpl. intros H _.
  apply andb_prop in H. unfold is_atom_end. now rewrite (proj1 H).
Qed.

Lemma blank_app a b : blank a = true -> blank b = true -> blank (a ++ b) = true.
Proof.
  induction a as [|ch a IH]; simpl; intros Ha Hb; [exact Hb|].
  apply andb_prop in Ha. rewrite (proj1 Ha). simpl. now apply IH.
Qed.

Lemma blank_repeat s n : blank s = true -> blank (repeat_string s n) = true.
Proof.
  intros H. induction n as [|n IH]; simpl; [reflexivity | now apply blank_app].
Qed.

(** The tokens of a tree written on one line. *)
Lemma lexes_to_write_inline t :
  tree_ok t = true ->
  forall ws rest, blank ws = true -> delimited rest = true ->
    lexes_to (ws ++ _write_inline t) (flatten t) rest.
Proof.
  induction t as [s|items IH] using SExpr_nested_ind; intros Hok ws rest Hws Hr.
  - now apply lexes_to_atom.
  - cbn [_write_inline flatten]. cbn [tree_ok] in Hok.
    rewrite <- !string_app_assoc.
    change ((LPAREN, "(") :: List.concat (map flatten items))
      with ([(LPAREN, "(")] ++ List.concat (map flatten items))%list.
    apply lexes_to_app; [|apply (lexes_to_close ""); reflexivity].
    apply lexes_to_app; [now apply lexes_to_open|].
    destruct items as [|x xs]; [apply lexes_to_nil|].
    rewrite map_cons, join_cons. cbn [map List.concat].
    inversion IH as [|? ? Hx Hxs]; subst.
    cbn [forallb] in Hok. apply andb_prop in Hok. destruct Hok as [Hokx Hokxs].
    apply lexes_to_app.
    + apply (Hx Hokx ""); [reflexivity|].
      destruct xs; simpl; reflexivity.
    + rewrite map_map.
      apply (lexes_to_items (fun y => " " ++ _write_inline y)).
      * rewrite Forall_forall in Hxs |- *. intros y Hy rest' Hr'.
        rewrite forallb_forall in Hokxs.
        apply (Hxs y Hy (Hokxs y Hy) " "); [reflexivity | exact Hr'].
      * reflexivity.
      * reflexivity.
Qed.

(** The tokens of a tree written by [_write_expr], on one line or on
    several. *)
Lemma lexes_to_write_expr w :
  blank (_indent w) = true ->
  forall t, tree_ok t = true ->
  forall depth ws rest, blank ws = true -> delimited rest = true ->
    lexes_to (ws ++ _write_expr w t depth) (flatten t) rest.
Proof.
  intros Hind.
  induction t as [s|items IH] using SExpr_nested_ind;
    intros Hok depth ws rest Hws Hr.
  - now apply lexes_to_atom.
  - destruct items as [|x xs].
    { cbn [_write_expr flatten map List.concat app].
      change "()" with ("(" ++ ")"). rewrite <- string_app_assoc.
      change [(LPAREN, "("); (RPAREN, ")")]
        with ([(LPAREN, "(")] ++ [(RPAREN, ")")])%list.
      apply lexes_to_app; [now apply lexes_to_open|].
      apply (lexes_to_close ""); reflexivity. }
    cbn [_write_expr].
    destruct (_should_inline w (SList (x :: xs)) depth).
    { now apply lexes_to_write_inline. }
    cbn [flatten]. cbn [tree_ok forallb] in Hok.
    apply andb_prop in Hok. destruct Hok as [Hokx Hokxs].
    inversion IH as [|? ? Hx Hxs]; subst.
    rewrite string_concat_empty.
    set (sep := str1 NL ++ repeat_string (_indent w) (depth + 1)).
    set (close := str1 NL ++ repeat_string (_indent w) depth).
    assert (Hsep : blank sep = true).
    { apply blank_app; [reflexivity | now apply blank_repeat]. }
    assert (Hclose : blank close = true).
    { apply blank_app; [reflexivity | now apply blank_repeat]. }
    assert (Hm : map (fun item => str1 NL ++ repeat_string (_indent w) (depth + 1)
                                  ++ _write_expr w item (depth + 1)) xs
                 = map (fun item => sep ++ _write_expr w item (depth + 1)) xs).
    { apply map_ext. intros a. unfold sep. now rewrite string_app_assoc. }
    rewrite Hm.
    assert (Hshape :
      ws ++ "(" ++ _write_expr w x depth
      ++ concat_strings (map (fun item => sep ++ _write_expr w item (depth + 1)) xs)
      ++ str1 NL ++ repeat_string (_indent w) depth ++ ")"
      = ((ws ++ "(")
         ++ (_write_expr w x depth
             ++ concat_strings
                  (map (fun item => sep ++ _write_expr w item (depth + 1)) xs)))
        ++ (close ++ ")")).
    { unfold close. now rewrite !string_app_assoc. }
    rewrite Hshape.
    change ((LPAREN, "(") :: List.concat (map flatten (x :: xs)))
      with ([(LPAREN, "(")] ++ List.concat (map flatten (x :: xs)))%list.
    apply lexes_to_app; [|now apply lexes_to_close].
    apply lexes_to_app; [now apply lexes_to_open|].
    cbn [map List.concat].
    assert (Hd : forall r, delimited (close ++ r) = true).
    { intros r. apply delimited_blank_app; [exact Hclose | discriminate]. }
    assert (Hds : forall r, delimited (sep ++ r) = true).
    { intros r. apply delimited_blank_app; [exact Hsep | discriminate]. }
    apply lexes_to_app.
    + apply (Hx Hokx depth ""); [reflexivity|].
      rewrite (string_app_assoc close).
      destruct xs as [|y ys]; cbn [map concat_strings fold_right].
      * change ("" ++ close ++ ")" ++ rest) with (close ++ ")" ++ rest). apply Hd.
      * rewrite !string_app_assoc. apply Hds.
    + apply (lexes_to_items (fun y => sep ++ _write_expr w y (depth + 1))).
      * rewrite Forall_forall in Hxs |- *. intros y Hy rest' Hr'.
        rewrite forallb_forall in Hokxs.
        apply (Hxs y Hy (Hokxs y Hy)); [exact Hsep | exact Hr'].
      * intros item r. rewrite string_app_assoc. apply Hds.
      * rewrite string_app_assoc. apply Hd.
Qed.

(** ** Written trees are read back: the parser *)

Lemma flatten_head t :
  exists k v more, flatten t = (k, v) :: more /\ k <> RPAREN.
Proof.
  destruct t as [s|items]; simpl.
  - do 3 eexists. split; [reflexivity|].
    unfold token_kind. destruct (_needs_quoting s); discriminate.
  - do 3 eexists. split; [reflexivity | discriminate].
Qed.

Lemma parse_flatten t :
  exists f, forall fuel, f <= fuel ->
    forall toks rest, map shape toks = flatten t ->
      _parse_expr fuel (toks ++ rest) = Some (Ok (t, rest)).
Proof.
  induction t as [s|items IH] using SExpr_nested_ind.
  - exists 1. intros [|fuel] Hf toks rest Hs; [lia|].
    destruct toks as [|tk [|tk' toks]]; try discriminate.
    injection Hs as Hk Hv.
    simpl. rewrite Hk, Hv. unfold token_kind.
    destruct (_needs_quoting s); reflexivity.
  - assert (Hl : exists f, forall fuel, f <= fuel ->
              forall toks start acc rp rest,
                map shape toks = List.concat (map flatten items) ->
                tok_type rp = RPAREN ->
                _parse_list fuel start acc (toks ++ rp :: rest)
                = Some (Ok ((acc ++ items)%list, rest))).
    { induction IH as [|x xs Hx _ IHxs].
      - exists 1. intros [|fuel] Hf toks start acc rp rest Hs Hrp; [lia|].
        destruct toks; [|discriminate]. simpl. rewrite Hrp.
        now rewrite app_nil_r.
      - destruct Hx as [f1 Hx]. destruct IHxs as [f2 Hxs].
        exists (S (Nat.max f1 f2)).
        intros [|fuel] Hf toks start acc rp rest Hs Hrp; [lia|].
        cbn [map List.concat] in Hs.
        apply map_eq_app in Hs. destruct Hs as [tx [txs [-> [Hsx Hsxs]]]].
        destruct (flatten_head x) as [k [v [more [Hfx Hk]]]].
        destruct tx as [|t0 tx]; [rewrite Hfx in Hsx; discriminate|].
        assert (Ht0 : tok_type t0 <> RPAREN).
        { rewrite Hfx in Hsx. injection Hsx as Hsh _ _.
          now rewrite Hsh. }
        rewrite <- app_assoc.
        assert (Hstep : _parse_list (S fuel) start acc
                          ((t0 :: tx) ++ txs ++ rp :: rest)%list
                        = match _parse_expr fuel ((t0 :: tx) ++ txs ++ rp :: rest)%list with
                          | Some (Ok (item, rest')) =>
                              _parse_list fuel start (acc ++ [item])%list rest'
                          | Some (Err e) => Some (Err e)
                          | None => None
                          end).
        { cbn [_parse_list app]. destruct (tok_type t0); try reflexivity.
          contradiction. }
        rewrite Hstep, (Hx fuel ltac:(lia) (t0 :: tx) (txs ++ rp :: rest)%list Hsx).
        rewrite (Hxs fuel ltac:(lia) txs start (acc ++ [x])%list rp rest Hsxs Hrp).
        now rewrite <- app_assoc. }
    destruct Hl as [f Hl]. exists (S f).
    intros [|fuel] Hf toks rest Hs; [lia|].
    cbn [flatten] in Hs.
    destruct toks as [|lp toks]; [discriminate|].
    cbn [map app] in Hs. injection Hs as Hlp _ Hs.
    apply map_eq_app in Hs. destruct Hs as [mid [last [-> [Hmid Hlast]]]].
    destruct last as [|rp [|? ?]]; try discriminate.
    injection Hlast as Hrp _.
    cbn [app _parse_expr]. rewrite Hlp, <- app_assoc. cbn [app].
    now rewrite (Hl fuel ltac:(lia) mid lp [] rp rest Hmid Hrp).
Qed.

(** Parsing the text written for a tree gives the tree back, when every bare
    atom of the tree does not begin with a semicolon. *)
Theorem write_parse_round_trip t :
  tree_ok t = true -> parse_sexpr (write_sexpr t) = Some (Ok t).
Proof.
  intros Hok. unfold write_sexpr, write.
  pose proof (lexes_to_write_expr (SExprWriter_init "  ") eq_refl t Hok 0 ""
                (str1 NL) eq_refl eq_refl 1 1) as [ts [st' [Hrun [Hs Hr]]]].
  cbn [append] in Hrun.
  unfold parse_sexpr, tokenize, Tokenizer_init.
  rewrite (lexes_tokenize_from _ _ _ Hrun), tokenize_from_eq.
  assert (E : next_token st' = LexEnd).
  { unfold next_token, _skip_whitespace. rewrite Hr. reflexivity. }
  rewrite E. cbn [app].
  destruct (parse_flatten t) as [f Hf].
  pose proof (Hf (Nat.max f (parser_fuel ts)) (Nat.le_max_l _ _) ts [] Hs) as Hp.
  rewrite app_nil_r in Hp.
  unfold parse.
  destruct (_parse_expr_total ts) as [r Hr'].
  pose proof (proj1 (parse_fuel_mono _) _ _ _ Hr' (Nat.le_max_r f (parser_fuel ts))) as Hm.
  rewrite Hp in Hm. injection Hm as <-. now rewrite Hr'.
Qed.


(** ** [int(str(n))] is [n] *)

Lemma scan_int_digits_acc d : forall prev p n,
  Ascii.eqb prev UNDERSCORE = false ->
  scan_int_digits (DecimalString.NilEmpty.string_of_uint d) prev (Z.pos p) n
  = Some (Z.pos (Pos.of_uint_acc d p), n + Decimal.nb_digits d, "").
Proof.
  induction d; intros prev p n Hp;
    cbn [DecimalString.NilEmpty.string_of_uint Decimal.nb_digits Pos.of_uint_acc];
    try (cbn [scan_int_digits]; rewrite Hp, Nat.add_0_r; reflexivity);
    rewrite Nat.add_succ_r;
    match goal with
    | |- scan_int_digits (String ?ch ?r) _ ?a _ = _ =>
        change (scan_int_digits (String ch r) prev a n)
          with (scan_int_digits r ch (10 * a + digit_value ch)%Z (S n))
    end;
    match goal with
    | |- scan_int_digits _ _ ?a _ = Some (Z.pos (Pos.of_uint_acc _ ?q), _, _) =>
        replace a with (Z.pos q)
          by (match goal with
              | |- context [digit_value ?c] =>
                  let v := eval vm_compute in (digit_value c) in
                  change (digit_value c) with v
              end; lia)
    end;
    apply IHd; reflexivity.
Qed.

Lemma scan_int_digits_uint d : forall prev n,
  Ascii.eqb prev UNDERSCORE = false ->
  scan_int_digits (DecimalString.NilEmpty.string_of_uint d) prev 0%Z n
  = Some (Z.of_N (Pos.of_uint d), n + Decimal.nb_digits d, "").
Proof.
  induction d; intros prev n Hp;
    cbn [DecimalString.NilEmpty.string_of_uint Decimal.nb_digits Pos.of_uint];
    try (cbn [scan_int_digits]; rewrite Hp, Nat.add_0_r; reflexivity);
    rewrite Nat.add_succ_r;
    match goal with
    | |- scan_int_digits (String ?ch ?r) _ ?a _ = _ =>
        change (scan_int_digits (String ch r) prev a n)
          with (scan_int_digits r ch (10 * a + digit_value ch)%Z (S n))
    end.
  - change (10 * 0 + digit_value "0")%Z with 0%Z. apply IHd. reflexivity.
  - change (10 * 0 + digit_value "1")%Z with 1%Z. now apply scan_int_digits_acc.
  - change (10 * 0 + digit_value "2")%Z with 2%Z. now apply scan_int_digits_acc.
  - change (10 * 0 + digit_value "3")%Z with 3%Z. now apply scan_int_digits_acc.
  - change (10 * 0 + digit_value "4")%Z with 4%Z. now apply scan_int_digits_acc.
  - change (10 * 0 + digit_value "5")%Z with 5%Z. now apply scan_int_digits_acc.
  - change (10 * 0 + digit_value "6")%Z with 6%Z. now apply scan_int_digits_acc.
  - change (10 * 0 + digit_value "7")%Z with 7%Z. now apply scan_int_digits_acc.
  - change (10 * 0 + digit_value "8")%Z with 8%Z. now apply scan_int_digits_acc.
  - change (10 * 0 + digit_value "9")%Z with 9%Z. now apply scan_int_digits_acc.
Qed.

(** The first character of a printed natural number is a digit. *)
Lemma string_of_uint_head d :
  d <> Decimal.Nil ->
  exists ch r,
    DecimalString.NilEmpty.string_of_uint d = String ch r /\ is_digit ch = true.
Proof.
  destruct d; [congruence | ..]; intros _; cbn [DecimalString.NilEmpty.string_of_uint];
    eexists; eexists; split; reflexivity.
Qed.

Lemma is_digit_plain ch :
  is_digit ch = true ->
  py_isspace ch = false /\ Ascii.eqb ch "+" = false /\ Ascii.eqb ch "-" = false
  /\ Ascii.eqb ch UNDERSCORE = false /\ Ascii.eqb ch SEMI = false
  /\ is_quoting_char ch = false.
Proof.
  unfold is_digit, py_isspace. intros H.
  apply andb_prop in H. destruct H as [H1 H2].
  apply Nat.leb_le in H1. apply Nat.leb_le in H2.
  assert (Hne : forall c, nat_of_ascii c < 48 \/ 57 < nat_of_ascii c ->
                          Ascii.eqb ch c = false).
  { intros c Hc. apply Ascii.eqb_neq. intros ->. lia. }
  repeat split; try (apply Hne; cbn; lia).
  - repeat (apply orb_false_intro);
      try (apply andb_false_iff; right; apply Nat.leb_gt; lia);
      apply Nat.eqb_neq; lia.
  - unfold is_quoting_char.
    repeat (apply orb_false_intro); apply Hne; cbn; lia.
Qed.

Lemma py_int_digits d :
  d <> Decimal.Nil ->
  py_int (DecimalString.NilEmpty.string_of_uint d) = Some (Z.of_N (Pos.of_uint d))
  /\ py_int (String "-" (DecimalString.NilEmpty.string_of_uint d))
     = Some (- Z.of_N (Pos.of_uint d))%Z.
Proof.
  intros Hd.
  assert (Hscan := scan_int_digits_uint d "000"%char 0 eq_refl).
  destruct (string_of_uint_head d Hd) as (ch & r & Hs & Hch).
  destruct (is_digit_plain ch Hch) as (Hsp & Hplus & Hminus & Hund & _).
  assert (Hn : exists k, 0 + Decimal.nb_digits d = S k).
  { destruct d; [congruence | ..]; eexists; reflexivity. }
  destruct Hn as [k Hk]. rewrite Hk in Hscan.
  rewrite Hs in *.
  split.
  - unfold py_int. cbn [lstrip_space]. rewrite Hsp.
    assert (Hsign : split_sign (String ch r) = (false, String ch r)).
    { unfold split_sign.
      destruct ch as [[] [] [] [] [] [] [] []]; try reflexivity; discriminate. }
    rewrite Hsign.
    destruct ch as [[] [] [] [] [] [] [] []]; try discriminate Hch;
      rewrite Hscan; reflexivity.
  - unfold py_int. cbn [lstrip_space]. change (py_isspace "-") with false.
    cbv iota. change (split_sign (String "-" (String ch r))) with (true, String ch r).
    destruct ch as [[] [] [] [] [] [] [] []]; try discriminate Hch;
      rewrite Hscan; reflexivity.
Qed.

Lemma py_int_str_int z : py_int (py_str_int z) = Some z.
Proof.
  unfold py_str_int. destruct z as [|p|p]; [reflexivity | ..];
    cbn [Z.to_int DecimalString.NilZero.string_of_int];
    pose proof (DecimalPos.Unsigned.to_uint_nonnil p) as Hd;
    pose proof (DecimalPos.Unsigned.of_to p) as Hp;
    destruct (py_int_digits _ Hd) as [H1 H2];
    unfold DecimalString.NilZero.string_of_uint;
    destruct (Pos.to_uint p) eqn:E; try congruence;
    first [rewrite H1 | rewrite H2]; rewrite Hp; reflexivity.
Qed.

(** ** Printed numbers hold no semicolon *)

Lemma contains_char_app c a b :
  contains_char c (a ++ b) = contains_char c a || contains_char c b.
Proof.
  induction a as [|ch a IH]; [reflexivity|].
  cbn [append contains_char]. now rewrite IH, orb_assoc.
Qed.

Lemma contains_char_rstrip_if c p s :
  contains_char c s = false -> contains_char c (rstrip_if p s) = false.
Proof.
  induction s as [|ch r IH]; [reflexivity|].
  cbn [contains_char rstrip_if]. intros H.
  apply orb_false_elim in H. destruct H as [Hch Hr]. specialize (IH Hr).
  destruct (rstrip_if p r) as [|ch' r'].
  - destruct (p ch); [reflexivity|]. cbn. now rewrite Hch.
  - cbn [contains_char] in *. now rewrite Hch, IH.
Qed.

Lemma contains_char_uint d :
  contains_char SEMI (DecimalString.NilEmpty.string_of_uint d) = false.
Proof. induction d; cbn; assumption || reflexivity. Qed.

Lemma contains_char_str_int z : contains_char SEMI (py_str_int z) = false.
Proof.
  unfold py_str_int. destruct z as [|p|p]; [reflexivity | ..];
    cbn [Z.to_int DecimalString.NilZero.string_of_int];
    unfold DecimalString.NilZero.string_of_uint;
    pose proof (contains_char_uint (Pos.to_uint p)) as H;
    destruct (Pos.to_uint p); try reflexivity; cbn [contains_char];
    rewrite H; reflexivity.
Qed.

Lemma contains_char_zeros n : contains_char SEMI (repeat_string "0" n) = false.
Proof. induction n as [|n IH]; [reflexivity|]. cbn. exact IH. Qed.

Lemma contains_char_format_6f x : contains_char SEMI (format_6f x) = false.
Proof.
  unfold format_6f. destruct (Prim2SF x) as [s|s| |s m e].
  - destruct s; reflexivity.
  - destruct s; reflexivity.
  - reflexivity.
  - unfold pad6. rewrite !contains_char_app, !contains_char_str_int,
      contains_char_zeros. destruct s; reflexivity.
Qed.

Lemma contains_char_format_number x :
  contains_char SEMI (format_number x) = false.
Proof.
  unfold format_number.
  match goal with
  | |- contains_char _ (if String.eqb ?f _ then _ else _) = _ =>
      assert (H : contains_char SEMI f = false); [|destruct (String.eqb f "-0")]
  end.
  - destruct (contains_char "." (format_6f x)).
    + do 2 apply contains_char_rstrip_if. apply contains_char_format_6f.
    + apply contains_char_format_6f.
  - reflexivity.
  - exact H.
Qed.

Lemma atom_ok_no_semicolon s : contains_char SEMI s = false -> atom_ok s = true.
Proof.
  unfold atom_ok. destruct s as [|ch r]; [reflexivity|].
  cbn [contains_char starts_with]. intros H.
  apply orb_false_elim in H. destruct H as [-> _]. apply orb_true_r.
Qed.

Lemma format_number_atom_ok x : atom_ok (format_number x) = true.
Proof. apply atom_ok_no_semicolon, contains_char_format_number. Qed.

Lemma py_str_int_atom_ok z : atom_ok (py_str_int z) = true.
Proof. apply atom_ok_no_semicolon, contains_char_str_int. Qed.


(** ** Numbers that survive printing *)

Lemma float_ok_parse x :
  float_ok x = true -> py_float (format_number x) = Some x.
Proof.
  unfold float_ok. intros H.
  apply andb_prop in H. destruct H as [_ H].
  destruct (py_float (format_number x)) as [y|]; [|discriminate].
  apply FloatAxioms.Leibniz.eqb_spec in H. now subst.
Qed.

Lemma float_ok_zero x :
  float_ok x = true -> PrimFloat.eqb x 0%float = true -> x = 0%float.
Proof.
  intros Hok H. rewrite FloatAxioms.eqb_spec in H.
  change (Prim2SF 0%float) with (S754_zero false) in H.
  rewrite <- (SF2Prim_Prim2SF x) in Hok. rewrite <- (SF2Prim_Prim2SF x).
  destruct (Prim2SF x) as [s|s| |s m e].
  - destruct s; [vm_compute in Hok; discriminate Hok | reflexivity].
  - destruct s; discriminate H.
  - discriminate H.
  - destruct s; discriminate H.
Qed.

Lemma float_eqb_finite x y m e :
  Prim2SF y = S754_finite false m e ->
  PrimFloat.eqb x y = true -> x = y.
Proof.
  intros Hy H. rewrite FloatAxioms.eqb_spec, Hy in H.
  apply Prim2SF_inj. rewrite Hy.
  destruct (Prim2SF x) as [s|s| |s m' e'].
  - destruct s; discriminate H.
  - destruct s; discriminate H.
  - discriminate H.
  - unfold SFeqb, SFcompare in H. destruct s; [discriminate|].
    destruct (Z.compare_spec e' e) as [He| |]; try discriminate.
    destruct (Pos.compare_cont Eq m' m) eqn:Hm; try discriminate.
    apply Pos.compare_eq in Hm. now subst.
Qed.

Lemma or_float_ok x : float_ok x = true -> or_float (Some x) 0%float = x.
Proof.
  intros H. unfold or_float. destruct (PrimFloat.eqb x 0%float) eqn:E; [|reflexivity].
  symmetry. now apply float_ok_zero.
Qed.

Lemma or_int_same z : or_int (Some z) 0%Z = z.
Proof.
  unfold or_int. destruct (Z.eqb_spec z 0); [now subst | reflexivity].
Qed.

Lemma or_string_nonempty s d : nonempty s = true -> or_string (Some s) d = s.
Proof. destruct s; [discriminate | reflexivity]. Qed.

Lemma float_of_ok x : float_ok x = true -> float_of (format_number x) = Returned x.
Proof. intros H. unfold float_of. now rewrite float_ok_parse. Qed.

Local Opaque format_number py_float py_int py_str_int.
Local Arguments or_string : simpl never.
Local Arguments or_float : simpl never.
Local Arguments or_int : simpl never.
Local Arguments float_of : simpl never.
Local Arguments atom_ok : simpl never.

Ltac split_ok H :=
  repeat match type of H with
         | (_ && _) = true =>
             let H1 := fresh H in
             apply andb_prop in H; destruct H as [H H1]; split_ok H1
         end.

(** ** Decoding what the encoders wrote: the shared sub-forms *)

Lemma _parse_position_written pos expr :
  position_ok pos = true ->
  sexpr_get expr "at" = Some (_write_position pos "at") ->
  _parse_position expr = Returned pos.
Proof.
  intros Hok Hget. unfold position_ok in Hok. split_ok Hok.
  unfold _parse_position. rewrite Hget. unfold _write_position, float_ne.
  destruct pos as [x y a]. cbn [pos_x pos_y pos_angle] in *.
  destruct (PrimFloat.eqb a 0%float) eqn:Ea; cbn [negb make_sexpr map float_or bind].
  - rewrite !float_of_ok by assumption. cbn [bind].
    now rewrite (float_ok_zero a ltac:(assumption) Ea).
  - rewrite !float_of_ok by assumption. reflexivity.
Qed.

Lemma _parse_stroke_written s expr :
  stroke_ok s = true ->
  sexpr_get expr "stroke" = Some (_write_stroke s) ->
  _parse_stroke expr = s.
Proof.
  intros Hok Hget. unfold stroke_ok in Hok. split_ok Hok.
  unfold _parse_stroke. rewrite Hget.
  destruct s as [w t c]. cbn [stroke_width stroke_type stroke_color] in *.
  destruct c; [discriminate|].
  unfold _write_stroke, sexpr_get_float, sexpr_get_value.
  cbn. rewrite float_ok_parse by assumption.
  rewrite or_float_ok by assumption.
  rewrite or_string_nonempty by assumption. reflexivity.
Qed.

Lemma _parse_fill_written f expr :
  fill_ok f = true ->
  sexpr_get expr "fill" = Some (_write_fill f) ->
  _parse_fill expr = f.
Proof.
  intros Hok Hget. unfold fill_ok in Hok. split_ok Hok.
  unfold _parse_fill. rewrite Hget.
  destruct f as [t c]. cbn [fill_type fill_color] in *.
  destruct c; [discriminate|].
  unfold _write_fill, sexpr_get_value. cbn.
  rewrite or_string_nonempty by assumption. reflexivity.
Qed.

Lemma parse_xy_written key x y d absent expr :
  float_ok x = true -> float_ok y = true ->
  sexpr_get expr key = Some (make_sexpr [AStr key; AFloat x; AFloat y]) ->
  parse_xy expr key d absent = Returned (x, y).
Proof.
  intros Hx Hy Hget. unfold parse_xy. rewrite Hget.
  cbn [make_sexpr map float_or]. rewrite !float_of_ok by assumption. reflexivity.
Qed.

Lemma parse_point_at_written key p expr :
  point_ok p = true ->
  sexpr_get expr key = Some (write_point key p) ->
  parse_point_at expr key = Returned p.
Proof.
  intros Hok Hget. unfold point_ok in Hok. split_ok Hok.
  unfold parse_point_at. destruct p as [x y]. cbn [pt_x pt_y] in *.
  rewrite (parse_xy_written key x y) by assumption. reflexivity.
Qed.

Lemma in_keys3 a b c s :
  in_keys [a; b; c] s = true -> s = a \/ s = b \/ s = c.
Proof.
  unfold in_keys. cbn [existsb]. rewrite orb_false_r.
  intros H. apply orb_prop in H. destruct H as [H|H].
  - left. now apply String.eqb_eq in H.
  - apply orb_prop in H. destruct H as [H|H]; apply String.eqb_eq in H; auto.
Qed.

Lemma _parse_effects_written e expr :
  effects_ok e = true ->
  sexpr_get expr "effects" = Some (_write_effects e) ->
  _parse_effects expr = Returned e.
Proof.
  intros Hok Hget. unfold effects_ok, font_ok in Hok. split_ok Hok.
  unfold _parse_effects. rewrite Hget.
  destruct e as [[face sx sy th b i ls] h v m hd].
  cbn [eff_font eff_justify_h eff_justify_v eff_mirror eff_hide font_face
       font_size_x font_size_y font_thickness font_bold font_italic
       font_line_spacing] in *.
  destruct face; [discriminate|]. destruct m; [discriminate|].
  repeat match goal with
         | H : PrimFloat.Leibniz.eqb _ _ = true |- _ =>
             apply FloatAxioms.Leibniz.eqb_spec in H; subst
         end.
  assert (Hfont : forall more,
             _parse_font (SList (Atom "effects"
                                   :: _write_font (mkEffects (mkFont None sx sy 0.254%float b i 1%float) h v false hd)
                                   :: more))
             = Returned (mkFont None sx sy 0.254%float b i 1%float)).
  { intros more. unfold _parse_font, _write_font, parse_xy.
    cbn [eff_font font_size_x font_size_y font_bold font_italic].
    destruct b, i; cbn; rewrite !float_of_ok by assumption; reflexivity. }
  unfold _write_effects.
  cbn [eff_font eff_justify_h eff_justify_v eff_hide app].
  rewrite Hfont. cbn [bind].
  match goal with
  | H : in_keys ["left"; "right"; "center"] h = true |- _ =>
      apply in_keys3 in H; destruct H as [ -> | [ -> | -> ] ]
  end;
  match goal with
  | H : in_keys ["top"; "bottom"; "center"] v = true |- _ =>
      apply in_keys3 in H; destruct H as [ -> | [ -> | -> ] ]
  end;
  destruct hd; reflexivity.
Qed.

(** ** Decoding what the encoders wrote: the elements *)

Lemma write_position_head pos : head_is "at" (_write_position pos "at") = true.
Proof. unfold _write_position. destruct (float_ne _ _); reflexivity. Qed.

Lemma write_position_not_head pos key :
  String.eqb "at" key = false -> head_is key (_write_position pos "at") = false.
Proof.
  intros H. unfold _write_position. destruct (float_ne _ _); cbn; exact H.
Qed.

Lemma write_effects_head e : head_is "effects" (_write_effects e) = true.
Proof. reflexivity. Qed.

Lemma write_effects_not_head e key :
  String.eqb "effects" key = false -> head_is key (_write_effects e) = false.
Proof. intros H. cbn. exact H. Qed.

Lemma _parse_property_written p :
  property_ok p = true ->
  _parse_property (items_of (_write_property p)) = Returned p.
Proof.
  intros Hok. unfold property_ok in Hok. split_ok Hok.
  destruct p as [name value id pos eff].
  cbn [prop_name prop_value prop_id prop_position prop_effects] in *.
  unfold _parse_property, _write_property.
  cbn [items_of prop_name prop_value prop_id prop_position prop_effects].
  rewrite (_parse_position_written pos), (_parse_effects_written eff); try assumption.
  - cbn [bind atom_at nth_error atom_or]. unfold sexpr_get_int, sexpr_get_value.
    cbn. rewrite py_int_str_int. now rewrite or_int_same.
  - cbn [sexpr_get find head_is make_sexpr map]. cbn [String.eqb Ascii.eqb Bool.eqb].
    rewrite write_position_not_head by reflexivity. reflexivity.
  - cbn [sexpr_get find head_is make_sexpr map]. cbn [String.eqb Ascii.eqb Bool.eqb].
    rewrite write_position_head. reflexivity.
Qed.

Lemma pin_type_scan_written et sh more :
  match more with Atom _ :: _ => False | _ => True end ->
  pin_type_scan (Atom (PinElectricalType.value et) :: Atom (PinShape.value sh) :: more)
    PinElectricalType.UNSPECIFIED PinShape.LINE
  = (PinElectricalType.UNSPECIFIED, PinShape.LINE).
Proof.
  intros Hm.
  rewrite (pin_type_scan_atoms [PinElectricalType.value et; PinShape.value sh] more)
    by exact Hm.
  destruct sh; reflexivity.
Qed.

Lemma parse_labelled_written key text e expr :
  effects_ok e = true ->
  sexpr_get expr key = Some (SList [Atom key; Atom text; _write_effects e]) ->
  parse_labelled expr key = Returned (text, Some e).
Proof.
  intros Hok Hget. unfold parse_labelled. rewrite Hget.
  rewrite (_parse_effects_written e); [reflexivity | exact Hok |].
  cbn [sexpr_get find head_is]. reflexivity.
Qed.

Lemma _parse_pin_written p :
  pin_ok p = true ->
  _parse_pin (items_of (_write_pin p)) = Returned (forget_pin_kind p).
Proof.
  intros Hok. unfold pin_ok in Hok. split_ok Hok.
  destruct p as [number name et sh pos len ne nue hide].
  cbn [pin_number pin_name pin_electrical_type pin_shape pin_position pin_length
       pin_name_effects pin_number_effects pin_hide] in *.
  destruct ne as [ne|]; [|discriminate]. destruct nue as [nue|]; [|discriminate].
  cbn [option_ok] in *.
  unfold _parse_pin, _write_pin, forget_pin_kind.
  cbn [items_of pin_number pin_name pin_electrical_type pin_shape pin_position
       pin_length pin_name_effects pin_number_effects pin_hide app tl].
  rewrite pin_type_scan_written.
  2:{ unfold _write_position. destruct (float_ne _ _); exact I. }
  rewrite (_parse_position_written pos); [|assumption|].
  2:{ cbn [sexpr_get find head_is]. now rewrite write_position_head. }
  cbn [bind].
  assert (Hlen : sexpr_get
                   (SList (Atom "pin" :: Atom (PinElectricalType.value et)
                             :: Atom (PinShape.value sh) :: _write_position pos "at"
                             :: make_sexpr [AStr "length"; AFloat len]
                             :: SList [Atom "name"; Atom name; _write_effects ne]
                             :: SList [Atom "number"; Atom number; _write_effects nue]
                             :: (if hide then [Atom "hide"] else []))) "length"
                 = Some (make_sexpr [AStr "length"; AFloat len])).
  { cbn [sexpr_get find head_is].
    rewrite write_position_not_head by reflexivity. reflexivity. }
  rewrite Hlen. cbn [make_sexpr map float_or].
  rewrite float_of_ok by assumption. cbn [bind].
  rewrite (parse_labelled_written "name" name ne); [|assumption|].
  2:{ cbn [sexpr_get find head_is].
      rewrite write_position_not_head by reflexivity. reflexivity. }
  rewrite (parse_labelled_written "number" number nue); [|assumption|].
  2:{ cbn [sexpr_get find head_is].
      rewrite write_position_not_head by reflexivity. reflexivity. }
  cbn [bind fst snd].
  assert (Hhide : sexpr_has_flag
                    (SList (Atom "pin" :: Atom (PinElectricalType.value et)
                              :: Atom (PinShape.value sh) :: _write_position pos "at"
                              :: make_sexpr [AStr "length"; AFloat len]
                              :: SList [Atom "name"; Atom name; _write_effects ne]
                              :: SList [Atom "number"; Atom number; _write_effects nue]
                              :: (if hide then [Atom "hide"] else []))) "hide"
                  = hide).
  { cbn [sexpr_has_flag existsb atom_is].
    assert (Hp : atom_is "hide" (_write_position pos "at") = false).
    { unfold _write_position. destruct (float_ne _ _); reflexivity. }
    rewrite Hp. destruct et, sh, hide; reflexivity. }
  rewrite Hhide. reflexivity.
Qed.

Lemma write_point_head key p : head_is key (write_point key p) = true.
Proof. cbn. apply String.eqb_refl. Qed.

Lemma write_point_not_head key key' p :
  String.eqb key key' = false -> head_is key' (write_point key p) = false.
Proof. intros H. cbn. exact H. Qed.

Lemma _parse_rectangle_written r :
  graphic_ok (GRectangle r) = true ->
  _parse_rectangle (items_of (_write_rectangle r)) = Returned r.
Proof.
  intros Hok. cbn [graphic_ok] in Hok. split_ok Hok.
  destruct r as [s e st fl]. cbn [rect_start rect_end rect_stroke rect_fill] in *.
  unfold _parse_rectangle, _write_rectangle.
  cbn [items_of rect_start rect_end rect_stroke rect_fill].
  rewrite (parse_point_at_written "start" s), (parse_point_at_written "end" e);
    try assumption; try reflexivity.
  cbn [bind].
  rewrite (_parse_stroke_written st), (_parse_fill_written fl);
    try assumption; reflexivity.
Qed.

Lemma _parse_circle_written c :
  graphic_ok (GCircle c) = true ->
  _parse_circle (items_of (_write_circle c)) = Returned c.
Proof.
  intros Hok. cbn [graphic_ok] in Hok. split_ok Hok.
  destruct c as [ce r st fl].
  cbn [circle_center circle_radius circle_stroke circle_fill] in *.
  unfold _parse_circle, _write_circle.
  cbn [items_of circle_center circle_radius circle_stroke circle_fill].
  rewrite (parse_point_at_written "center" ce); try assumption; try reflexivity.
  cbn [bind sexpr_get find head_is write_point make_sexpr map String.eqb
       Ascii.eqb Bool.eqb float_or].
  rewrite float_of_ok by assumption. cbn [bind].
  rewrite (_parse_stroke_written st), (_parse_fill_written fl);
    try assumption; reflexivity.
Qed.

Lemma _parse_arc_written a :
  graphic_ok (GArc a) = true ->
  _parse_arc (items_of (_write_arc a)) = Returned a.
Proof.
  intros Hok. cbn [graphic_ok] in Hok. split_ok Hok.
  destruct a as [s m e st fl].
  cbn [arc_start arc_mid arc_end arc_stroke arc_fill] in *.
  unfold _parse_arc, _write_arc.
  cbn [items_of arc_start arc_mid arc_end arc_stroke arc_fill].
  rewrite (parse_point_at_written "start" s), (parse_point_at_written "mid" m),
    (parse_point_at_written "end" e); try assumption; try reflexivity.
  cbn [bind].
  rewrite (_parse_stroke_written st), (_parse_fill_written fl);
    try assumption; reflexivity.
Qed.

Lemma polyline_points_written pts : forall acc,
  forallb point_ok pts = true ->
  polyline_points (map (write_point "xy") pts) acc = Returned (acc ++ pts)%list.
Proof.
  induction pts as [|p pts IH]; intros acc Hok.
  - cbn. now rewrite app_nil_r.
  - cbn [forallb] in Hok. apply andb_prop in Hok. destruct Hok as [Hp Hpts].
    unfold point_ok in Hp. apply andb_prop in Hp. destruct Hp as [Hx Hy].
    destruct p as [x y]. cbn [pt_x pt_y] in *.
    cbn [map write_point make_sexpr polyline_points pt_x pt_y float_or].
    rewrite !float_of_ok by assumption. cbn [bind].
    rewrite IH by assumption. now rewrite <- app_assoc.
Qed.

Lemma _parse_polyline_written p :
  graphic_ok (GPolyline p) = true ->
  _parse_polyline (items_of (_write_polyline p)) = Returned p.
Proof.
  intros Hok. cbn [graphic_ok] in Hok. split_ok Hok.
  destruct p as [pts st fl]. cbn [poly_points poly_stroke poly_fill] in *.
  unfold _parse_polyline, _write_polyline.
  cbn [items_of poly_points poly_stroke poly_fill sexpr_get find head_is
       String.eqb Ascii.eqb Bool.eqb tl].
  rewrite polyline_points_written by assumption. cbn [bind app].
  rewrite (_parse_stroke_written st), (_parse_fill_written fl);
    try assumption; reflexivity.
Qed.

Lemma _parse_text_written t :
  graphic_ok (GText t) = true ->
  _parse_text (items_of (_write_text t)) = Returned t.
Proof.
  intros Hok. cbn [graphic_ok] in Hok. split_ok Hok.
  destruct t as [text pos eff]. cbn [text_text text_position text_effects] in *.
  destruct eff as [eff|]; [|discriminate]. cbn [option_ok] in *.
  unfold _parse_text, _write_text.
  cbn [items_of text_text text_position text_effects app].
  rewrite (_parse_position_written pos), (_parse_effects_written eff); try assumption.
  - reflexivity.
  - cbn [sexpr_get find head_is].
    rewrite write_position_not_head by reflexivity. reflexivity.
  - cbn [sexpr_get find head_is]. now rewrite write_position_head.
Qed.

(** ** Decoding what the encoders wrote: units, definitions, libraries *)

Lemma fold_outcome_app {A B : Type} (f : A -> B -> Outcome A) l1 l2 a :
  fold_outcome f (l1 ++ l2) a
  = bind (fold_outcome f l1 a) (fold_outcome f l2).
Proof.
  revert a. induction l1 as [|b l1 IH]; intros a; cbn; [reflexivity|].
  destruct (f a b); cbn; [apply IH | reflexivity].
Qed.

Lemma unit_step_graphics gs : forall pins graphics,
  forallb graphic_ok gs = true ->
  fold_outcome unit_step (map _write_graphic gs) (pins, graphics)
  = Returned (pins, (graphics ++ gs)%list).
Proof.
  induction gs as [|g gs IH]; intros pins graphics Hok.
  - cbn. now rewrite app_nil_r.
  - cbn [forallb] in Hok. apply andb_prop in Hok. destruct Hok as [Hg Hgs].
    cbn [map fold_outcome].
    assert (Hstep : unit_step (pins, graphics) (_write_graphic g)
                    = Returned (pins, (graphics ++ [g])%list)).
    { destruct g as [r|c|a|p|t]; cbn [_write_graphic].
      - pose proof (_parse_rectangle_written r Hg) as H.
        unfold _write_rectangle in *. cbn [items_of] in H.
        cbn [unit_step atom_is String.eqb Ascii.eqb Bool.eqb]. now rewrite H.
      - pose proof (_parse_circle_written c Hg) as H.
        unfold _write_circle in *. cbn [items_of] in H.
        cbn [unit_step atom_is String.eqb Ascii.eqb Bool.eqb]. now rewrite H.
      - pose proof (_parse_arc_written a Hg) as H.
        unfold _write_arc in *. cbn [items_of] in H.
        cbn [unit_step atom_is String.eqb Ascii.eqb Bool.eqb]. now rewrite H.
      - pose proof (_parse_polyline_written p Hg) as H.
        unfold _write_polyline in *. cbn [items_of] in H.
        cbn [unit_step atom_is String.eqb Ascii.eqb Bool.eqb]. now rewrite H.
      - pose proof (_parse_text_written t Hg) as H.
        unfold _write_text in *. cbn [items_of app] in H.
        cbn [unit_step atom_is String.eqb Ascii.eqb Bool.eqb app]. now rewrite H. }
    rewrite Hstep. cbn [bind]. rewrite IH by assumption.
    now rewrite <- app_assoc.
Qed.

Lemma unit_step_pins ps : forall pins graphics,
  forallb pin_ok ps = true ->
  fold_outcome unit_step (map _write_pin ps) (pins, graphics)
  = Returned ((pins ++ map forget_pin_kind ps)%list, graphics).
Proof.
  induction ps as [|p ps IH]; intros pins graphics Hok.
  - cbn. now rewrite app_nil_r.
  - cbn [forallb] in Hok. apply andb_prop in Hok. destruct Hok as [Hp Hps].
    cbn [map fold_outcome].
    assert (Hstep : unit_step (pins, graphics) (_write_pin p)
                    = Returned ((pins ++ [forget_pin_kind p])%list, graphics)).
    { pose proof (_parse_pin_written p Hp) as H.
      unfold _write_pin in *. cbn [items_of app] in H.
      cbn [unit_step atom_is String.eqb Ascii.eqb Bool.eqb app]. now rewrite H. }
    rewrite Hstep. cbn [bind]. rewrite IH by assumption.
    now rewrite <- app_assoc.
Qed.

Lemma _parse_symbol_unit_written u :
  unit_ok u = true ->
  _parse_symbol_unit (items_of (_write_symbol_unit u)) = Returned (forget_unit_kinds u).
Proof.
  intros Hok. unfold unit_ok in Hok. split_ok Hok.
  destruct u as [name ui si pins graphics].
  cbn [unit_name unit_index style_index unit_pins unit_graphics] in *.
  unfold _parse_symbol_unit, _write_symbol_unit, forget_unit_kinds.
  cbn [items_of unit_name unit_index style_index unit_pins unit_graphics app
       atom_at nth_error atom_or skipn].
  destruct (unit_indices name) as [u1 s1]. cbn [fst snd] in *.
  repeat match goal with
         | H : (_ =? _)%Z = true |- _ => apply Z.eqb_eq in H; subst
         end.
  rewrite fold_outcome_app, unit_step_graphics by assumption.
  cbn [bind app]. rewrite unit_step_pins by assumption. reflexivity.
Qed.

Lemma symbol_def_step_properties ps : forall name props units ib ob ext pw pnh pnmh off,
  forallb property_ok ps = true ->
  fold_outcome symbol_def_step (map _write_property ps)
    (mkSymbolDef name props units ib ob ext pw pnh pnmh off)
  = Returned (mkSymbolDef name (props ++ ps) units ib ob ext pw pnh pnmh off).
Proof.
  induction ps as [|p ps IH]; intros name props units ib ob ext pw pnh pnmh off Hok.
  - cbn. now rewrite app_nil_r.
  - cbn [forallb] in Hok. apply andb_prop in Hok. destruct Hok as [Hp Hps].
    cbn [map fold_outcome].
    pose proof (_parse_property_written p Hp) as H.
    unfold _write_property in *. cbn [items_of] in H.
    cbn [symbol_def_step atom_is String.eqb Ascii.eqb Bool.eqb]. rewrite H.
    cbn [bind sym_name sym_properties sym_units sym_in_bom sym_on_board sym_extends
         sym_power sym_pin_numbers_hide sym_pin_names_hide sym_pin_names_offset].
    rewrite IH by assumption. now rewrite <- app_assoc.
Qed.

Lemma symbol_def_step_units us : forall name props units ib ob ext pw pnh pnmh off,
  forallb unit_ok us = true ->
  fold_outcome symbol_def_step (map _write_symbol_unit us)
    (mkSymbolDef name props units ib ob ext pw pnh pnmh off)
  = Returned (mkSymbolDef name props (units ++ map forget_unit_kinds us)
                ib ob ext pw pnh pnmh off).
Proof.
  induction us as [|u us IH]; intros name props units ib ob ext pw pnh pnmh off Hok.
  - cbn. now rewrite app_nil_r.
  - cbn [forallb] in Hok. apply andb_prop in Hok. destruct Hok as [Hu Hus].
    cbn [map fold_outcome].
    pose proof (_parse_symbol_unit_written u Hu) as H.
    unfold _write_symbol_unit in *. cbn [items_of app] in H.
    cbn [symbol_def_step atom_is String.eqb Ascii.eqb Bool.eqb app]. rewrite H.
    cbn [bind sym_name sym_properties sym_units sym_in_bom sym_on_board sym_extends
         sym_power sym_pin_numbers_hide sym_pin_names_hide sym_pin_names_offset].
    rewrite IH by assumption. now rewrite <- app_assoc.
Qed.

Lemma default_offset_finite :
  exists m e, Prim2SF 0.508%float = S754_finite false m e.
Proof. do 2 eexists. reflexivity. Qed.

Lemma _parse_symbol_def_written s :
  symbol_ok s = true ->
  _parse_symbol_def (items_of (_write_symbol_def s)) = Returned (forget_symbol_kinds s).
Proof.
  intros Hok. unfold symbol_ok in Hok. split_ok Hok.
  destruct s as [name props units ib ob ext pw pnh pnmh off].
  cbn [sym_name sym_properties sym_units sym_in_bom sym_on_board sym_extends
       sym_power sym_pin_numbers_hide sym_pin_names_hide sym_pin_names_offset] in *.
  unfold _parse_symbol_def, _write_symbol_def, forget_symbol_kinds.
  cbn [items_of sym_name sym_properties sym_units sym_in_bom sym_on_board
       sym_extends sym_power sym_pin_numbers_hide sym_pin_names_hide
       sym_pin_names_offset app atom_at nth_error atom_or skipn].
  (* in_bom and on_board *)
  cbn [fold_outcome].
  assert (Hib : symbol_def_step
                  (mkSymbolDef name [] [] true true None false false false 0.508%float)
                  (make_sexpr [AStr "in_bom"; AStr (if ib then "yes" else "no")])
                = Returned (mkSymbolDef name [] [] ib true None false false false
                              0.508%float)).
  { destruct ib; reflexivity. }
  rewrite Hib. cbn [bind].
  assert (Hob : symbol_def_step
                  (mkSymbolDef name [] [] ib true None false false false 0.508%float)
                  (make_sexpr [AStr "on_board"; AStr (if ob then "yes" else "no")])
                = Returned (mkSymbolDef name [] [] ib ob None false false false
                              0.508%float)).
  { destruct ob; reflexivity. }
  rewrite Hob. cbn [bind].
  (* extends *)
  rewrite fold_outcome_app.
  assert (Hext : fold_outcome symbol_def_step
                   match ext with
                   | Some (String _ _ as extends) =>
                       [make_sexpr [AStr "extends"; AStr extends]]
                   | _ => []
                   end
                   (mkSymbolDef name [] [] ib ob None false false false 0.508%float)
                 = Returned (mkSymbolDef name [] [] ib ob ext false false false
                               0.508%float)).
  { destruct ext as [[|c e]|]; [discriminate | reflexivity | reflexivity]. }
  rewrite Hext. cbn [bind].
  (* power *)
  rewrite fold_outcome_app.
  assert (Hpw : fold_outcome symbol_def_step
                  (if pw then [SList [Atom "power"]] else [])
                  (mkSymbolDef name [] [] ib ob ext false false false 0.508%float)
                = Returned (mkSymbolDef name [] [] ib ob ext pw false false
                              0.508%float)).
  { destruct pw; reflexivity. }
  rewrite Hpw. cbn [bind].
  (* properties *)
  rewrite fold_outcome_app, symbol_def_step_properties by assumption.
  cbn [bind app].
  (* pin_numbers *)
  rewrite fold_outcome_app.
  assert (Hpn : fold_outcome symbol_def_step
                  (if pnh then [SList [Atom "pin_numbers"; Atom "hide"]] else [])
                  (mkSymbolDef name props [] ib ob ext pw false false 0.508%float)
                = Returned (mkSymbolDef name props [] ib ob ext pw pnh false
                              0.508%float)).
  { destruct pnh; reflexivity. }
  rewrite Hpn. cbn [bind].
  (* pin_names *)
  rewrite fold_outcome_app.
  assert (Hpnm : fold_outcome symbol_def_step
                   (if pnmh then [SList [Atom "pin_names"; Atom "hide"]] else [])
                   (mkSymbolDef name props [] ib ob ext pw pnh false 0.508%float)
                 = Returned (mkSymbolDef name props [] ib ob ext pw pnh pnmh
                               0.508%float)).
  { destruct pnmh; [|reflexivity].
    cbn [fold_outcome symbol_def_step atom_is String.eqb Ascii.eqb Bool.eqb].
    unfold sexpr_get_float, sexpr_get_value. reflexivity. }
  rewrite Hpnm. cbn [bind].
  (* the offset of the pin names *)
  rewrite fold_outcome_app.
  assert (Hoff : fold_outcome symbol_def_step
                   (if float_ne off 0.508%float
                    then [make_sexpr [AStr "pin_names";
                                      AExpr (make_sexpr [AStr "offset"; AFloat off])]]
                    else [])
                   (mkSymbolDef name props [] ib ob ext pw pnh pnmh 0.508%float)
                 = Returned (mkSymbolDef name props [] ib ob ext pw pnh pnmh off)).
  { destruct (float_ne off 0.508%float) eqn:Ene.
    - destruct pnmh; [discriminate|].
      unfold sexpr_get_float, sexpr_get_value. cbn.
      unfold sexpr_get_float, sexpr_get_value. cbn.
      rewrite float_ok_parse by assumption. reflexivity.
    - unfold float_ne in Ene. apply negb_false_iff in Ene.
      destruct default_offset_finite as [m [e He]].
      rewrite (float_eqb_finite off _ m e He Ene). reflexivity. }
  rewrite Hoff. cbn [bind].
  (* units *)
  rewrite symbol_def_step_units by assumption. reflexivity.
Qed.

Lemma symbols_written syms : forall acc,
  forallb symbol_ok syms = true ->
  fold_outcome
    (fun symbols sym_expr =>
       s <- _parse_symbol_def (items_of sym_expr) ;; Returned (symbols ++ [s])%list)
    (map _write_symbol_def syms) acc
  = Returned (acc ++ map forget_symbol_kinds syms)%list.
Proof.
  induction syms as [|s syms IH]; intros acc Hok.
  - cbn. now rewrite app_nil_r.
  - cbn [forallb] in Hok. apply andb_prop in Hok. destruct Hok as [Hs Hsyms].
    cbn [map fold_outcome]. rewrite (_parse_symbol_def_written s Hs). cbn [bind].
    rewrite IH by assumption. now rewrite <- app_assoc.
Qed.

Lemma filter_written_symbols syms :
  filter (head_is "symbol") (map _write_symbol_def syms) = map _write_symbol_def syms.
Proof.
  induction syms as [|s syms IH]; [reflexivity|].
  cbn [map filter]. unfold _write_symbol_def at 1. cbn [app head_is].
  cbn [String.eqb Ascii.eqb Bool.eqb]. now rewrite IH.
Qed.

(** Decoding the tree of a representable library gives the library back, up
    to the electrical type and the shape of the pins. *)
Lemma decode_symbol_library_written lib :
  representable lib = true ->
  decode_symbol_library (symbol_library_to_sexpr lib)
  = Returned (Ok (forget_pin_kinds lib)).
Proof.
  intros Hok. unfold representable in Hok. split_ok Hok.
  destruct lib as [version generator syms].
  cbn [lib_version lib_generator lib_symbols] in *.
  unfold decode_symbol_library, symbol_library_to_sexpr, forget_pin_kinds.
  cbn [lib_version lib_generator lib_symbols app atom_is negb].
  cbn [String.eqb Ascii.eqb Bool.eqb negb].
  unfold sexpr_get_value, sexpr_get_all.
  cbn [sexpr_get find filter head_is make_sexpr map String.eqb Ascii.eqb Bool.eqb].
  rewrite filter_written_symbols, symbols_written by assumption.
  rewrite !or_string_nonempty by assumption. reflexivity.
Qed.

(** ** The encoders write trees that are read back *)

Local Arguments _write_position : simpl never.
Local Arguments _write_effects : simpl never.
Local Arguments _write_stroke : simpl never.
Local Arguments _write_fill : simpl never.
Local Arguments write_point : simpl never.

Lemma forallb_map_ok {A : Type} (ok : A -> bool) (w : A -> SExpr) l :
  (forall a, ok a = true -> tree_ok (w a) = true) ->
  forallb ok l = true -> forallb tree_ok (map w l) = true.
Proof.
  intros H. induction l as [|a l IH]; cbn [forallb map]; [reflexivity|].
  intros Hl. apply andb_prop in Hl. destruct Hl as [Ha Hl].
  now rewrite (H a Ha), IH.
Qed.

Ltac leaf :=
  first [ assumption
        | reflexivity
        | apply format_number_atom_ok
        | apply py_str_int_atom_ok ].

Ltac split_goal :=
  repeat match goal with
         | |- (_ && _) = true => apply andb_true_intro; split
         end.

Ltac leaves :=
  cbn [tree_ok forallb make_sexpr map app]; split_goal; try leaf.

Lemma tree_ok_position pos :
  position_ok pos = true -> tree_ok (_write_position pos "at") = true.
Proof.
  intros Hok. unfold position_ok in Hok. split_ok Hok.
  unfold _write_position. destruct (float_ne _ _); leaves.
Qed.

Lemma tree_ok_point key p :
  atom_ok key = true -> point_ok p = true -> tree_ok (write_point key p) = true.
Proof.
  intros Hk Hok. unfold point_ok in Hok. split_ok Hok. unfold write_point. leaves.
Qed.

Lemma tree_ok_stroke s : stroke_ok s = true -> tree_ok (_write_stroke s) = true.
Proof.
  intros Hok. unfold stroke_ok in Hok. split_ok Hok.
  unfold _write_stroke. destruct (stroke_color s); [discriminate|]. leaves.
Qed.

Lemma tree_ok_fill f : fill_ok f = true -> tree_ok (_write_fill f) = true.
Proof.
  intros Hok. unfold fill_ok in Hok. split_ok Hok. unfold _write_fill. leaves.
Qed.

Lemma tree_ok_effects e : effects_ok e = true -> tree_ok (_write_effects e) = true.
Proof.
  intros Hok. unfold effects_ok, font_ok in Hok. split_ok Hok.
  unfold _write_effects, _write_font.
  repeat match goal with
         | H : in_keys _ _ = true |- _ =>
             apply in_keys3 in H; destruct H as [ -> | [ -> | -> ] ]
         end;
  destruct (font_bold (eff_font e)), (font_italic (eff_font e)), (eff_hide e);
  leaves.
Qed.

Lemma tree_ok_property p : property_ok p = true -> tree_ok (_write_property p) = true.
Proof.
  intros Hok. unfold property_ok in Hok. split_ok Hok. unfold _write_property.
  leaves; [now apply tree_ok_position | now apply tree_ok_effects].
Qed.

Lemma tree_ok_pin p : pin_ok p = true -> tree_ok (_write_pin p) = true.
Proof.
  intros Hok. unfold pin_ok in Hok. split_ok Hok. unfold _write_pin.
  destruct (pin_name_effects p) as [ne|]; [|discriminate].
  destruct (pin_number_effects p) as [nue|]; [|discriminate].
  cbn [option_ok] in *.
  destruct (pin_hide p); leaves;
    try (now apply tree_ok_position); try (now apply tree_ok_effects).
  all: try (destruct (pin_electrical_type p); reflexivity).
  all: try (destruct (pin_shape p); reflexivity).
Qed.

Lemma tree_ok_graphic g : graphic_ok g = true -> tree_ok (_write_graphic g) = true.
Proof.
  intros Hok. destruct g as [r|c|a|p|t]; cbn [graphic_ok _write_graphic] in *;
    split_ok Hok.
  - unfold _write_rectangle. leaves;
      first [ now apply tree_ok_point | now apply tree_ok_stroke
            | now apply tree_ok_fill ].
  - unfold _write_circle. leaves;
      first [ now apply tree_ok_point | now apply tree_ok_stroke
            | now apply tree_ok_fill ].
  - unfold _write_arc. leaves;
      first [ now apply tree_ok_point | now apply tree_ok_stroke
            | now apply tree_ok_fill ].
  - unfold _write_polyline. leaves;
      try first [ now apply tree_ok_stroke | now apply tree_ok_fill ].
    apply (forallb_map_ok point_ok); [|assumption].
    intros q Hq. now apply tree_ok_point.
  - unfold _write_text.
    destruct (text_effects t) as [eff|]; [|discriminate]. cbn [option_ok] in *.
    leaves; [now apply tree_ok_position | now apply tree_ok_effects].
Qed.

Lemma tree_ok_unit u : unit_ok u = true -> tree_ok (_write_symbol_unit u) = true.
Proof.
  intros Hok. unfold unit_ok in Hok. split_ok Hok. unfold _write_symbol_unit.
  cbn [tree_ok app forallb]. rewrite forallb_app.
  split_goal; try leaf.
  - apply (forallb_map_ok graphic_ok); [apply tree_ok_graphic | assumption].
  - apply (forallb_map_ok pin_ok); [apply tree_ok_pin | assumption].
Qed.

Lemma tree_ok_symbol s : symbol_ok s = true -> tree_ok (_write_symbol_def s) = true.
Proof.
  intros Hok. unfold symbol_ok in Hok. split_ok Hok. unfold _write_symbol_def.
  cbn [tree_ok app forallb]. rewrite !forallb_app.
  split_goal; try leaf.
  - destruct (sym_in_bom s); reflexivity.
  - destruct (sym_on_board s); reflexivity.
  - destruct (sym_extends s) as [[|c e]|]; try reflexivity.
    match goal with
    | H : nonempty _ && atom_ok _ = true |- _ => apply andb_prop in H; destruct H
    end.
    leaves.
  - destruct (sym_power s); reflexivity.
  - apply (forallb_map_ok property_ok); [apply tree_ok_property | assumption].
  - destruct (sym_pin_numbers_hide s); reflexivity.
  - destruct (sym_pin_names_hide s); reflexivity.
  - destruct (float_ne _ _); [|reflexivity]. leaves.
  - apply (forallb_map_ok unit_ok); [apply tree_ok_unit | assumption].
Qed.

Lemma tree_ok_library lib :
  representable lib = true -> tree_ok (symbol_library_to_sexpr lib) = true.
Proof.
  intros Hok. unfold representable in Hok. split_ok Hok.
  unfold symbol_library_to_sexpr. cbn [tree_ok app forallb make_sexpr map].
  split_goal; try leaf.
  apply (forallb_map_ok symbol_ok); [apply tree_ok_symbol | assumption].
Qed.

Local Transparent format_number py_float py_int py_str_int.

(** The claim as stated: every library comes back from its text.  A pin
    built with its defaults has no effects for its name and number; the
    writer emits default effects for them and the decoder reads these. *)
Lemma round_trip_counterexample :
  round_trip default_pin_library = Some (Returned (Ok default_pin_library_read))
  /\ default_pin_library_read <> default_pin_library.
Proof. split; [vm_compute; reflexivity | discriminate]. Qed.

(** C1 (amended). For every representable library, writing it and parsing the
    text returns a library that is equal to it in every field, with the order
    of symbols, properties, units, graphics and pins kept, up to the electrical
    type and the shape of its pins. *)
Theorem symbol_library_round_trip (lib : SymbolLibrary) :
  representable lib = true ->
  exists lib',
    round_trip lib = Some (Returned (Ok lib'))
    /\ forget_pin_kinds lib' = forget_pin_kinds lib.
Proof.
  intros Hok. exists (forget_pin_kinds lib). split.
  - unfold round_trip, parse_symbol_library, write_symbol_library.
    rewrite (write_parse_round_trip _ (tree_ok_library lib Hok)).
    now rewrite (decode_symbol_library_written lib Hok).
  - unfold forget_pin_kinds. cbn [lib_version lib_generator lib_symbols].
    f_equal. rewrite map_map. apply map_ext. intros s.
    unfold forget_symbol_kinds.
    cbn [sym_name sym_properties sym_units sym_in_bom sym_on_board sym_extends
         sym_power sym_pin_numbers_hide sym_pin_names_hide sym_pin_names_offset].
    f_equal. rewrite map_map. apply map_ext. intros u.
    unfold forget_unit_kinds.
    cbn [unit_name unit_index style_index unit_pins unit_graphics].
    f_equal. rewrite map_map. apply map_ext. intros p. reflexivity.
Qed.

Lemma symbol_library_round_trip_witness :
  exists lib',
    round_trip sample_library = Some (Returned (Ok lib'))
    /\ forget_pin_kinds lib' = forget_pin_kinds sample_library.
Proof. apply (symbol_library_round_trip sample_library). vm_compute. reflexivity. Defined.

(** The sample library holds a pin of type PASSIVE and shape INVERTED; the
    pin read back is UNSPECIFIED and LINE. *)
Lemma sample_library_pin_read :
  exists lib',
    round_trip sample_library = Some (Returned (Ok lib'))
    /\ map (fun s => map (fun u => map (fun p => (pin_electrical_type p, pin_shape p))
                                     (unit_pins u)) (sym_units s)) (lib_symbols lib')
       = [[[]; [(PinElectricalType.UNSPECIFIED, PinShape.LINE)]]].
Proof. eexists. split; vm_compute; reflexivity. Qed.


(** ** The scanner: what a token says about the text *)

Lemma has_quoting_char_app a b :
  has_quoting_char (a ++ b) = has_quoting_char a || has_quoting_char b.
Proof.
  induction a as [|ch a IH]; [reflexivity|].
  cbn [append has_quoting_char]. destruct (is_quoting_char ch); [reflexivity | exact IH].
Qed.

Lemma _read_atom_loop_value s : forall l c chars,
  exists pre,
    fst (_read_atom_loop s l c chars) = chars ++ pre
    /\ consumed s l c (snd (_read_atom_loop s l c chars)) pre
    /\ has_quoting_char pre = false
    /\ delimited (t_rest (snd (_read_atom_loop s l c chars))) = true.
Proof.
  induction s as [|ch r IH]; intros l c chars.
  - exists "". cbn. rewrite string_app_nil_r. repeat split; reflexivity.
  - cbn [_read_atom_loop]. destruct (is_atom_end ch) eqn:E.
    + exists "". cbn [fst snd t_rest]. rewrite string_app_nil_r.
      repeat split; try reflexivity. cbn. exact E.
    + destruct (_advance ch l c) as [l' c'] eqn:Ea.
      destruct (IH l' c' (chars ++ str1 ch)) as [pre [Hv [Hc [Hq Hd]]]].
      exists (String ch pre). rewrite Hv. split.
      { rewrite string_app_assoc. reflexivity. }
      split.
      { apply consumed_step. rewrite Ea. exact Hc. }
      split; [|exact Hd].
      cbn [has_quoting_char]. rewrite <- is_atom_end_quoting, E. exact Hq.
Qed.

Lemma _read_string_loop_closed s : forall l c chars v st,
  _read_string_loop s l c chars = Some (v, st) ->
  exists body, consumed s l c st (body ++ str1 DQUOTE).
Proof.
  induction s as [s IH] using string_length_ind. intros l c chars v st.
  destruct s as [|ch r]; simpl; [discriminate|].
  destruct (Ascii.eqb ch DQUOTE) eqn:Eq.
  - destruct (_advance ch l c) as [l' c'] eqn:E. intros [= <- <-].
    apply Ascii.eqb_eq in Eq. subst ch.
    exists "". change ("" ++ str1 DQUOTE) with (String DQUOTE "").
    apply consumed_step. rewrite E. apply consumed_nil.
  - destruct (Ascii.eqb ch BSLASH).
    + destruct (_advance ch l c) as [l1 c1] eqn:E1.
      destruct r as [|e r']; [discriminate|].
      destruct (_advance e l1 c1) as [l2 c2] eqn:E2. intros H.
      apply IH in H; [|simpl; lia]. destruct H as [body H].
      exists (String ch (String e body)). cbn [append].
      apply consumed_step. rewrite E1. simpl. apply consumed_step.
      now rewrite E2.
    + destruct (_advance ch l c) as [l' c'] eqn:E. intros H.
      apply IH in H; [|simpl; lia]. destruct H as [body H].
      exists (String ch body). cbn [append].
      apply consumed_step. now rewrite E.
Qed.

(** What one turn of the loop of [tokenize] consumes: blanks and comments,
    then the source of the token. *)
Lemma next_token_source st t st' :
  next_token st = LexTok t st' ->
  exists ws src,
    t_rest st = ws ++ src ++ t_rest st'
    /\ advance_over ws (t_line st) (t_col st) = (tok_line t, tok_column t)
    /\ advance_over (ws ++ src) (t_line st) (t_col st) = (t_line st', t_col st')
    /\ token_source t src
    /\ (tok_type t = ATOM -> bare (tok_value t) = true).
Proof.
  unfold next_token. intros H.
  destruct (_skip_whitespace_consumed st) as [ws [[Hws Hpos] Hst]].
  destruct (_skip_whitespace st) as [s1 l1 c1]. cbn [t_rest t_line t_col] in *.
  destruct s1 as [|ch r]; [discriminate|].
  cbn [starts_token] in Hst. destruct Hst as [Hsp Hsemi].
  assert (Hfin : forall src st2,
             consumed (String ch r) l1 c1 st2 src ->
             t_rest st = ws ++ src ++ t_rest st2
             /\ advance_over (ws ++ src) (t_line st) (t_col st) = (t_line st2, t_col st2)).
  { intros src st2 [Hs2 Hp2]. split.
    - rewrite Hws, Hs2. reflexivity.
    - rewrite advance_over_app, Hpos. exact Hp2. }
  destruct (Ascii.eqb ch LPAR) eqn:E1.
  { apply Ascii.eqb_eq in E1. subst ch.
    cbn in H. injection H as <- <-.
    exists ws, "(". cbn [t_rest t_line t_col tok_line tok_column].
    destruct (Hfin "(" (mkTokenizer r l1 (S c1))) as [Ha Hb];
      [split; reflexivity|].
    repeat split; try assumption; try reflexivity. discriminate. }
  destruct (Ascii.eqb ch RPAR) eqn:E2.
  { apply Ascii.eqb_eq in E2. subst ch.
    cbn in H. injection H as <- <-.
    exists ws, ")". cbn [t_rest t_line t_col tok_line tok_column].
    destruct (Hfin ")" (mkTokenizer r l1 (S c1))) as [Ha Hb];
      [split; reflexivity|].
    repeat split; try assumption; try reflexivity. discriminate. }
  destruct (Ascii.eqb ch DQUOTE) eqn:E3.
  { apply Ascii.eqb_eq in E3. subst ch.
    unfold _read_string in H.
    change (_advance DQUOTE l1 c1) with (l1, S c1) in H. cbv beta iota zeta in H.
    destruct (_read_string_loop r l1 (S c1) "") as [[v st2]|] eqn:El; [|discriminate].
    injection H as <- <-.
    destruct (_read_string_loop_closed _ _ _ _ _ _ El) as [body Hb1].
    exists ws, (String DQUOTE (body ++ str1 DQUOTE)).
    cbn [tok_line tok_column].
    destruct (Hfin (String DQUOTE (body ++ str1 DQUOTE)) st2) as [Ha Hb].
    { apply consumed_step. exact Hb1. }
    repeat split; try assumption.
    - exists body. reflexivity.
    - discriminate. }
  unfold _read_atom in H. cbn [t_rest t_line t_col] in H.
  destruct (_read_atom_loop_value (String ch r) l1 c1 "") as [pre [Hv [Hc [Hq Hd]]]].
  destruct (_read_atom_loop (String ch r) l1 c1 "") as [chars st2].
  cbn [fst snd] in *. injection H as <- <-. subst chars. cbn [append] in *.
  exists ws, pre. cbn [tok_line tok_column tok_value tok_type].
  destruct (Hfin pre st2 Hc) as [Ha Hb].
  repeat split; try assumption.
  intros _. unfold bare, _needs_quoting.
  destruct Hc as [Hc _]. destruct pre as [|p0 pre].
  - exfalso. cbn [append] in Hc. rewrite <- Hc in Hd. cbn in Hd.
    unfold is_atom_end in Hd. rewrite Hsp, E1, E2, E3 in Hd. discriminate.
  - rewrite Hq. cbn [negb andb starts_with].
    cbn [append] in Hc. injection Hc as -> _. now rewrite Hsemi.
Qed.

Lemma tokenize_loop_lexes fuel : forall st acc toks,
  tokenize_loop fuel st acc = Some (Ok toks) ->
  exists ts st', toks = (acc ++ ts)%list /\ lexes st ts st' /\ next_token st' = LexEnd.
Proof.
  induction fuel as [|fuel IH]; intros st acc toks H; [discriminate|].
  cbn [tokenize_loop] in H. destruct (next_token st) as [|t st1|e] eqn:E.
  - injection H as <-. exists [], st. rewrite app_nil_r.
    repeat split; [constructor | exact E].
  - destruct (IH _ _ _ H) as [ts [st' [-> [Hl He]]]].
    exists (t :: ts), st'. rewrite <- app_assoc. repeat split; [|exact He].
    econstructor; eassumption.
  - discriminate.
Qed.

Lemma lexes_located st ts st' :
  lexes st ts st' ->
  forall text base,
    consumed text 1 1 st base ->
    Forall (located text) ts
    /\ Forall (fun t => tok_type t = ATOM -> bare (tok_value t) = true) ts.
Proof.
  induction 1 as [st|st t st1 toks st' E _ IH]; intros text base Hb.
  - split; constructor.
  - destruct (next_token_source _ _ _ E) as [ws [src [Hs [Hp [Hq [Hsrc Hbare]]]]]].
    destruct Hb as [Ht Hpos].
    assert (Hb1 : consumed text 1 1 st1 (base ++ ws ++ src)).
    { split.
      - rewrite Ht, Hs, !string_app_assoc. reflexivity.
      - rewrite advance_over_app, Hpos. exact Hq. }
    destruct (IH text _ Hb1) as [IH1 IH2].
    split; constructor; try assumption.
    exists (base ++ ws), src, (t_rest st1).
    assert (Hat : advance_over (base ++ ws) 1 1 = (tok_line t, tok_column t)).
    { rewrite advance_over_app, Hpos. exact Hp. }
    rewrite advance_over_start in Hat. injection Hat as Hl Hc.
    repeat split; try (symmetry; assumption); try assumption.
    rewrite Ht, Hs, !string_app_assoc. reflexivity.
Qed.

(** X1. Every token that [tokenize] returns carries the line and the column
    of the first character of its source in the text: the text splits into
    what stands before the token, the source of the token and the rest, the
    line is one more than the number of newlines before the token and the
    column one more than the number of characters since the last of them.
    The source of a parenthesis or of a bare atom is its value; the source
    of a string runs from a double quote to a double quote. *)
Theorem tokens_located (text : string) (toks : list Token) :
  tokenize text = Some (Ok toks) -> Forall (located text) toks.
Proof.
  unfold tokenize, tokenize_from. intros H.
  destruct (tokenize_loop_lexes _ _ _ _ H) as [ts [st' [-> [Hl _]]]].
  cbn [app]. apply (lexes_located _ _ _ Hl text "").
  apply consumed_nil.
Qed.

Lemma tokens_located_witness :
  Forall (located ("(at 1" ++ String NL "  ; x" ++ String NL (" " ++ String DQUOTE ("a b" ++ String DQUOTE ")"))))
    [mkToken LPAREN "(" 1 1; mkToken ATOM "at" 1 2; mkToken ATOM "1" 1 5;
     mkToken STRING "a b" 3 2; mkToken RPAREN ")" 3 7].
Proof. apply tokens_located. vm_compute. reflexivity. Defined.

(** X2. The value of every bare-atom token that [tokenize] returns is not
    empty, holds no blank, parenthesis or double quote and does not begin
    with a semicolon; [_format_atom] writes such a value as it is. *)
Theorem atom_tokens_bare (text : string) (toks : list Token) :
  tokenize text = Some (Ok toks) ->
  Forall (fun t => tok_type t = ATOM ->
                   bare (tok_value t) = true
                   /\ _format_atom (tok_value t) = tok_value t) toks.
Proof.
  unfold tokenize, tokenize_from. intros H.
  destruct (tokenize_loop_lexes _ _ _ _ H) as [ts [st' [-> [Hl _]]]].
  cbn [app].
  destruct (lexes_located _ _ _ Hl text "" (consumed_nil _ _ _)) as [_ Hb].
  eapply Forall_impl; [|exact Hb].
  intros t Ht Ha. specialize (Ht Ha). split; [exact Ht|].
  unfold bare in Ht. apply andb_prop in Ht. destruct Ht as [Hq _].
  unfold _format_atom. destruct (_needs_quoting (tok_value t)); [discriminate | reflexivity].
Qed.

Lemma atom_tokens_bare_witness :
  Forall (fun t => tok_type t = ATOM ->
                   bare (tok_value t) = true
                   /\ _format_atom (tok_value t) = tok_value t)
    [mkToken LPAREN "(" 1 1; mkToken ATOM "a;b" 1 2; mkToken ATOM "\" 1 6;
     mkToken RPAREN ")" 1 7].
Proof. apply (atom_tokens_bare "(a;b \)"). vm_compute. reflexivity. Defined.

(** ** Comments *)

Lemma skip_comment_line c : forall rest l col,
  contains_char NL c = false ->
  skip_comment (c ++ String NL rest) l col = _skip_whitespace_from rest (S l) 1.
Proof.
  induction c as [|ch c IH]; intros rest l col H.
  - cbn [append]. rewrite skip_comment_eq. reflexivity.
  - cbn [contains_char] in H. apply orb_false_elim in H. destruct H as [Hch Hc].
    cbn [append]. rewrite skip_comment_eq, Hch.
    unfold _advance. rewrite Hch. cbn [fst snd]. now apply IH.
Qed.

Lemma skip_comment_end c : forall l col,
  contains_char NL c = false ->
  t_rest (skip_comment c l col) = "".
Proof.
  induction c as [|ch c IH]; intros l col H; [reflexivity|].
  cbn [contains_char] in H. apply orb_false_elim in H. destruct H as [Hch Hc].
  rewrite skip_comment_eq, Hch. now apply IH.
Qed.

Lemma tokenize_from_comment (c rest : string) (l col : nat) (acc : list Token) :
  contains_char NL c = false ->
  tokenize_from (mkTokenizer (String SEMI (c ++ String NL rest)) l col) acc
  = tokenize_from (mkTokenizer rest (S l) 1) acc
  /\ tokenize_from (mkTokenizer (String SEMI c) l col) acc = Some (Ok acc).
Proof.
  intros H. split.
  - rewrite !tokenize_from_eq. unfold next_token, _skip_whitespace.
    cbn [t_rest t_line t_col]. rewrite _skip_whitespace_from_eq.
    change (is_space SEMI) with false. change (Ascii.eqb SEMI SEMI) with true.
    cbv iota. unfold _advance. change (Ascii.eqb SEMI NL) with false.
    cbv iota. cbn [fst snd]. now rewrite skip_comment_line.
  - rewrite tokenize_from_eq. unfold next_token, _skip_whitespace.
    cbn [t_rest t_line t_col]. rewrite _skip_whitespace_from_eq.
    change (is_space SEMI) with false. change (Ascii.eqb SEMI SEMI) with true.
    cbv iota. now rewrite skip_comment_end.
Qed.

(** X3. A semicolon where a token could start opens a comment that runs to
    the end of the line: scanning goes on after the newline, at column 1 of
    the next line, whatever the comment holds; a comment that is not closed
    by a newline ends the tokens. *)
Theorem comment_skipped (c rest : string) (l col : nat) (acc : list Token) :
  contains_char NL c = false ->
  tokenize_from (mkTokenizer (String SEMI (c ++ String NL rest)) l col) acc
  = tokenize_from (mkTokenizer rest (S l) 1) acc
  /\ tokenize_from (mkTokenizer (String SEMI c) l col) acc = Some (Ok acc).
Proof. apply tokenize_from_comment. Qed.

Lemma comment_skipped_witness :
  tokenize_from (mkTokenizer (String SEMI ((" (a " ++ String DQUOTE "b") ++ String NL "c")) 4 7) []
  = tokenize_from (mkTokenizer "c" 5 1) []
  /\ tokenize_from (mkTokenizer (String SEMI (" (a " ++ String DQUOTE "b")) 4 7) []
     = Some (Ok []).
Proof. apply (comment_skipped (" (a " ++ String DQUOTE "b") "c" 4 7 []). reflexivity. Defined.

(** ** The one failure of the scanner *)

Lemma tokenize_loop_err fuel : forall st acc e,
  tokenize_loop fuel st acc = Some (Err e) ->
  exists ts st', lexes st ts st' /\ next_token st' = LexErr e.
Proof.
  induction fuel as [|fuel IH]; intros st acc e H; [discriminate|].
  cbn [tokenize_loop] in H. destruct (next_token st) as [|t st1|e1] eqn:E.
  - discriminate.
  - destruct (IH _ _ _ H) as [ts [st' [Hl He]]].
    exists (t :: ts), st'. split; [|exact He]. econstructor; eassumption.
  - injection H as <-. exists [], st. split; [constructor | exact E].
Qed.

(** X4. [tokenize] returns on every text, and it has one way to fail: when it
    fails, the message is "Unterminated string", the text holds a double
    quote that no later unescaped double quote closes, and the line and the
    column of the error are those of that opening quote. *)
Theorem tokenize_failure (text : string) :
  (exists r, tokenize text = Some r)
  /\ (forall e, tokenize text = Some (Err e) ->
        message e = "Unterminated string"
        /\ exists pre body,
             text = pre ++ String DQUOTE body
             /\ has_closing_quote body = false
             /\ line e = line_of pre /\ column e = column_of pre).
Proof.
  split; [apply tokenize_total|].
  unfold tokenize, tokenize_from. intros e H.
  destruct (tokenize_loop_err _ _ _ _ H) as [ts [st' [Hl He]]].
  destruct (lexes_consumed _ _ _ Hl) as [pre [Ht Hpos]].
  cbn [Tokenizer_init t_rest t_line t_col] in Ht, Hpos.
  destruct (next_token_err _ _ He) as [ws [body [Hr [Hq ->]]]].
  split; [reflexivity|].
  exists (pre ++ ws), body. cbn [line column].
  assert (Hat : advance_over (pre ++ ws) 1 1
                = advance_over ws (t_line st') (t_col st')).
  { now rewrite advance_over_app, Hpos. }
  rewrite advance_over_start in Hat. rewrite <- Hat. cbn [fst snd].
  repeat split; [|exact Hq].
  rewrite Ht, Hr, string_app_assoc. reflexivity.
Qed.

Lemma tokenize_failure_witness :
  message (mkParseError "Unterminated string" 2 3) = "Unterminated string"
  /\ exists pre body,
       ("(a" ++ String NL ("  " ++ String DQUOTE "b c)")) = pre ++ String DQUOTE body
       /\ has_closing_quote body = false
       /\ line (mkParseError "Unterminated string" 2 3) = line_of pre
       /\ column (mkParseError "Unterminated string" 2 3) = column_of pre.
Proof.
  apply (proj2 (tokenize_failure ("(a" ++ String NL ("  " ++ String DQUOTE "b c)")))).
  vm_compute. reflexivity.
Defined.

(** ** Reading back what any writer wrote *)

Lemma parse_of_flatten t ts rest :
  map shape ts = flatten t ->
  _parse_expr (parser_fuel (ts ++ rest)) (ts ++ rest) = Some (Ok (t, rest)).
Proof.
  intros Hs. destruct (parse_flatten t) as [f Hf].
  pose proof (Hf (Nat.max f (parser_fuel (ts ++ rest))) (Nat.le_max_l _ _) ts rest Hs) as Hp.
  destruct (_parse_expr_total (ts ++ rest)%list) as [r Hr].
  pose proof (proj1 (parse_fuel_mono _) _ _ _ Hr
                (Nat.le_max_r f (parser_fuel (ts ++ rest)))) as Hm.
  rewrite Hp in Hm. injection Hm as <-. exact Hr.
Qed.

Lemma tokenize_lexes_to text toks :
  lexes_to text toks "" ->
  exists ts, tokenize text = Some (Ok ts) /\ map shape ts = toks.
Proof.
  intros H. destruct (H 1 1) as [ts [st' [Hrun [Hs Hr]]]].
  rewrite string_app_nil_r in Hrun.
  exists ts. split; [|exact Hs].
  unfold tokenize, Tokenizer_init.
  rewrite (lexes_tokenize_from _ _ _ Hrun), tokenize_from_eq.
  assert (E : next_token st' = LexEnd).
  { unfold next_token, _skip_whitespace. rewrite Hr. reflexivity. }
  now rewrite E.
Qed.

Lemma next_token_end ws l c :
  blank ws = true -> next_token (mkTokenizer ws l c) = LexEnd.
Proof.
  intros H. destruct (_skip_whitespace_from_blank ws "" l c H) as [l' [c' E]].
  rewrite string_app_nil_r in E.
  unfold next_token, _skip_whitespace. cbn [t_rest t_line t_col].
  rewrite E. reflexivity.
Qed.

Lemma tokenize_lexes_to_blank text toks ws :
  blank ws = true -> lexes_to text toks ws ->
  exists ts, tokenize (text ++ ws) = Some (Ok ts) /\ map shape ts = toks.
Proof.
  intros Hws H. destruct (H 1 1) as [ts [st' [Hrun [Hs Hr]]]].
  exists ts. split; [|exact Hs].
  unfold tokenize, Tokenizer_init.
  rewrite (lexes_tokenize_from _ _ _ Hrun), tokenize_from_eq.
  destruct st' as [r l c]. cbn [t_rest] in Hr. subst r.
  now rewrite (next_token_end ws l c Hws).
Qed.

(** X5. Whatever the indentation (made of blanks), the line width and the
    compact keys of a writer, parsing the text it writes for a tree gives the
    tree back, when no bare atom of the tree begins with a semicolon. *)
Theorem writer_round_trip (w : SExprWriter) (t : SExpr) :
  blank (_indent w) = true -> tree_ok t = true ->
  parse_sexpr (write w t) = Some (Ok t).
Proof.
  intros Hw Hok. unfold write.
  pose proof (lexes_to_write_expr w Hw t Hok 0 "" (str1 NL) eq_refl eq_refl) as Hl.
  cbn [append] in Hl.
  destruct (tokenize_lexes_to_blank _ _ (str1 NL) eq_refl Hl) as [ts [Ht Hs]].
  unfold parse_sexpr. rewrite Ht. unfold parse.
  pose proof (parse_of_flatten t ts [] Hs) as Hp. rewrite app_nil_r in Hp.
  now rewrite Hp.
Qed.

Lemma writer_round_trip_witness :
  parse_sexpr (write (mkSExprWriter (String TAB "") 10 ["b"])
                 (SList [Atom "a"; SList [Atom "b"; Atom "c d"; SList []]; Atom ""]))
  = Some (Ok (SList [Atom "a"; SList [Atom "b"; Atom "c d"; SList []]; Atom ""])).
Proof. apply writer_round_trip; reflexivity. Defined.

(** ** Files of several expressions *)

Lemma flatten_nonempty t : flatten t <> [].
Proof. destruct (flatten_head t) as [k [v [more [H _]]]]. rewrite H. discriminate. Qed.

Lemma parse_all_loop_flatten ts : forall fuel acc toks,
  List.length ts < fuel ->
  map shape toks = List.concat (map flatten ts) ->
  parse_all_loop fuel acc toks = Some (Ok (acc ++ ts)%list).
Proof.
  induction ts as [|t ts IH]; intros fuel acc toks Hf Hs.
  - destruct fuel; [cbn in Hf; lia|]. destruct toks; [|discriminate].
    cbn. now rewrite app_nil_r.
  - destruct fuel as [|fuel]; [cbn in Hf; lia|].
    cbn [map List.concat] in Hs. apply map_eq_app in Hs.
    destruct Hs as [tx [txs [-> [Hx Hxs]]]].
    destruct tx as [|t0 tx].
    { exfalso. apply (flatten_nonempty t). now rewrite <- Hx. }
    cbn [parse_all_loop app].
    change (t0 :: (tx ++ txs)%list) with ((t0 :: tx) ++ txs)%list.
    rewrite (parse_of_flatten t (t0 :: tx) txs Hx).
    rewrite (IH fuel (acc ++ [t])%list txs); [|cbn in Hf; lia | exact Hxs].
    now rewrite <- app_assoc.
Qed.

Lemma flatten_length ts :
  List.length ts <= List.length (List.concat (map flatten ts)).
Proof.
  induction ts as [|t ts IH]; [cbn; lia|].
  cbn [map List.concat]. rewrite length_app.
  pose proof (flatten_nonempty t). destruct (flatten t); [contradiction|].
  cbn [List.length]. lia.
Qed.

Lemma write_file_text w t ts :
  concat_strings (map (write w) (t :: ts))
  = (_write_expr w t 0
     ++ concat_strings (map (fun x => str1 NL ++ _write_expr w x 0) ts))
    ++ str1 NL.
Proof.
  revert t. induction ts as [|t' ts IH]; intros t.
  - cbn. unfold write. now rewrite !string_app_nil_r.
  - change (concat_strings (map (write w) (t :: t' :: ts)))
      with (write w t ++ concat_strings (map (write w) (t' :: ts))).
    rewrite IH. unfold write. cbn [map concat_strings fold_right].
    rewrite !string_app_assoc. reflexivity.
Qed.

(** X6. [parse_sexpr_file] reads back, in order, the trees whose texts (each
    as [write] returns it) were put one after the other, when no bare atom of
    them begins with a semicolon; for no tree at all, the empty text gives
    the empty list. *)
Theorem file_round_trip (w : SExprWriter) (ts : list SExpr) :
  blank (_indent w) = true -> forallb tree_ok ts = true ->
  parse_sexpr_file (concat_strings (map (write w) ts)) = Some (Ok ts).
Proof.
  intros Hw Hok. destruct ts as [|t ts]; [reflexivity|].
  rewrite write_file_text.
  cbn [forallb] in Hok. apply andb_prop in Hok. destruct Hok as [Ht Hts].
  assert (Hrest : lexes_to (concat_strings (map (fun x => str1 NL ++ _write_expr w x 0) ts))
                    (List.concat (map flatten ts)) (str1 NL)).
  { apply (lexes_to_items (fun x => str1 NL ++ _write_expr w x 0)); try reflexivity.
    apply Forall_forall. intros x Hx rest Hr.
    apply (lexes_to_write_expr w Hw x); try assumption; try reflexivity.
    rewrite forallb_forall in Hts. now apply Hts. }
  assert (Hall : lexes_to
                   (_write_expr w t 0
                    ++ concat_strings (map (fun x => str1 NL ++ _write_expr w x 0) ts))
                   (List.concat (map flatten (t :: ts))) (str1 NL)).
  { cbn [map List.concat]. apply lexes_to_app; [|exact Hrest].
    apply (lexes_to_write_expr w Hw t Ht 0 ""); [reflexivity|].
    destruct ts; reflexivity. }
  destruct (tokenize_lexes_to_blank _ _ (str1 NL) eq_refl Hall) as [toks [Htok Hs]].
  unfold parse_sexpr_file. rewrite Htok. unfold parse_all.
  apply (parse_all_loop_flatten (t :: ts) _ [] toks); [|exact Hs].
  pose proof (flatten_length (t :: ts)) as Hlen.
  rewrite <- Hs, length_map in Hlen. lia.
Qed.

Lemma file_round_trip_witness :
  parse_sexpr_file
    (concat_strings (map (write (SExprWriter_init "  "))
                       [SList [Atom "a"; Atom "b c"]; Atom "d"; SList []]))
  = Some (Ok [SList [Atom "a"; Atom "b c"]; Atom "d"; SList []]).
Proof. apply file_round_trip; reflexivity. Defined.

(** ** The errors of the parser *)

Lemma marks_head e : exists m more, marks e = m :: more /\ m <> MClose.
Proof.
  destruct e as [s|items]; cbn [marks app].
  - do 2 eexists. split; [reflexivity | discriminate].
  - do 2 eexists. split; [reflexivity | discriminate].
Qed.

Lemma mark_not_close t m : mark t = m -> m <> MClose -> tok_type t <> RPAREN.
Proof. unfold mark. intros <- Hm Ht. rewrite Ht in Hm. now apply Hm. Qed.

Lemma _parse_list_item fuel start acc t0 toks :
  tok_type t0 <> RPAREN ->
  _parse_list (S fuel) start acc (t0 :: toks)
  = match _parse_expr fuel (t0 :: toks) with
    | Some (Ok (item, rest')) => _parse_list fuel start (acc ++ [item])%list rest'
    | Some (Err e) => Some (Err e)
    | None => None
    end.
Proof.
  intros Ht0. cbn [_parse_list]. destruct (tok_type t0); try reflexivity.
  contradiction.
Qed.

(** The parser returns the tree [e] on tokens of marks [marks e], and leaves
    the tokens that follow. *)
Lemma parse_marks e :
  exists f, forall fuel, f <= fuel ->
    forall toks rest, map mark toks = marks e ->
      _parse_expr fuel (toks ++ rest) = Some (Ok (e, rest)).
Proof.
  induction e as [s|items IH] using SExpr_nested_ind.
  - exists 1. intros [|fuel] Hf toks rest Hs; [lia|].
    destruct toks as [|tk [|tk' toks]]; try discriminate.
    cbn [map marks] in Hs. injection Hs as Hm.
    cbn [app _parse_expr]. unfold mark in Hm.
    destruct (tok_type tk); try discriminate; now injection Hm as ->.
  - assert (Hl : exists f, forall fuel, f <= fuel ->
              forall toks start acc rp rest,
                map mark toks = List.concat (map marks items) ->
                tok_type rp = RPAREN ->
                _parse_list fuel start acc (toks ++ rp :: rest)
                = Some (Ok ((acc ++ items)%list, rest))).
    { induction IH as [|x xs Hx _ IHxs].
      - exists 1. intros [|fuel] Hf toks start acc rp rest Hs Hrp; [lia|].
        destruct toks; [|discriminate]. cbn [app _parse_list]. rewrite Hrp.
        now rewrite app_nil_r.
      - destruct Hx as [f1 Hx]. destruct IHxs as [f2 Hxs].
        exists (S (Nat.max f1 f2)).
        intros [|fuel] Hf toks start acc rp rest Hs Hrp; [lia|].
        cbn [map List.concat] in Hs.
        apply map_eq_app in Hs. destruct Hs as [tx [txs [-> [Hsx Hsxs]]]].
        destruct (marks_head x) as [m [more [Hfx Hm]]].
        destruct tx as [|t0 tx]; [rewrite Hfx in Hsx; discriminate|].
        assert (Ht0 : tok_type t0 <> RPAREN).
        { rewrite Hfx in Hsx. injection Hsx as Hsh _.
          exact (mark_not_close _ _ Hsh Hm). }
        rewrite <- app_assoc.
        change ((t0 :: tx) ++ txs ++ rp :: rest)%list
          with (t0 :: (tx ++ txs ++ rp :: rest))%list.
        rewrite (_parse_list_item _ _ _ _ _ Ht0).
        change (t0 :: (tx ++ txs ++ rp :: rest))%list
          with ((t0 :: tx) ++ txs ++ rp :: rest)%list.
        rewrite (Hx fuel ltac:(lia) (t0 :: tx) (txs ++ rp :: rest)%list Hsx).
        rewrite (Hxs fuel ltac:(lia) txs start (acc ++ [x])%list rp rest Hsxs Hrp).
        now rewrite <- app_assoc. }
    destruct Hl as [f Hl]. exists (S f).
    intros [|fuel] Hf toks rest Hs; [lia|].
    cbn [marks] in Hs.
    destruct toks as [|lp toks]; [discriminate|].
    cbn [map app] in Hs. injection Hs as Hlp Hs.
    apply map_eq_app in Hs. destruct Hs as [mid [last [-> [Hmid Hlast]]]].
    destruct last as [|rp [|? ?]]; try discriminate.
    cbn [map] in Hlast. injection Hlast as Hrp.
    assert (Elp : tok_type lp = LPAREN).
    { unfold mark in Hlp. destruct (tok_type lp); try discriminate; reflexivity. }
    assert (Erp : tok_type rp = RPAREN).
    { unfold mark in Hrp. destruct (tok_type rp); try discriminate; reflexivity. }
    cbn [app _parse_expr]. rewrite Elp, <- app_assoc. cbn [app].
    now rewrite (Hl fuel ltac:(lia) mid lp [] rp rest Hmid Erp).
Qed.

Lemma parse_of_marks e ts rest :
  map mark ts = marks e ->
  _parse_expr (parser_fuel (ts ++ rest)) (ts ++ rest) = Some (Ok (e, rest)).
Proof.
  intros Hs. destruct (parse_marks e) as [f Hf].
  pose proof (Hf (Nat.max f (parser_fuel (ts ++ rest))) (Nat.le_max_l _ _) ts rest Hs) as Hp.
  destruct (_parse_expr_total (ts ++ rest)%list) as [r Hr].
  pose proof (proj1 (parse_fuel_mono _) _ _ _ Hr
                (Nat.le_max_r f (parser_fuel (ts ++ rest)))) as Hm.
  rewrite Hp in Hm. injection Hm as <-. exact Hr.
Qed.

(** X7. When the tokens of a complete expression (parentheses that match,
    around STRING and ATOM tokens of any value) are followed by another
    token, [parse] fails with "Unexpected token after expression: " and the
    value of that token, at the line and the column of that token; a closing
    parenthesis there is reported in this way too. *)
Theorem trailing_token (t : SExpr) (toks : list Token) (tok : Token) (rest : list Token) :
  map mark toks = marks t ->
  parse (toks ++ tok :: rest)
  = Some (Err (mkParseError ("Unexpected token after expression: " ++ tok_value tok)
                 (tok_line tok) (tok_column tok))).
Proof.
  intros Hs. unfold parse. now rewrite (parse_of_marks t toks (tok :: rest) Hs).
Qed.

Lemma trailing_token_witness :
  parse ([mkToken LPAREN "(" 1 1; mkToken ATOM "a" 1 2; mkToken STRING "R1" 1 4;
          mkToken RPAREN ")" 1 8]
         ++ mkToken RPAREN ")" 1 9 :: [mkToken ATOM "b" 1 11])
  = Some (Err (mkParseError "Unexpected token after expression: )" 1 9)).
Proof. apply (trailing_token (SList [Atom "a"; Atom "R1"])). reflexivity. Defined.

(** The tokens of lists that were opened and not closed: each level is the
    opening parenthesis of a list and the tokens of its complete items. *)
Lemma parse_list_items trees : forall tail r,
  (exists f, forall fuel start acc, f <= fuel ->
     _parse_list fuel start acc tail = Some (r start)) ->
  forall its, map mark its = List.concat (map marks trees) ->
  exists f, forall fuel start acc, f <= fuel ->
    _parse_list fuel start acc (its ++ tail) = Some (r start).
Proof.
  induction trees as [|x xs IH]; intros tail r Htail its Hs.
  - destruct its; [|discriminate]. exact Htail.
  - cbn [map List.concat] in Hs. apply map_eq_app in Hs.
    destruct Hs as [tx [txs [-> [Hx Hxs]]]].
    destruct (IH tail r Htail txs Hxs) as [f2 H2].
    destruct (parse_marks x) as [f1 H1].
    exists (S (Nat.max f1 f2)). intros [|fuel] start acc Hf; [lia|].
    destruct (marks_head x) as [m [more [Hfx Hm]]].
    destruct tx as [|t0 tx]; [rewrite Hfx in Hx; discriminate|].
    assert (Ht0 : tok_type t0 <> RPAREN).
    { rewrite Hfx in Hx. injection Hx as Hsh _. exact (mark_not_close _ _ Hsh Hm). }
    rewrite <- app_assoc.
    assert (Hstep : _parse_list (S fuel) start acc ((t0 :: tx) ++ txs ++ tail)%list
                    = match _parse_expr fuel ((t0 :: tx) ++ txs ++ tail)%list with
                      | Some (Ok (item, rest')) =>
                          _parse_list fuel start (acc ++ [item])%list rest'
                      | Some (Err e) => Some (Err e)
                      | None => None
                      end).
    { cbn [_parse_list app]. destruct (tok_type t0); try reflexivity. contradiction. }
    rewrite Hstep, (H1 fuel ltac:(lia) (t0 :: tx) (txs ++ tail)%list Hx).
    apply H2. lia.
Qed.

Lemma parse_expr_large toks r :
  (exists f, forall fuel, f <= fuel -> _parse_expr fuel toks = Some r) ->
  _parse_expr (parser_fuel toks) toks = Some r.
Proof.
  intros [f Hf].
  pose proof (Hf (Nat.max f (parser_fuel toks)) (Nat.le_max_l _ _)) as Hp.
  destruct (_parse_expr_total toks) as [r' Hr].
  pose proof (proj1 (parse_fuel_mono _) _ _ _ Hr (Nat.le_max_r f (parser_fuel toks))) as Hm.
  rewrite Hp in Hm. injection Hm as <-. exact Hr.
Qed.

Lemma parse_unclosed levels : forall lv,
  Forall level_ok (levels ++ [lv]) ->
  exists f, forall fuel, f <= fuel ->
    _parse_expr fuel (unclosed (levels ++ [lv]))
    = Some (Err (mkParseError "Unexpected end of input in list"
                   (tok_line (fst lv)) (tok_column (fst lv)))).
Proof.
  induction levels as [|lv0 levels IH]; intros lv Hok.
  - apply Forall_inv in Hok. destruct Hok as [Ho [trees Hits]].
    destruct lv as [o its]. cbn [fst snd] in *.
    destruct (parse_list_items trees []
                (fun start => Err (mkParseError "Unexpected end of input in list"
                                     (tok_line start) (tok_column start))))
      with (its := its) as [f Hf]; [|exact Hits|].
    { exists 1. intros [|fuel] start acc Hfu; [lia | reflexivity]. }
    exists (S f). intros [|fuel] Hfu; [lia|].
    unfold unclosed. cbn [app map List.concat level_tokens fst snd _parse_expr].
    rewrite Ho, app_nil_r. rewrite <- (app_nil_r its).
    now rewrite (Hf fuel o [] ltac:(lia)).
  - cbn [app] in Hok. pose proof (Forall_inv Hok) as [Ho [trees Hits]].
    apply Forall_inv_tail in Hok. destruct (IH lv Hok) as [f1 H1].
    destruct lv0 as [o its]. cbn [fst snd] in *.
    set (E := mkParseError "Unexpected end of input in list"
                (tok_line (fst lv)) (tok_column (fst lv))) in *.
    assert (Hhead : exists o1 more, unclosed (levels ++ [lv]) = o1 :: more
                                    /\ tok_type o1 = LPAREN).
    { destruct levels as [|[o1 its1] levels].
      - destruct lv as [o1 its1]. exists o1, (its1 ++ [])%list. split; [reflexivity|].
        apply Forall_inv in Hok. apply Hok.
      - exists o1, (its1 ++ unclosed (levels ++ [lv]))%list. split; [reflexivity|].
        apply Forall_inv in Hok. apply Hok. }
    destruct Hhead as [o1 [more [Htail Ho1]]].
    destruct (parse_list_items trees (unclosed (levels ++ [lv])) (fun _ => Err E))
      with (its := its) as [f Hf]; [|exact Hits|].
    { exists (S f1). intros [|fuel] start acc Hfu; [lia|].
      rewrite Htail. cbn [_parse_list]. rewrite Ho1, <- Htail.
      now rewrite (H1 fuel ltac:(lia)). }
    exists (S f). intros [|fuel] Hfu; [lia|].
    change (unclosed (((o, its) :: levels) ++ [lv]))
      with (o :: (its ++ unclosed (levels ++ [lv]))%list).
    cbn [_parse_expr]. rewrite Ho.
    now rewrite (Hf fuel o [] ltac:(lia)).
Qed.

(** X8. When the tokens end inside lists that were opened and not closed,
    each holding any complete items (STRING and ATOM tokens of any value,
    closed lists), [parse] fails with "Unexpected end of input in list" at
    the line and the column of the opening parenthesis of the innermost of
    those lists. *)
Theorem unclosed_list (levels : list (Token * list Token)) (lv : Token * list Token) :
  Forall level_ok (levels ++ [lv]) ->
  parse (unclosed (levels ++ [lv]))
  = Some (Err (mkParseError "Unexpected end of input in list"
                 (tok_line (fst lv)) (tok_column (fst lv)))).
Proof.
  intros Hok. unfold parse.
  now rewrite (parse_expr_large _ _ (parse_unclosed levels lv Hok)).
Qed.

Lemma unclosed_list_witness :
  parse_sexpr ("(a (b c) (d " ++ String DQUOTE ("R1" ++ String DQUOTE " (e)"))
  = Some (Err (mkParseError "Unexpected end of input in list" 1 10)).
Proof.
  change (parse_sexpr ("(a (b c) (d " ++ String DQUOTE ("R1" ++ String DQUOTE " (e)")))
    with (parse (unclosed
                   ([(mkToken LPAREN "(" 1 1,
                      [mkToken ATOM "a" 1 2; mkToken LPAREN "(" 1 4;
                       mkToken ATOM "b" 1 5; mkToken ATOM "c" 1 7;
                       mkToken RPAREN ")" 1 8])]
                    ++ [(mkToken LPAREN "(" 1 10,
                         [mkToken ATOM "d" 1 11; mkToken STRING "R1" 1 13;
                          mkToken LPAREN "(" 1 18;
                          mkToken ATOM "e" 1 19; mkToken RPAREN ")" 1 20])]))).
  apply unclosed_list.
  repeat constructor.
  - exists [Atom "a"; SList [Atom "b"; Atom "c"]]. reflexivity.
  - exists [Atom "d"; Atom "R1"; SList [Atom "e"]]. reflexivity.
Defined.

Lemma closing_paren_only_first fuel :
  (forall toks e, _parse_expr fuel toks = Some (Err e) ->
      message e = "Unexpected closing paren" ->
      exists t rest, toks = t :: rest /\ tok_type t = RPAREN
                     /\ e = mkParseError "Unexpected closing paren"
                              (tok_line t) (tok_column t))
  /\ (forall start items toks e,
         _parse_list fuel start items toks = Some (Err e) ->
         message e <> "Unexpected closing paren").
Proof.
  induction fuel as [|fuel [IHe IHl]]; [split; intros; discriminate|].
  split.
  - intros toks e H Hm. destruct toks as [|t rest].
    + cbn in H. injection H as <-. discriminate Hm.
    + cbn [_parse_expr] in H. destruct (tok_type t) eqn:Et.
      * destruct (_parse_list fuel t [] rest) as [[[its r]|e']|] eqn:El;
          try discriminate.
        injection H as <-. exfalso. exact (IHl _ _ _ _ El Hm).
      * injection H as <-. exists t, rest. repeat split. exact Et.
      * discriminate.
      * discriminate.
  - intros start items toks e H Hm. destruct toks as [|t rest].
    + cbn in H. injection H as <-. discriminate Hm.
    + assert (Hstep : tok_type t <> RPAREN ->
                      _parse_list (S fuel) start items (t :: rest)
                      = match _parse_expr fuel (t :: rest) with
                        | Some (Ok (item, rest')) =>
                            _parse_list fuel start (items ++ [item])%list rest'
                        | Some (Err e) => Some (Err e)
                        | None => None
                        end).
      { intros Ht. cbn [_parse_list]. destruct (tok_type t); try reflexivity.
        contradiction. }
      destruct (tok_type t) eqn:Et.
      1,3,4: rewrite Hstep in H by discriminate;
        destruct (_parse_expr fuel (t :: rest)) as [[[it r]|e']|] eqn:Ee;
        try discriminate;
        [ exact (IHl _ _ _ _ H Hm)
        | injection H as <-;
          destruct (IHe _ _ Ee Hm) as [t' [rest' [Heq [Ht' _]]]];
          injection Heq as <- _; rewrite Et in Ht'; discriminate ].
      cbn [_parse_list] in H. rewrite Et in H. discriminate.
Qed.

(** X9. [parse] fails with "Unexpected closing paren" exactly when the first
    token is a closing parenthesis, and the error then carries the line and
    the column of that token; a closing parenthesis anywhere later closes a
    list or is reported as a token after the expression. *)
Theorem closing_paren_error (toks : list Token) (e : ParseError) :
  (parse toks = Some (Err e) /\ message e = "Unexpected closing paren")
  <-> exists t rest, toks = t :: rest /\ tok_type t = RPAREN
                     /\ e = mkParseError "Unexpected closing paren"
                              (tok_line t) (tok_column t).
Proof.
  split.
  - intros [H Hm]. unfold parse in H.
    destruct (_parse_expr (parser_fuel toks) toks) as [[[x rest]|e']|] eqn:E;
      try discriminate.
    + destruct rest as [|tok rest]; [discriminate|]. injection H as <-.
      cbn in Hm. discriminate Hm.
    + injection H as <-.
      exact (proj1 (closing_paren_only_first _) _ _ E Hm).
  - intros [t [rest [-> [Ht ->]]]]. split; [|reflexivity].
    unfold parse, parser_fuel.
    replace (2 * List.length (t :: rest) + 2) with (S (2 * List.length (t :: rest) + 1)) by lia.
    cbn [_parse_expr]. now rewrite Ht.
Qed.

Lemma closing_paren_error_witness :
  parse [mkToken RPAREN ")" 2 5; mkToken ATOM "a" 2 7]
  = Some (Err (mkParseError "Unexpected closing paren" 2 5))
  /\ message (mkParseError "Unexpected closing paren" 2 5) = "Unexpected closing paren".
Proof.
  apply (proj2 (closing_paren_error _ _)).
  exists (mkToken RPAREN ")" 2 5), [mkToken ATOM "a" 2 7]. repeat split.
Defined.

(** X10. A bare atom that begins with a semicolon is written as it is, and
    its text is a comment: parsing what the writer wrote for it fails with
    "Unexpected end of input" at line 0, column 0. *)
Theorem semicolon_atom_lost (w : SExprWriter) (s : string) :
  _needs_quoting s = false -> starts_with SEMI s = true ->
  write w (Atom s) = s ++ str1 NL
  /\ parse_sexpr (write w (Atom s)) = Some (Err E_eof).
Proof.
  intros Hq Hs. unfold write. cbn [_write_expr]. unfold _format_atom. rewrite Hq.
  split; [reflexivity|].
  destruct s as [|ch c]; [discriminate|]. cbn [starts_with] in Hs.
  apply Ascii.eqb_eq in Hs. subst ch.
  assert (Hc : contains_char NL c = false).
  { unfold _needs_quoting in Hq. cbn [has_quoting_char] in Hq.
    change (is_quoting_char SEMI) with false in Hq. cbv iota in Hq.
    destruct (contains_char NL c) eqn:E; [|reflexivity].
    rewrite (has_quoting_char_contains NL c eq_refl E) in Hq. discriminate. }
  change (String SEMI c ++ str1 NL) with (String SEMI (c ++ String NL "")).
  unfold parse_sexpr, tokenize, Tokenizer_init.
  rewrite (proj1 (tokenize_from_comment c "" 1 1 [] Hc)). reflexivity.
Qed.

Lemma semicolon_atom_lost_witness :
  write (SExprWriter_init "  ") (Atom ";note") = ";note" ++ str1 NL
  /\ parse_sexpr (write (SExprWriter_init "  ") (Atom ";note")) = Some (Err E_eof).
Proof. apply semicolon_atom_lost; reflexivity. Defined.

(** ** The parser returns *)

Lemma parse_all_loop_total fuel : forall acc toks,
  List.length toks < fuel -> exists r, parse_all_loop fuel acc toks = Some r.
Proof.
  induction fuel as [|fuel IH]; intros acc toks Hf; [lia|].
  destruct toks as [|t toks]; [eexists; reflexivity|].
  cbn [parse_all_loop].
  destruct (_parse_expr_total (t :: toks)) as [[[x rest]|e] Hr]; rewrite Hr.
  - apply IH.
    pose proof (proj1 (proj1 (parse_rest _ (fun _ => True)) _ _ _ Hr)) as Hlt.
    cbn [List.length] in *. lia.
  - eexists; reflexivity.
Qed.

(** X11. [parse_sexpr] and [parse_sexpr_file] return, a value or an error, on
    every text: each token the scanner produces consumes at least one
    character and each expression the parser reads consumes at least one
    token. *)
Theorem parsers_return (text : string) :
  (exists r, parse_sexpr text = Some r)
  /\ (exists r, parse_sexpr_file text = Some r).
Proof.
  split; [apply parse_sexpr_total|].
  unfold parse_sexpr_file. destruct (tokenize_total text) as [[toks|e] H]; rewrite H.
  - unfold parse_all. apply parse_all_loop_total. lia.
  - eexists; reflexivity.
Qed.


(** ** The query helpers *)

Lemma head_is_spec key item :
  head_is key item = true <-> exists rest, item = SList (Atom key :: rest).
Proof.
  split.
  - destruct item as [s|[|[h|l] rest]]; cbn; try discriminate.
    intros H. apply String.eqb_eq in H. subst. eauto.
  - intros [rest ->]. cbn. apply String.eqb_refl.
Qed.

Lemma find_hd_filter {A : Type} (f : A -> bool) l :
  find f l = hd_error (filter f l).
Proof.
  induction l as [|a l IH]; [reflexivity|].
  cbn. destruct (f a); [reflexivity | exact IH].
Qed.

(** X12. [sexpr_get] returns the first of the children that [sexpr_get_all]
    returns; these are, in their order, the children that are lists headed
    by the key, and an atom has none. *)
Theorem sexpr_get_first_of_all (expr : SExpr) (key : string) :
  sexpr_get expr key = hd_error (sexpr_get_all expr key)
  /\ (forall item, In item (sexpr_get_all expr key)
                   <-> In item (items_of expr)
                       /\ exists rest, item = SList (Atom key :: rest))
  /\ sexpr_get_all expr key = filter (head_is key) (items_of expr)
  /\ (sexpr_get expr key = None <-> sexpr_get_all expr key = []).
Proof.
  assert (H1 : sexpr_get expr key = hd_error (sexpr_get_all expr key)).
  { destruct expr as [s|items]; [reflexivity|]. apply find_hd_filter. }
  split; [exact H1|]. split; [|split].
  - intros item. destruct expr as [s|items]; cbn [sexpr_get_all items_of].
    + split; [contradiction | intros [[] _]].
    + rewrite filter_In, head_is_spec. reflexivity.
  - destruct expr; reflexivity.
  - rewrite H1. destruct (sexpr_get_all expr key); split; try discriminate; reflexivity.
Qed.

Lemma sexpr_get_first_of_all_witness :
  sexpr_get (SList [Atom "a"; SList [Atom "at"; Atom "1"]; SList [Atom "at"; Atom "2"]]) "at"
  = hd_error (sexpr_get_all (SList [Atom "a"; SList [Atom "at"; Atom "1"]; SList [Atom "at"; Atom "2"]]) "at")
  /\ (sexpr_get (SList [Atom "a"; SList [Atom "at"; Atom "1"]; SList [Atom "at"; Atom "2"]]) "size" = None
      <-> sexpr_get_all (SList [Atom "a"; SList [Atom "at"; Atom "1"]; SList [Atom "at"; Atom "2"]]) "size" = []).
Proof.
  split.
  - exact (proj1 (sexpr_get_first_of_all
                    (SList [Atom "a"; SList [Atom "at"; Atom "1"]; SList [Atom "at"; Atom "2"]]) "at")).
  - exact (proj2 (proj2 (proj2 (sexpr_get_first_of_all
                    (SList [Atom "a"; SList [Atom "at"; Atom "1"]; SList [Atom "at"; Atom "2"]]) "size")))).
Defined.

Lemma sexpr_get_found pre item post key :
  (forall x, In x pre -> head_is key x = false) ->
  head_is key item = true ->
  sexpr_get (SList (pre ++ item :: post)) key = Some item.
Proof.
  intros Hpre Hitem. cbn [sexpr_get].
  induction pre as [|x pre IH]; cbn [app find].
  - now rewrite Hitem.
  - rewrite (Hpre x (or_introl eq_refl)). apply IH.
    intros y Hy. apply Hpre. now right.
Qed.

(** X13. A pair that [make_sexpr] built from a key and a text, an integer or
    a number is found again by the key: when no earlier child is headed by
    the key, [sexpr_get_value] returns the text, [sexpr_get_int] the integer
    and [sexpr_get_float] the number, the last for a number that
    [format_number] prints with all its digits. *)
Theorem make_sexpr_lookup (pre post : list SExpr) (key : string) :
  (forall x, In x pre -> head_is key x = false) ->
  (forall v, sexpr_get_value (SList (pre ++ make_sexpr [AStr key; AStr v] :: post)) key
             = Some v)
  /\ (forall z, sexpr_get_int (SList (pre ++ make_sexpr [AStr key; AInt z] :: post)) key
                = Some z)
  /\ (forall x, float_ok x = true ->
                sexpr_get_float (SList (pre ++ make_sexpr [AStr key; AFloat x] :: post)) key
                = Some x).
Proof.
  intros Hpre.
  assert (Hg : forall a, sexpr_get (SList (pre ++ make_sexpr [AStr key; a] :: post)) key
                         = Some (make_sexpr [AStr key; a])).
  { intros a. apply sexpr_get_found; [exact Hpre|]. cbn. apply String.eqb_refl. }
  split; [|split].
  - intros v. unfold sexpr_get_value. now rewrite Hg.
  - intros z. unfold sexpr_get_int, sexpr_get_value. rewrite Hg.
    cbn [make_sexpr map]. apply py_int_str_int.
  - intros x Hx. unfold sexpr_get_float, sexpr_get_value. rewrite Hg.
    cbn [make_sexpr map]. now apply float_ok_parse.
Qed.

Lemma make_sexpr_lookup_witness :
  (forall v, sexpr_get_value
               (SList ([Atom "symbol"; SList [Atom "at"; Atom "0"]]
                       ++ make_sexpr [AStr "id"; AStr v] :: [SList [Atom "id"; Atom "9"]])) "id"
             = Some v)
  /\ (forall z, sexpr_get_int
                  (SList ([Atom "symbol"; SList [Atom "at"; Atom "0"]]
                          ++ make_sexpr [AStr "id"; AInt z] :: [SList [Atom "id"; Atom "9"]])) "id"
                = Some z)
  /\ (forall x, float_ok x = true ->
                sexpr_get_float
                  (SList ([Atom "symbol"; SList [Atom "at"; Atom "0"]]
                          ++ make_sexpr [AStr "id"; AFloat x] :: [SList [Atom "id"; Atom "9"]])) "id"
                = Some x).
Proof.
  apply make_sexpr_lookup.
  intros x [<-|[<-|[]]]; reflexivity.
Defined.

(** ** What the writer never emits *)

Lemma contains_char_join c sep parts :
  contains_char c sep = false ->
  Forall (fun p => contains_char c p = false) parts ->
  contains_char c (join sep parts) = false.
Proof.
  intros Hsep H. induction H as [|p ps Hp _ IH]; [reflexivity|].
  destruct ps as [|q ps]; [exact Hp|].
  change (join sep (p :: q :: ps)) with (p ++ sep ++ join sep (q :: ps)).
  now rewrite !contains_char_app, Hp, Hsep, IH.
Qed.

Lemma contains_char_quoting c s :
  is_quoting_char c = true -> has_quoting_char s = false -> contains_char c s = false.
Proof.
  intros Hc Hs. destruct (contains_char c s) eqn:E; [|reflexivity].
  now rewrite (has_quoting_char_contains c s Hc E) in Hs.
Qed.

Lemma contains_char_escape c s :
  c = NL \/ c = CR \/ c = TAB -> contains_char c (_escape_string s) = false.
Proof.
  intros Hc. induction s as [|ch s IH]; [reflexivity|].
  cbn [_escape_string]. rewrite contains_char_app, IH, orb_false_r.
  unfold escape_char.
  destruct (Ascii.eqb ch DQUOTE) eqn:E1;
    [destruct Hc as [ -> | [ -> | -> ] ]; reflexivity|].
  destruct (Ascii.eqb ch BSLASH) eqn:E2;
    [destruct Hc as [ -> | [ -> | -> ] ]; reflexivity|].
  destruct (Ascii.eqb ch NL) eqn:E3;
    [destruct Hc as [ -> | [ -> | -> ] ]; reflexivity|].
  destruct (Ascii.eqb ch CR) eqn:E4;
    [destruct Hc as [ -> | [ -> | -> ] ]; reflexivity|].
  destruct (Ascii.eqb ch TAB) eqn:E5;
    [destruct Hc as [ -> | [ -> | -> ] ]; reflexivity|].
  cbn [str1 contains_char]. rewrite orb_false_r.
  destruct Hc as [ -> | [ -> | -> ] ]; assumption.
Qed.

Lemma contains_char_format_atom c s :
  c = NL \/ c = CR \/ c = TAB -> contains_char c (_format_atom s) = false.
Proof.
  intros Hc. unfold _format_atom. destruct (_needs_quoting s) eqn:E.
  - rewrite !contains_char_app, contains_char_escape by exact Hc.
    destruct Hc as [ -> | [ -> | -> ] ]; reflexivity.
  - apply contains_char_quoting.
    + destruct Hc as [ -> | [ -> | -> ] ]; reflexivity.
    + destruct s; [discriminate | exact E].
Qed.

(** X14. The inline form of a tree is one line: [_write_inline] emits no
    newline, no carriage return and no tab, whatever the atoms hold; those
    characters of an atom are written as escapes inside a quoted string. *)
Theorem write_inline_one_line (t : SExpr) :
  contains_char NL (_write_inline t) = false
  /\ contains_char CR (_write_inline t) = false
  /\ contains_char TAB (_write_inline t) = false.
Proof.
  assert (H : forall c, c = NL \/ c = CR \/ c = TAB ->
                        contains_char c (_write_inline t) = false).
  { intros c Hc. induction t as [s|items IH] using SExpr_nested_ind.
    - now apply contains_char_format_atom.
    - cbn [_write_inline]. rewrite !contains_char_app.
      rewrite (contains_char_join c " " (map _write_inline items)).
      + destruct Hc as [ -> | [ -> | -> ] ]; reflexivity.
      + destruct Hc as [ -> | [ -> | -> ] ]; reflexivity.
      + apply Forall_map. exact IH. }
  repeat split; apply H; auto.
Qed.

(** ** Numbers are bare atoms *)

Lemma has_quoting_char_uint d :
  has_quoting_char (DecimalString.NilEmpty.string_of_uint d) = false.
Proof. induction d; cbn; assumption || reflexivity. Qed.

Lemma has_quoting_char_str_int z : has_quoting_char (py_str_int z) = false.
Proof.
  unfold py_str_int. destruct z as [|p|p]; [reflexivity | ..];
    cbn [Z.to_int DecimalString.NilZero.string_of_int];
    unfold DecimalString.NilZero.string_of_uint;
    pose proof (has_quoting_char_uint (Pos.to_uint p)) as H;
    destruct (Pos.to_uint p); try reflexivity; exact H.
Qed.

Lemma has_quoting_char_zeros n : has_quoting_char (repeat_string "0" n) = false.
Proof. induction n as [|n IH]; [reflexivity|]. cbn. exact IH. Qed.

Lemma has_quoting_char_format_6f x : has_quoting_char (format_6f x) = false.
Proof.
  unfold format_6f. destruct (Prim2SF x) as [s|s| |s m e].
  - destruct s; reflexivity.
  - destruct s; reflexivity.
  - reflexivity.
  - unfold pad6. rewrite !has_quoting_char_app, !has_quoting_char_str_int,
      has_quoting_char_zeros. destruct s; reflexivity.
Qed.

Lemma has_quoting_char_rstrip_if p s :
  has_quoting_char s = false -> has_quoting_char (rstrip_if p s) = false.
Proof.
  induction s as [|ch r IH]; [reflexivity|].
  cbn [has_quoting_char rstrip_if]. destruct (is_quoting_char ch) eqn:E; [discriminate|].
  intros Hr. specialize (IH Hr).
  destruct (rstrip_if p r) as [|ch' r'].
  - destruct (p ch); [reflexivity|]. cbn. now rewrite E.
  - cbn [has_quoting_char] in *. now rewrite E.
Qed.

Lemma rstrip_if_head p s c r :
  rstrip_if p s = String c r -> exists r0, s = String c r0.
Proof.
  destruct s as [|ch s]; [discriminate|]. cbn [rstrip_if].
  destruct (rstrip_if p s).
  - destruct (p ch); [discriminate|]. intros [= <- _]. eauto.
  - intros [= <- _]. eauto.
Qed.

Lemma rstrip_if_empty p s c :
  rstrip_if p s = "" -> p c = false -> contains_char c s = false.
Proof.
  induction s as [|ch s IH]; [reflexivity|]. cbn [rstrip_if contains_char].
  destruct (rstrip_if p s) eqn:E; [|discriminate].
  destruct (p ch) eqn:Ep; [|discriminate]. intros _ Hc.
  rewrite (IH eq_refl Hc), orb_false_r.
  apply Ascii.eqb_neq. intros ->. congruence.
Qed.

Lemma py_str_int_head z :
  exists c r, py_str_int z = String c r /\ Ascii.eqb "."%char c = false.
Proof.
  unfold py_str_int. destruct z as [|p|p].
  - eexists; eexists; split; reflexivity.
  - cbn [Z.to_int DecimalString.NilZero.string_of_int].
    unfold DecimalString.NilZero.string_of_uint.
    pose proof (DecimalPos.Unsigned.to_uint_nonnil p) as Hd.
    destruct (Pos.to_uint p); try congruence;
      eexists; eexists; split; reflexivity.
  - eexists; eexists; split; reflexivity.
Qed.

Lemma format_6f_head x :
  exists c r, format_6f x = String c r /\ Ascii.eqb "."%char c = false.
Proof.
  unfold format_6f. destruct (Prim2SF x) as [s|s| |s m e].
  - destruct s; eexists; eexists; split; reflexivity.
  - destruct s; eexists; eexists; split; reflexivity.
  - eexists; eexists; split; reflexivity.
  - destruct s.
    + eexists; eexists; split; reflexivity.
    + destruct (py_str_int_head (round_scaled m e / 10 ^ 6)) as [c [r [E Hc]]].
      rewrite E. eexists; eexists; split; [reflexivity | exact Hc].
Qed.

Lemma format_number_nonempty x : format_number x <> "".
Proof.
  unfold format_number.
  destruct (format_6f_head x) as [c [r [E Hc]]].
  assert (H : (if contains_char "." (format_6f x)
               then rstrip_if (Ascii.eqb ".") (rstrip_if (Ascii.eqb "0") (format_6f x))
               else format_6f x) <> "").
  { destruct (contains_char "." (format_6f x)) eqn:Ed; [|rewrite E; discriminate].
    destruct (rstrip_if (Ascii.eqb "0") (format_6f x)) as [|c1 r1] eqn:E1.
    - rewrite (rstrip_if_empty _ _ "."%char E1 eq_refl) in Ed. discriminate.
    - destruct (rstrip_if_head _ _ _ _ E1) as [r0 E0].
      rewrite E in E0. injection E0 as <- _.
      intros E2. pose proof (rstrip_if_empty _ _ c E2 Hc) as Hn.
      cbn [contains_char] in Hn. rewrite Ascii.eqb_refl in Hn. discriminate. }
  match goal with
  | |- (if String.eqb ?f _ then _ else _) <> _ => destruct (String.eqb f "-0")
  end; [discriminate | exact H].
Qed.

(** X15. [format_number] always returns a bare atom: for every number, also
    the infinities and not-a-number, the text is not empty, holds no blank,
    parenthesis or double quote and does not begin with a semicolon, so that
    [_format_atom] writes it without quotes. *)
Theorem format_number_bare (x : float) :
  bare (format_number x) = true
  /\ _format_atom (format_number x) = format_number x.
Proof.
  assert (Hq : _needs_quoting (format_number x) = false).
  { unfold _needs_quoting.
    pose proof (format_number_nonempty x) as Hne.
    destruct (format_number x) as [|c r] eqn:E; [contradiction|].
    rewrite <- E. unfold format_number.
    match goal with
    | |- has_quoting_char (if String.eqb ?f _ then _ else _) = _ =>
        assert (H : has_quoting_char f = false); [|destruct (String.eqb f "-0")]
    end.
    - destruct (contains_char "." (format_6f x)).
      + do 2 apply has_quoting_char_rstrip_if. apply has_quoting_char_format_6f.
      + apply has_quoting_char_format_6f.
    - reflexivity.
    - exact H. }
  split.
  - unfold bare. rewrite Hq. cbn [negb andb].
    pose proof (format_number_atom_ok x) as Ha. unfold atom_ok in Ha.
    now rewrite Hq in Ha.
  - unfold _format_atom. now rewrite Hq.
Qed.


(** ** Pins *)

Lemma pin_type_scan_shape rest : forall et sh, snd (pin_type_scan rest et sh) = sh.
Proof.
  induction rest as [|[val|l] rest IH]; intros et sh; try reflexivity.
  cbn [pin_type_scan]. apply IH.
Qed.

Ltac open_binds H :=
  repeat match type of H with
         | bind ?m _ = Returned _ =>
             let E := fresh "E" in
             destruct m eqn:E; cbn [bind] in H; [|discriminate H]
         end.

(** X16. [_parse_pin] never returns another shape than LINE, whatever the
    pin form holds, and the electrical type it returns is the one named by
    the last of the atoms that follow the head (UNSPECIFIED when there is
    none, or when that atom names no electrical type). *)
Theorem parse_pin_kinds (expr : list SExpr) (p : PinDef) :
  _parse_pin expr = Returned p ->
  pin_shape p = PinShape.LINE
  /\ (forall atoms rest,
         tl expr = (map Atom atoms ++ rest)%list ->
         match rest with Atom _ :: _ => False | _ => True end ->
         pin_electrical_type p
         = match atoms with
           | [] => PinElectricalType.UNSPECIFIED
           | _ => PinElectricalType.from_string (last_string atoms)
           end).
Proof.
  unfold _parse_pin. intros H.
  destruct (pin_type_scan (tl expr) PinElectricalType.UNSPECIFIED PinShape.LINE)
    as [et sh] eqn:Es.
  open_binds H. injection H as <-. cbn [pin_shape pin_electrical_type].
  split.
  - pose proof (pin_type_scan_shape (tl expr) PinElectricalType.UNSPECIFIED PinShape.LINE) as Hs.
    now rewrite Es in Hs.
  - intros atoms rest Ht Hr. rewrite Ht, (pin_type_scan_atoms atoms rest _ _ Hr) in Es.
    now injection Es as <- _.
Qed.

Lemma parse_pin_kinds_witness :
  pin_shape (forget_pin_kind sample_pin) = PinShape.LINE
  /\ (forall atoms rest,
         tl (items_of (_write_pin sample_pin)) = (map Atom atoms ++ rest)%list ->
         match rest with Atom _ :: _ => False | _ => True end ->
         pin_electrical_type (forget_pin_kind sample_pin)
         = match atoms with
           | [] => PinElectricalType.UNSPECIFIED
           | _ => PinElectricalType.from_string (last_string atoms)
           end).
Proof. apply (parse_pin_kinds (items_of (_write_pin sample_pin))). vm_compute. reflexivity. Defined.

(** ** Unit names *)

Lemma split_last_none sep s :
  contains_char sep s = false -> split_last sep s = None.
Proof.
  induction s as [|ch s IH]; [reflexivity|]. cbn [contains_char split_last].
  intros H. apply orb_false_elim in H. destruct H as [Hch Hs].
  now rewrite (IH Hs), Hch.
Qed.

Lemma split_last_app sep a b :
  contains_char sep b = false ->
  split_last sep (a ++ String sep b) = Some (a, b).
Proof.
  intros Hb. induction a as [|ch a IH]; cbn [append split_last].
  - now rewrite (split_last_none sep b Hb), Ascii.eqb_refl.
  - now rewrite IH.
Qed.

Lemma contains_underscore_uint d :
  contains_char UNDERSCORE (DecimalString.NilEmpty.string_of_uint d) = false.
Proof. induction d; cbn; assumption || reflexivity. Qed.

Lemma contains_underscore_str_int z : contains_char UNDERSCORE (py_str_int z) = false.
Proof.
  unfold py_str_int. destruct z as [|p|p]; [reflexivity | ..];
    cbn [Z.to_int DecimalString.NilZero.string_of_int];
    unfold DecimalString.NilZero.string_of_uint;
    pose proof (contains_underscore_uint (Pos.to_uint p)) as H;
    destruct (Pos.to_uint p); try reflexivity; cbn [contains_char];
    rewrite H; reflexivity.
Qed.

(** X17. A unit name made of a base name, an underscore, a unit number, an
    underscore and a style number (as [str] prints the two integers) gives
    back these two integers as the unit and style indices, whatever the base
    name holds, underscores included. *)
Theorem unit_indices_of_name (base : string) (u s : Z) :
  unit_indices (base ++ String UNDERSCORE (py_str_int u ++ String UNDERSCORE (py_str_int s)))
  = (u, s).
Proof.
  unfold unit_indices. cbn [rsplit].
  replace (base ++ String UNDERSCORE (py_str_int u ++ String UNDERSCORE (py_str_int s)))
    with ((base ++ String UNDERSCORE (py_str_int u)) ++ String UNDERSCORE (py_str_int s))
    by (rewrite string_app_assoc; reflexivity).
  rewrite (split_last_app UNDERSCORE _ _ (contains_underscore_str_int s)).
  rewrite (split_last_app UNDERSCORE _ _ (contains_underscore_str_int u)).
  cbn [app rev]. now rewrite !py_int_str_int.
Qed.

(** ** Effects *)

Lemma justify_fold_vocabulary items : forall hv,
  in_keys ["left"; "right"; "center"] (fst hv) = true ->
  in_keys ["top"; "bottom"; "center"] (snd hv) = true ->
  in_keys ["left"; "right"; "center"] (fst (fold_left justify_step items hv)) = true
  /\ in_keys ["top"; "bottom"; "center"] (snd (fold_left justify_step items hv)) = true.
Proof.
  induction items as [|item items IH]; intros hv Hh Hv; [split; assumption|].
  cbn [fold_left]. apply IH.
  - destruct item as [a|l]; [|exact Hh]. cbn [justify_step].
    destruct (String.eqb a "left" || String.eqb a "right") eqn:E1.
    + cbn [fst]. unfold in_keys. cbn [existsb].
      apply orb_prop in E1. destruct E1 as [E|E]; rewrite E;
        rewrite ?orb_true_r; reflexivity.
    + destruct (String.eqb a "top" || String.eqb a "bottom"); exact Hh.
  - destruct item as [a|l]; [|exact Hv]. cbn [justify_step].
    destruct (String.eqb a "left" || String.eqb a "right") eqn:E1; [exact Hv|].
    destruct (String.eqb a "top" || String.eqb a "bottom") eqn:E2; [|exact Hv].
    cbn [snd]. unfold in_keys. cbn [existsb].
    apply orb_prop in E2. destruct E2 as [E|E]; rewrite E;
      rewrite ?orb_true_r; reflexivity.
Qed.

(** X18. The effects [_parse_effects] returns always carry a horizontal
    justification among left, right and center and a vertical one among top,
    bottom and center, whatever the justify form holds; they are never
    mirrored, and their font has no face and the default thickness and line
    spacing. *)
Theorem parse_effects_vocabulary (expr : SExpr) (e : Effects) :
  _parse_effects expr = Returned e ->
  in_keys ["left"; "right"; "center"] (eff_justify_h e) = true
  /\ in_keys ["top"; "bottom"; "center"] (eff_justify_v e) = true
  /\ eff_mirror e = false
  /\ font_face (eff_font e) = None
  /\ font_thickness (eff_font e) = 0.254%float
  /\ font_line_spacing (eff_font e) = 1%float.
Proof.
  unfold _parse_effects. destruct (sexpr_get expr "effects") as [effects_expr|].
  - intros H. open_binds H. injection H as <-.
    cbn [eff_justify_h eff_justify_v eff_mirror eff_font].
    assert (Hf : font_face a = None /\ font_thickness a = 0.254%float
                 /\ font_line_spacing a = 1%float).
    { unfold _parse_font in E. destruct (sexpr_get effects_expr "font").
      - open_binds E. injection E as <-. repeat split.
      - injection E as <-. repeat split. }
    destruct (sexpr_get effects_expr "justify") as [justify|].
    + destruct (justify_fold_vocabulary (tl (items_of justify)) ("center", "center")
                  eq_refl eq_refl) as [H1 H2].
      repeat split; try assumption; apply Hf.
    + repeat split; apply Hf.
  - intros [= <-]. repeat split.
Qed.

Lemma parse_effects_vocabulary_witness :
  in_keys ["left"; "right"; "center"] (eff_justify_h (mkEffects FONT_DEFAULT "right" "center" false false)) = true
  /\ in_keys ["top"; "bottom"; "center"] (eff_justify_v (mkEffects FONT_DEFAULT "right" "center" false false)) = true
  /\ eff_mirror (mkEffects FONT_DEFAULT "right" "center" false false) = false
  /\ font_face (eff_font (mkEffects FONT_DEFAULT "right" "center" false false)) = None
  /\ font_thickness (eff_font (mkEffects FONT_DEFAULT "right" "center" false false)) = 0.254%float
  /\ font_line_spacing (eff_font (mkEffects FONT_DEFAULT "right" "center" false false)) = 1%float.
Proof.
  apply (parse_effects_vocabulary
           (SList [Atom "text";
                   SList [Atom "effects";
                          SList [Atom "justify"; Atom "middle"; Atom "left";
                                 SList [Atom "top"]; Atom "right"; Atom "mirror"]]])).
  vm_compute. reflexivity.
Defined.

(** ** What the symbol decoders skip and what they keep *)

Lemma symbol_def_step_skip d item :
  headed_by symbol_def_keys item = false -> symbol_def_step d item = Returned d.
Proof.
  destruct item as [a|[|[h|l] rest]]; try reflexivity.
  cbn [headed_by]. unfold symbol_def_keys, in_keys. cbn [existsb].
  intros H. repeat (apply orb_false_elim in H; destruct H as [? H]).
  unfold symbol_def_step. cbn [atom_is].
  repeat match goal with
         | E : String.eqb h _ = false |- _ => rewrite E; clear E
         end.
  reflexivity.
Qed.

Lemma unit_step_skip acc item :
  headed_by symbol_unit_keys item = false -> unit_step acc item = Returned acc.
Proof.
  destruct acc as [pins graphics].
  destruct item as [a|[|[h|l] rest]]; try reflexivity.
  cbn [headed_by]. unfold symbol_unit_keys, in_keys. cbn [existsb].
  intros H. repeat (apply orb_false_elim in H; destruct H as [? H]).
  unfold unit_step. cbn [atom_is].
  repeat match goal with
         | E : String.eqb h _ = false |- _ => rewrite E; clear E
         end.
  reflexivity.
Qed.

Lemma fold_outcome_filter {A : Type} (f : A -> SExpr -> Outcome A) (keep : SExpr -> bool) :
  (forall a item, keep item = false -> f a item = Returned a) ->
  forall items a, fold_outcome f items a = fold_outcome f (filter keep items) a.
Proof.
  intros Hskip. induction items as [|item items IH]; intros a; [reflexivity|].
  cbn [filter]. destruct (keep item) eqn:E.
  - cbn [fold_outcome]. destruct (f a item); [cbn [bind]; apply IH | reflexivity].
  - cbn [fold_outcome]. rewrite (Hskip a item E). cbn [bind]. apply IH.
Qed.

(** X19. The symbol decoders skip what they do not know: the children of a
    symbol form that are atoms, empty lists or lists headed by anything but
    the eight keys [_parse_symbol_def] reads can be removed without changing
    its result, and the same holds for [_parse_symbol_unit] and its six
    keys. *)
Theorem unknown_children_ignored (head name : SExpr) (items : list SExpr) :
  _parse_symbol_def (head :: name :: items)
  = _parse_symbol_def (head :: name :: filter (headed_by symbol_def_keys) items)
  /\ _parse_symbol_unit (head :: name :: items)
     = _parse_symbol_unit (head :: name :: filter (headed_by symbol_unit_keys) items).
Proof.
  split.
  - unfold _parse_symbol_def. cbn [skipn].
    replace (atom_at (head :: name :: filter (headed_by symbol_def_keys) items) 1 "")
      with (atom_at (head :: name :: items) 1 "") by reflexivity.
    apply fold_outcome_filter. intros a item. apply symbol_def_step_skip.
  - unfold _parse_symbol_unit. cbn [skipn].
    replace (atom_at (head :: name :: filter (headed_by symbol_unit_keys) items) 1 "")
      with (atom_at (head :: name :: items) 1 "") by reflexivity.
    now rewrite (fold_outcome_filter unit_step (headed_by symbol_unit_keys)
                   (fun a item => unit_step_skip a item) items).
Qed.

Lemma symbol_def_step_name d item d' :
  symbol_def_step d item = Returned d' -> sym_name d' = sym_name d.
Proof.
  unfold symbol_def_step. destruct item as [a|[|element_type args]].
  - now intros [= <-].
  - now intros [= <-].
  - repeat match goal with
           | |- (if ?b then _ else _) = _ -> _ => destruct b
           end;
      intros H; open_binds H; injection H as <-; reflexivity.
Qed.

Lemma fold_symbol_def_name items : forall d d',
  fold_outcome symbol_def_step items d = Returned d' -> sym_name d' = sym_name d.
Proof.
  induction items as [|item items IH]; intros d d' H.
  - now injection H as <-.
  - cbn [fold_outcome] in H. open_binds H.
    rewrite (IH _ _ H). eapply symbol_def_step_name; eassumption.
Qed.

Lemma parse_symbol_def_name expr s :
  _parse_symbol_def expr = Returned s -> sym_name s = atom_at expr 1 "".
Proof. unfold _parse_symbol_def. intros H. now rewrite (fold_symbol_def_name _ _ _ H). Qed.

Lemma fold_symbols_names exprs : forall acc symbols,
  fold_outcome (fun symbols sym_expr =>
                  s <- _parse_symbol_def (items_of sym_expr) ;;
                  Returned (symbols ++ [s])%list) exprs acc = Returned symbols ->
  map sym_name symbols
  = (map sym_name acc ++ map (fun e => atom_at (items_of e) 1 "") exprs)%list.
Proof.
  induction exprs as [|e exprs IH]; intros acc symbols H.
  - injection H as <-. now rewrite app_nil_r.
  - cbn [fold_outcome] in H. open_binds H.
    open_binds E. injection E as <-.
    rewrite (IH _ _ H), map_app. cbn [map]. rewrite <- app_assoc. cbn [app].
    now rewrite (parse_symbol_def_name _ _ E0).
Qed.

(** X20. When [decode_symbol_library] returns a library, its symbols are,
    one for one and in their order, the children of the tree headed by
    [symbol], each under the name that stands as the second element of its
    form (the empty name when that element is missing or a list). *)
Theorem decoded_symbol_names (t : SExpr) (lib : SymbolLibrary) :
  decode_symbol_library t = Returned (Ok lib) ->
  map sym_name (lib_symbols lib)
  = map (fun e => atom_at (items_of e) 1 "") (sexpr_get_all t "symbol").
Proof.
  unfold decode_symbol_library. destruct t as [a|[|head rest]]; try discriminate.
  destruct (negb (atom_is "kicad_symbol_lib" head)); [discriminate|].
  intros H. open_binds H. injection H as <-. cbn [lib_symbols].
  now rewrite (fold_symbols_names _ _ _ E).
Qed.

Lemma decoded_symbol_names_witness :
  map sym_name (lib_symbols (forget_pin_kinds sample_library))
  = map (fun e => atom_at (items_of e) 1 "")
      (sexpr_get_all (symbol_library_to_sexpr sample_library) "symbol").
Proof. apply decoded_symbol_names. vm_compute. reflexivity. Defined.


(** ** The schematic decoder: what makes it raise *)

Lemma xy_items_empty_list items :
  In (SList []) items -> xy_items items = Raised IndexError.
Proof.
  induction items as [|item items IH]; [contradiction|].
  intros [->|H]; [reflexivity|].
  destruct item as [a|[|h rest]]; cbn [xy_items].
  - now apply IH.
  - reflexivity.
  - now rewrite (IH H).
Qed.

Lemma xy_items_filter items :
  ~ In (SList []) items ->
  xy_items items = Returned (map items_of (filter (head_is "xy") items)).
Proof.
  induction items as [|item items IH]; intros H; [reflexivity|].
  assert (Hr : ~ In (SList []) items) by (intros Hi; apply H; now right).
  destruct item as [a|[|h rest]]; cbn [xy_items filter head_is].
  - now apply IH.
  - exfalso. apply H. now left.
  - rewrite (IH Hr). cbn [bind].
    destruct h as [s|l]; cbn [atom_is]; [|reflexivity].
    destruct (String.eqb s "xy"); reflexivity.
Qed.

(** X21. [_parse_wire] and [_parse_bus] raise [IndexError] for every form
    whose [pts] child holds an empty list after its head; without an empty
    list there, the points scanned are the children of [pts] headed by [xy],
    in their order. *)
Theorem wire_points_index_error (uuid4 : nat -> string) (expr : list SExpr) (pts : SExpr) :
  sexpr_get (SList expr) "pts" = Some pts ->
  (In (SList []) (tl (items_of pts)) ->
   forall n, _parse_wire uuid4 expr n = Raised IndexError
             /\ _parse_bus uuid4 expr n = Raised IndexError)
  /\ (~ In (SList []) (tl (items_of pts)) ->
      xy_items (tl (items_of pts))
      = Returned (map items_of (filter (head_is "xy") (tl (items_of pts))))).
Proof.
  intros Hp. split; [|apply xy_items_filter].
  intros Hin n. unfold _parse_wire, _parse_bus, gbind, lift, parse_segment.
  rewrite Hp, (xy_items_empty_list _ Hin). split; reflexivity.
Qed.

Lemma wire_points_index_error_witness :
  (In (SList []) (tl (items_of (SList [Atom "pts"; SList [Atom "xy"; Atom "0"; Atom "0"]; SList []]))) ->
   forall n,
     _parse_wire (fun _ => "u")
       [Atom "wire"; SList [Atom "pts"; SList [Atom "xy"; Atom "0"; Atom "0"]; SList []]] n
     = Raised IndexError
     /\ _parse_bus (fun _ => "u")
          [Atom "wire"; SList [Atom "pts"; SList [Atom "xy"; Atom "0"; Atom "0"]; SList []]] n
        = Raised IndexError)
  /\ (~ In (SList []) (tl (items_of (SList [Atom "pts"; SList [Atom "xy"; Atom "0"; Atom "0"]; SList []]))) ->
      xy_items (tl (items_of (SList [Atom "pts"; SList [Atom "xy"; Atom "0"; Atom "0"]; SList []])))
      = Returned (map items_of
                    (filter (head_is "xy")
                       (tl (items_of (SList [Atom "pts"; SList [Atom "xy"; Atom "0"; Atom "0"]; SList []])))))).
Proof. apply wire_points_index_error. reflexivity. Defined.

Ltac split_scrutinee :=
  repeat (match goal with
          | |- context [match ?x with _ => _ end] => is_var x; destruct x
          end; try (intros; discriminate)).

Lemma comment_step_bad comments item :
  bad_comment item = true -> comment_step comments item = Raised ValueError.
Proof.
  unfold bad_comment, comment_step. split_scrutinee.
  unfold int_of. destruct (py_int _); [discriminate | reflexivity].
Qed.

Lemma comment_step_raises comments item e :
  comment_step comments item = Raised e -> e = ValueError.
Proof.
  unfold comment_step. split_scrutinee.
  all: try (unfold int_of; destruct (py_int _); cbn [bind];
            [destruct (_ && _)%bool; discriminate | now intros [= <-]]).
  all: try (cbn [bind]; destruct (_ && _)%bool; discriminate).
Qed.

Lemma fold_comment_step_bad items : forall comments,
  existsb bad_comment items = true ->
  fold_outcome comment_step items comments = Raised ValueError.
Proof.
  induction items as [|item items IH]; intros comments H; [discriminate|].
  cbn [existsb] in H. cbn [fold_outcome].
  destruct (comment_step comments item) as [c'|e] eqn:E; cbn [bind].
  - apply IH. destruct (bad_comment item) eqn:Eb; [|exact H].
    rewrite (comment_step_bad comments item Eb) in E. discriminate.
  - now rewrite (comment_step_raises _ _ _ E).
Qed.

(** X22. A title block that holds a comment form whose number is an atom
    [int] does not read makes [_parse_title_block] raise [ValueError], and
    with it the decoding of the schematic whose first [title_block] child it
    is: the decoder does not return an error result for it. *)
Theorem title_block_comment_raises (uuid4 : nat -> string) (t tb : SExpr) (n : nat) :
  existsb bad_comment (items_of tb) = true ->
  _parse_title_block (items_of tb) = Raised ValueError
  /\ (has_root "kicad_sch" t = true ->
      sexpr_get t "title_block" = Some tb ->
      decode_schematic uuid4 t n = Raised ValueError).
Proof.
  intros Hbad.
  assert (Htb : _parse_title_block (items_of tb) = Raised ValueError).
  { unfold _parse_title_block. now rewrite (fold_comment_step_bad _ _ Hbad). }
  split; [exact Htb|].
  intros Hroot Hget. destruct (has_root_true_cases _ _ Hroot) as [rest ->].
  unfold decode_schematic. cbn [atom_is negb].
  rewrite String.eqb_refl. cbn [negb].
  assert (Hu : exists u n1, _parse_uuid uuid4 (SList (Atom "kicad_sch" :: rest)) n
                            = Returned (u, n1)).
  { unfold _parse_uuid, generate, gret.
    destruct (sexpr_get_value _ "uuid") as [[|c s]|]; eauto. }
  destruct Hu as [u [n1 Hu]].
  unfold gbind. rewrite Hu, Hget. unfold lift. now rewrite Htb.
Qed.

Lemma title_block_comment_raises_witness :
  _parse_title_block
    (items_of (SList [Atom "title_block"; SList [Atom "title"; Atom "T"];
                      SList [Atom "comment"; Atom "one"; Atom "text"]]))
  = Raised ValueError
  /\ (has_root "kicad_sch"
        (SList [Atom "kicad_sch";
                SList [Atom "title_block"; SList [Atom "title"; Atom "T"];
                       SList [Atom "comment"; Atom "one"; Atom "text"]]]) = true ->
      sexpr_get
        (SList [Atom "kicad_sch";
                SList [Atom "title_block"; SList [Atom "title"; Atom "T"];
                       SList [Atom "comment"; Atom "one"; Atom "text"]]]) "title_block"
      = Some (SList [Atom "title_block"; SList [Atom "title"; Atom "T"];
                     SList [Atom "comment"; Atom "one"; Atom "text"]]) ->
      decode_schematic (fun _ => "u")
        (SList [Atom "kicad_sch";
                SList [Atom "title_block"; SList [Atom "title"; Atom "T"];
                       SList [Atom "comment"; Atom "one"; Atom "text"]]]) 0
      = Raised ValueError).
Proof. apply title_block_comment_raises. reflexivity. Defined.

(** ** Properties of a placed symbol: update, then look up *)

Lemma updated_lookup props p :
  first_property_value
    (if existsb (fun q => String.eqb (prop_name q) (prop_name p)) props
     then map (fun q => if String.eqb (prop_name q) (prop_name p) then p else q) props
     else props ++ [p])%list (prop_name p)
  = Some (prop_value p).
Proof.
  induction props as [|q props IH]; cbn [existsb map app first_property_value].
  - now rewrite String.eqb_refl.
  - destruct (String.eqb (prop_name q) (prop_name p)) eqn:E; cbn [orb].
    + cbn [first_property_value]. now rewrite String.eqb_refl.
    + destruct (existsb _ props); cbn [first_property_value app]; now rewrite E.
Qed.

Lemma updated_frame props p name :
  name <> prop_name p ->
  first_property_value
    (if existsb (fun q => String.eqb (prop_name q) (prop_name p)) props
     then map (fun q => if String.eqb (prop_name q) (prop_name p) then p else q) props
     else props ++ [p])%list name
  = first_property_value props name.
Proof.
  intros Hn.
  assert (Hp : String.eqb (prop_name p) name = false).
  { apply String.eqb_neq. congruence. }
  assert (Hmap : forall l,
             first_property_value
               (map (fun q => if String.eqb (prop_name q) (prop_name p) then p else q) l) name
             = first_property_value l name).
  { induction l as [|r l IHl]; [reflexivity|].
    cbn [map first_property_value].
    destruct (String.eqb (prop_name r) (prop_name p)) eqn:Er.
    - apply String.eqb_eq in Er. now rewrite Er, Hp.
    - now rewrite IHl. }
  assert (Happ : forall l,
             first_property_value (l ++ [p])%list name = first_property_value l name).
  { induction l as [|r l IHl]; cbn [app first_property_value].
    - now rewrite Hp.
    - now rewrite IHl. }
  destruct (existsb _ props); [apply Hmap | apply Happ].
Qed.

Lemma map_replace_none props p :
  existsb (fun q => String.eqb (prop_name q) (prop_name p)) props = false ->
  map (fun q => if String.eqb (prop_name q) (prop_name p) then p else q) props = props.
Proof.
  intros E. rewrite map_ext_in with (g := fun q => q); [now rewrite map_id|].
  intros q Hq.
  destruct (String.eqb (prop_name q) (prop_name p)) eqn:Eq; [|reflexivity].
  exfalso. rewrite <- not_true_iff_false in E. apply E.
  apply existsb_exists. now exists q.
Qed.

Lemma with_property_properties s p :
  si_properties (with_property s p)
  = (if existsb (fun q => String.eqb (prop_name q) (prop_name p)) (si_properties s)
     then map (fun q => if String.eqb (prop_name q) (prop_name p) then p else q)
            (si_properties s)
     else si_properties s ++ [p])%list.
Proof.
  unfold with_property. rewrite with_property_loop_spec. cbn [app orb].
  destruct (existsb _ (si_properties s)) eqn:E; cbn [negb si_properties];
    [reflexivity|].
  now rewrite (map_replace_none _ _ E).
Qed.

Lemma SymbolDef_with_property_properties s p :
  sym_properties (SymbolDef_with_property s p)
  = (if existsb (fun q => String.eqb (prop_name q) (prop_name p)) (sym_properties s)
     then map (fun q => if String.eqb (prop_name q) (prop_name p) then p else q)
            (sym_properties s)
     else sym_properties s ++ [p])%list.
Proof.
  unfold SymbolDef_with_property. rewrite with_property_loop_spec. cbn [app orb].
  destruct (existsb _ (sym_properties s)) eqn:E; cbn [negb sym_properties];
    [reflexivity|].
  now rewrite (map_replace_none _ _ E).
Qed.

(** X23. After [with_property], looking the name of the property up gives its
    value, and every other name gives what it gave before; this holds for a
    placed symbol and for a symbol definition, and hence the reference of a
    placed symbol after an update of [Reference] is the new value. *)
Theorem with_property_lookup (p : Property) :
  (forall s : SymbolInstance,
      property_value (with_property s p) (prop_name p) = Some (prop_value p)
      /\ (forall name, name <> prop_name p ->
                       property_value (with_property s p) name = property_value s name)
      /\ (prop_name p = "Reference" -> reference (with_property s p) = prop_value p))
  /\ (forall d : SymbolDef,
         SymbolDef_property_value (SymbolDef_with_property d p) (prop_name p)
         = Some (prop_value p)
         /\ (forall name, name <> prop_name p ->
                          SymbolDef_property_value (SymbolDef_with_property d p) name
                          = SymbolDef_property_value d name)).
Proof.
  split.
  - intros s. unfold property_value, reference.
    rewrite with_property_properties. split; [apply updated_lookup|]. split.
    + intros name Hn. now apply updated_frame.
    + intros E. rewrite <- E. now rewrite updated_lookup.
  - intros d. unfold SymbolDef_property_value.
    rewrite SymbolDef_with_property_properties. split; [apply updated_lookup|].
    intros name Hn. now apply updated_frame.
Qed.

Lemma with_property_lookup_witness :
  (forall s : SymbolInstance,
      property_value (with_property s (sample_property "Reference" "R7")) "Reference"
      = Some "R7"
      /\ (forall name, name <> "Reference" ->
                       property_value (with_property s (sample_property "Reference" "R7")) name
                       = property_value s name)
      /\ ("Reference" = "Reference" ->
          reference (with_property s (sample_property "Reference" "R7")) = "R7"))
  /\ (forall d : SymbolDef,
         SymbolDef_property_value
           (SymbolDef_with_property d (sample_property "Reference" "R7")) "Reference"
         = Some "R7"
         /\ (forall name, name <> "Reference" ->
                          SymbolDef_property_value
                            (SymbolDef_with_property d (sample_property "Reference" "R7")) name
                          = SymbolDef_property_value d name)).
Proof. exact (with_property_lookup (sample_property "Reference" "R7")). Defined.

Lemma with_property_eq s p :
  with_property s p
  = mkSymbolInstance (si_lib_id s) (si_position s) (si_unit s) (si_mirror s)
      (si_properties (with_property s p)) (si_pins s) (si_uuid s)
      (si_in_bom s) (si_on_board s).
Proof.
  unfold with_property.
  destruct (with_property_loop (si_properties s) p [] false) as [np f]. reflexivity.
Qed.

Lemma map_replace_idem props p :
  map (fun q => if String.eqb (prop_name q) (prop_name p) then p else q)
    (map (fun q => if String.eqb (prop_name q) (prop_name p) then p else q) props)
  = map (fun q => if String.eqb (prop_name q) (prop_name p) then p else q) props.
Proof.
  rewrite map_map. apply map_ext. intros q.
  destruct (String.eqb (prop_name q) (prop_name p)) eqn:E; [|now rewrite E].
  now rewrite String.eqb_refl.
Qed.

Lemma existsb_replace props p :
  existsb (fun q => String.eqb (prop_name q) (prop_name p)) props = true ->
  existsb (fun q => String.eqb (prop_name q) (prop_name p))
    (map (fun q => if String.eqb (prop_name q) (prop_name p) then p else q) props) = true.
Proof.
  induction props as [|q props IH]; [discriminate|]. cbn [existsb map].
  destruct (String.eqb (prop_name q) (prop_name p)) eqn:E.
  - now rewrite String.eqb_refl.
  - rewrite E. exact IH.
Qed.

(** X24. [with_property] is idempotent and never shortens the list: updating
    twice with the same property gives what one update gives; a list that
    holds properties of the name keeps its length (each of them is replaced,
    none is removed), and a list that holds none grows by one. *)
Theorem with_property_idempotent (s : SymbolInstance) (p : Property) :
  with_property (with_property s p) p = with_property s p
  /\ List.length (si_properties (with_property s p))
     = if existsb (fun q => String.eqb (prop_name q) (prop_name p)) (si_properties s)
       then List.length (si_properties s)
       else S (List.length (si_properties s)).
Proof.
  split.
  - etransitivity; [apply with_property_eq|].
    symmetry. etransitivity; [apply with_property_eq|]. symmetry.
    f_equal; try (rewrite (with_property_eq s p); reflexivity).
    rewrite (with_property_properties (with_property s p) p).
    rewrite (with_property_properties s p).
    destruct (existsb (fun q => String.eqb (prop_name q) (prop_name p))
                (si_properties s)) eqn:E.
    + rewrite (existsb_replace _ _ E). apply map_replace_idem.
    + rewrite existsb_app. cbn [existsb]. rewrite String.eqb_refl, orb_true_r.
      rewrite map_app. cbn [map]. rewrite String.eqb_refl.
      now rewrite (map_replace_none _ _ E).
  - rewrite with_property_properties.
    destruct (existsb _ (si_properties s)).
    + apply length_map.
    + rewrite length_app. cbn. lia.
Qed.


(** ** Libraries: add a symbol, then look it up *)

Lemma symbol_by_name_loop_app symbols sym name :
  symbol_by_name_loop (symbols ++ [sym]) name
  = match symbol_by_name_loop symbols name with
    | Some x => Some x
    | None => if String.eqb (sym_name sym) name then Some sym else None
    end.
Proof.
  induction symbols as [|s symbols IH]; cbn [app symbol_by_name_loop]; [reflexivity|].
  destruct (String.eqb (sym_name s) name); [reflexivity | exact IH].
Qed.

Lemma symbol_by_name_loop_found symbols name x :
  symbol_by_name_loop symbols name = Some x -> sym_name x = name /\ In x symbols.
Proof.
  induction symbols as [|s symbols IH]; [discriminate|]. cbn [symbol_by_name_loop].
  destruct (String.eqb_spec (sym_name s) name) as [E|E].
  - intros [= <-]. split; [exact E | now left].
  - intros H. destruct (IH H). split; [assumption | now right].
Qed.

Lemma symbol_by_name_loop_none symbols name :
  symbol_by_name_loop symbols name = None <-> ~ In name (map sym_name symbols).
Proof.
  induction symbols as [|s symbols IH]; cbn [symbol_by_name_loop map In]; [tauto|].
  destruct (String.eqb_spec (sym_name s) name) as [E|E].
  - split; [discriminate | intros H; exfalso; apply H; now left].
  - rewrite IH. tauto.
Qed.

(** X25. [with_symbol] appends, and [symbol_by_name] returns the first symbol
    of the name: after a symbol was added, a name the library already held
    still gives the older symbol, and only a name it did not hold gives the
    new one; the names of the library are the old ones followed by the new
    one, and a lookup fails exactly for the names that are not among them. *)
Theorem library_add_then_lookup (lib : SymbolLibrary) (sym : SymbolDef) (name : string) :
  SymbolLibrary_symbol_by_name (SymbolLibrary_with_symbol lib sym) name
  = match SymbolLibrary_symbol_by_name lib name with
    | Some x => Some x
    | None => if String.eqb (sym_name sym) name then Some sym else None
    end
  /\ SymbolLibrary_symbol_names (SymbolLibrary_with_symbol lib sym)
     = (SymbolLibrary_symbol_names lib ++ [sym_name sym])%list
  /\ (forall x, SymbolLibrary_symbol_by_name lib name = Some x ->
                sym_name x = name /\ In x (lib_symbols lib))
  /\ (SymbolLibrary_symbol_by_name lib name = None
      <-> ~ In name (SymbolLibrary_symbol_names lib)).
Proof.
  unfold SymbolLibrary_symbol_by_name, SymbolLibrary_with_symbol,
    SymbolLibrary_symbol_names. cbn [lib_symbols].
  split; [apply symbol_by_name_loop_app|]. split; [now rewrite map_app|].
  split; [intros x; apply symbol_by_name_loop_found | apply symbol_by_name_loop_none].
Qed.

Lemma library_add_then_lookup_witness :
  SymbolLibrary_symbol_by_name (SymbolLibrary_with_symbol sample_library sample_symbol) "R"
  = match SymbolLibrary_symbol_by_name sample_library "R" with
    | Some x => Some x
    | None => if String.eqb (sym_name sample_symbol) "R" then Some sample_symbol else None
    end
  /\ SymbolLibrary_symbol_names (SymbolLibrary_with_symbol sample_library sample_symbol)
     = (SymbolLibrary_symbol_names sample_library ++ [sym_name sample_symbol])%list
  /\ (forall x, SymbolLibrary_symbol_by_name sample_library "R" = Some x ->
                sym_name x = "R" /\ In x (lib_symbols sample_library))
  /\ (SymbolLibrary_symbol_by_name sample_library "R" = None
      <-> ~ In "R" (SymbolLibrary_symbol_names sample_library)).
Proof. exact (library_add_then_lookup sample_library sample_symbol "R"). Defined.

(** ** Pins across units *)

Lemma all_pins_loop_concat units : forall pins,
  all_pins_loop units pins = (pins ++ List.concat (map unit_pins units))%list.
Proof.
  induction units as [|u units IH]; intros pins; cbn [all_pins_loop map List.concat].
  - now rewrite app_nil_r.
  - now rewrite IH, app_assoc.
Qed.

Lemma pin_loop_app key a b wanted :
  SymbolUnit_pin_loop key (a ++ b) wanted
  = match SymbolUnit_pin_loop key a wanted with
    | Some pin => Some pin
    | None => SymbolUnit_pin_loop key b wanted
    end.
Proof.
  induction a as [|p a IH]; cbn [app SymbolUnit_pin_loop]; [reflexivity|].
  destruct (String.eqb (key p) wanted); [reflexivity | exact IH].
Qed.

(** X26. [SymbolDef.all_pins] lists the pins of the units in the order of the
    units, and [SymbolDef.pin_by_number] returns the first pin of that list
    that has the number: the pin of an earlier unit hides the pins of the
    same number in the later units. *)
Theorem pin_by_number_first_of_all (d : SymbolDef) (number : string) :
  SymbolDef_all_pins d = List.concat (map unit_pins (sym_units d))
  /\ SymbolDef_pin_by_number d number
     = SymbolUnit_pin_loop pin_number (SymbolDef_all_pins d) number.
Proof.
  unfold SymbolDef_all_pins, SymbolDef_pin_by_number.
  rewrite all_pins_loop_concat. cbn [app]. split; [reflexivity|].
  induction (sym_units d) as [|u units IH]; [reflexivity|].
  cbn [SymbolDef_pin_loop map List.concat]. rewrite pin_loop_app.
  unfold SymbolUnit_pin_by_number at 1.
  destruct (SymbolUnit_pin_loop pin_number (unit_pins u) number); [reflexivity | exact IH].
Qed.

(** ** Schematics: add, then look up *)

Lemma symbol_by_reference_loop_app symbols sym ref :
  symbol_by_reference_loop (symbols ++ [sym]) ref
  = match symbol_by_reference_loop symbols ref with
    | Some x => Some x
    | None => if String.eqb (reference sym) ref then Some sym else None
    end.
Proof.
  induction symbols as [|s symbols IH]; cbn [app symbol_by_reference_loop]; [reflexivity|].
  destruct (String.eqb (reference s) ref); [reflexivity | exact IH].
Qed.

(** X27. After [Schematic.with_symbol], [symbols_by_lib_id] returns what it
    returned before, followed by the new symbol when it has the library
    identifier, and [symbol_by_reference] still returns the older symbol for
    a reference that was in use (the new symbol only for one that was not);
    [with_wire] and [with_label] change neither lookup. *)
Theorem schematic_add_then_lookup (sch : Schematic) (sym : SymbolInstance)
  (wire : Wire) (label : Label) (key : string) :
  Schematic_symbols_by_lib_id (Schematic_with_symbol sch sym) key
  = (Schematic_symbols_by_lib_id sch key
     ++ (if String.eqb (si_lib_id sym) key then [sym] else []))%list
  /\ Schematic_symbol_by_reference (Schematic_with_symbol sch sym) key
     = match Schematic_symbol_by_reference sch key with
       | Some x => Some x
       | None => if String.eqb (reference sym) key then Some sym else None
       end
  /\ Schematic_symbols_by_lib_id (Schematic_with_wire sch wire) key
     = Schematic_symbols_by_lib_id sch key
  /\ Schematic_symbol_by_reference (Schematic_with_wire sch wire) key
     = Schematic_symbol_by_reference sch key
  /\ Schematic_symbols_by_lib_id (Schematic_with_label sch label) key
     = Schematic_symbols_by_lib_id sch key
  /\ Schematic_symbol_by_reference (Schematic_with_label sch label) key
     = Schematic_symbol_by_reference sch key.
Proof.
  unfold Schematic_symbols_by_lib_id, Schematic_symbol_by_reference,
    Schematic_with_symbol, Schematic_with_wire, Schematic_with_label.
  cbn [sch_symbols]. split; [|split; [|repeat split; reflexivity]].
  - rewrite filter_app. cbn [filter]. reflexivity.
  - apply symbol_by_reference_loop_app.
Qed.

(** ** Enumerations *)

Lemma py_lower_char_idem c : py_lower_char (py_lower_char c) = py_lower_char c.
Proof. destruct c as [[] [] [] [] [] [] [] []]; reflexivity. Qed.

Lemma py_lower_idem s : py_lower (py_lower s) = py_lower s.
Proof.
  unfold py_lower. induction s as [|c s IH]; [reflexivity|].
  cbn [map_string]. now rewrite py_lower_char_idem, IH.
Qed.

(** X28. For every member of each enumeration, [from_string] of its value is
    the member itself, and [from_string] does not depend on the case of the
    letters: a text and its lower-case form name the same member. *)
Theorem enum_value_round_trip :
  (forall x, PinElectricalType.from_string (PinElectricalType.value x) = x)
  /\ (forall x, PinShape.from_string (PinShape.value x) = x)
  /\ (forall x, FillType.from_string (FillType.value x) = x)
  /\ (forall x, StrokeType.from_string (StrokeType.value x) = x)
  /\ (forall x, LabelShape.from_string (LabelShape_value x) = x)
  /\ (forall x, JustifyHorizontal.from_string (JustifyHorizontal.value x) = x)
  /\ (forall x, JustifyVertical.from_string (JustifyVertical.value x) = x)
  /\ (forall x, Severity.from_string (Severity.value x) = x)
  /\ (forall x, SheetPinType.from_string (SheetPinType_value x) = x)
  /\ (forall s, PinElectricalType.from_string (py_lower s) = PinElectricalType.from_string s)
  /\ (forall s, PinShape.from_string (py_lower s) = PinShape.from_string s)
  /\ (forall s, LabelShape.from_string (py_lower s) = LabelShape.from_string s)
  /\ (forall s, SheetPinType.from_string (py_lower s) = SheetPinType.from_string s).
Proof.
  repeat split; try (intros x; destruct x; reflexivity);
    intros s;
    unfold PinElectricalType.from_string, PinShape.from_string,
      LabelShape.from_string, SheetPinType.from_string;
    now rewrite py_lower_idem.
Qed.

(** X29. [check_pin_compatibility] does not depend on the order of the two
    pins; it returns ERROR exactly when one pin is an output and the other an
    output, a power output or a power input, or when both are power outputs;
    it returns WARNING exactly for two inputs, and never INFO. *)
Theorem pin_compatibility_symmetric (a b : PinElectricalType.t) :
  check_pin_compatibility a b = check_pin_compatibility b a
  /\ (check_pin_compatibility a b = Severity.ERROR
      <-> (a = PinElectricalType.OUTPUT
           /\ (b = PinElectricalType.OUTPUT \/ b = PinElectricalType.POWER_OUT
               \/ b = PinElectricalType.POWER_IN))
          \/ (b = PinElectricalType.OUTPUT
              /\ (a = PinElectricalType.POWER_OUT \/ a = PinElectricalType.POWER_IN))
          \/ (a = PinElectricalType.POWER_OUT /\ b = PinElectricalType.POWER_OUT))
  /\ (check_pin_compatibility a b = Severity.WARNING
      <-> a = PinElectricalType.INPUT /\ b = PinElectricalType.INPUT)
  /\ check_pin_compatibility a b <> Severity.INFO.
Proof.
  split; [destruct a, b; reflexivity|].
  split; [|split].
  - split.
    + destruct a, b; cbv; intros H; try discriminate H; tauto.
    + intros [[-> [-> | [-> | ->]]] | [[-> [-> | ->]] | [-> ->]]]; reflexivity.
  - split.
    + destruct a, b; cbv; intros H; try discriminate H; tauto.
    + intros [-> ->]. reflexivity.
  - destruct a, b; discriminate.
Qed.

Lemma pin_compatibility_symmetric_witness :
  check_pin_compatibility PinElectricalType.POWER_IN PinElectricalType.OUTPUT
  = check_pin_compatibility PinElectricalType.OUTPUT PinElectricalType.POWER_IN
  /\ (check_pin_compatibility PinElectricalType.POWER_IN PinElectricalType.OUTPUT
      = Severity.ERROR
      <-> (PinElectricalType.POWER_IN = PinElectricalType.OUTPUT
           /\ (PinElectricalType.OUTPUT = PinElectricalType.OUTPUT
               \/ PinElectricalType.OUTPUT = PinElectricalType.POWER_OUT
               \/ PinElectricalType.OUTPUT = PinElectricalType.POWER_IN))
          \/ (PinElectricalType.OUTPUT = PinElectricalType.OUTPUT
              /\ (PinElectricalType.POWER_IN = PinElectricalType.POWER_OUT
                  \/ PinElectricalType.POWER_IN = PinElectricalType.POWER_IN))
          \/ (PinElectricalType.POWER_IN = PinElectricalType.POWER_OUT
              /\ PinElectricalType.OUTPUT = PinElectricalType.POWER_OUT))
  /\ (check_pin_compatibility PinElectricalType.POWER_IN PinElectricalType.OUTPUT
      = Severity.WARNING
      <-> PinElectricalType.POWER_IN = PinElectricalType.INPUT
          /\ PinElectricalType.OUTPUT = PinElectricalType.INPUT)
  /\ check_pin_compatibility PinElectricalType.POWER_IN PinElectricalType.OUTPUT
     <> Severity.INFO.
Proof.
  exact (pin_compatibility_symmetric PinElectricalType.POWER_IN PinElectricalType.OUTPUT).
Defined.

(** ** Results *)

(** X30. The methods of a result compose as those of a monad: [and_then] is
    associative with [Ok] as its unit on both sides, [map] is [and_then]
    followed by [Ok] and maps a composition to the composition of the maps,
    [map] and [map_err] leave the other variant alone and commute,
    [or_else] with [Err] is the identity; [unwrap] returns the value of an
    [Ok] and raises [ValueError] for an [Err], [unwrap_err] returns the error
    of an [Err] and raises [ValueError] for an [Ok], and neither raises
    anything else. *)
Theorem result_laws (T U V E F : Type) (r : Result T E)
  (f : T -> Result U E) (g : U -> Result V E) (h : T -> U) (k : U -> V)
  (m : E -> F) (default : T) :
  and_then (and_then r f) g = and_then r (fun x => and_then (f x) g)
  /\ and_then r Ok = r
  /\ (forall x, and_then (Ok x) f = f x)
  /\ Result_map r h = and_then r (fun x => Ok (h x))
  /\ Result_map (Result_map r h) k = Result_map r (fun x => k (h x))
  /\ map_err (Result_map r h) m = Result_map (map_err r m) h
  /\ or_else r Err = r
  /\ is_ok r = negb (is_err r)
  /\ is_ok (Result_map r h) = is_ok r
  /\ (is_ok r = true <-> exists x, unwrap r = Returned x)
  /\ (is_err r = true <-> exists e, unwrap_err r = Returned e)
  /\ (forall x, unwrap r = Returned x <-> r = Ok x)
  /\ (forall e, unwrap_err r = Returned e <-> r = Err e)
  /\ (is_err r = true <-> unwrap r = Raised ValueError)
  /\ (is_ok r = true <-> unwrap_err r = Raised ValueError)
  /\ (forall x : PyExn, unwrap r = Raised x -> x = ValueError)
  /\ (forall x : PyExn, unwrap_err r = Raised x -> x = ValueError)
  /\ unwrap_or (Result_map r h) (h default) = h (unwrap_or r default).
Proof.
  destruct r as [v|e]; cbn; repeat split; try reflexivity; try discriminate;
    try (intros _; eexists; reflexivity); try (intros [x Hx]; discriminate Hx);
    try congruence.
Qed.

Lemma result_laws_witness :
  and_then (and_then (Ok 1 : Result nat string) (fun x => Ok (S x))) (fun x => Err "e")
  = and_then (Ok 1 : Result nat string)
      (fun x => and_then ((fun x => Ok (S x)) x) (fun x => Err "e" : Result nat string))
  /\ unwrap (Err "e" : Result nat string) = Raised ValueError
  /\ unwrap_err (Ok 1 : Result nat string) = Raised ValueError.
Proof.
  split; [|split].
  - exact (proj1 (result_laws nat nat nat string string (Ok 1) (fun x => Ok (S x))
                    (fun x => Err "e") S S (fun e => e) 0)).
  - apply (result_laws nat nat nat string string (Err "e") (fun x => Ok (S x))
             (fun x => Err "e") S S (fun e => e) 0). reflexivity.
  - apply (result_laws nat nat nat string string (Ok 1) (fun x => Ok (S x))
             (fun x => Err "e") S S (fun e => e) 0). reflexivity.
Defined.
